(** * Function-parser: a shallow embedding of [parser.h] / [parser.cpp]

    The development follows the C++ sources function by function.

    - A C [double] is a primitive binary64 float ([PrimFloat.float]); the
      arithmetic of [ScanNumber] and of [std::complex<double>] is therefore
      computed with IEEE rounding, operation by operation.
    - A [char] is its code, 0 to 255; the range tests of the classifier
      answer the same on a signed [char].
    - A [size_t] is a [Z] reduced modulo [2^64] after every operation.
    - A [const char*] buffer is the list of its characters; the terminating
      NUL is implicit, and reading past it has no defined behaviour.
    - [std::unique_ptr<T>] is [option T] ([None] is the null pointer).
    - A member function of [FunctionParser] is a state transformer on the
      record of the four data members; an exception leaves the members as
      they were at the [throw]. *)

From Stdlib Require Import ZArith Floats String Ascii List Lia Bool.
From stdpp Require Import base option list gmap.

Local Open Scope Z_scope.

(** ** Error reporter ([FuncParseExcept]) *)

Module FuncParseExcept.

Inductive ErrorType : Set :=
| NoInput
| UnexpectedSymbol
| UnknownSymbol
| OpenBraces
| OperatorExpected
| EmptyFunction
| DanglingOperator
| InvalidVariableIndex
| UnknownError.

Record t : Set := Make { m_foundError : ErrorType; m_errorOffset : Z }.

End FuncParseExcept.

Abbreviation FuncParseExcept := FuncParseExcept.Make.

(** ** Outcomes of a call

    [Ok] is a normal return, [Throw] an exception that leaves the function,
    [Undefined] a step C++ gives no meaning to (a read past the terminating
    NUL, a null dereference, a signed overflow), and [OutOfFuel] belongs to
    the model only: the recursion of the parser is written on a counter. *)

Inductive Outcome (A : Type) : Type :=
| Ok (a : A)
| Throw (e : FuncParseExcept.t)
| Undefined
| OutOfFuel.

Arguments Ok {A} a.
Arguments Throw {A} e.
Arguments Undefined {A}.
Arguments OutOfFuel {A}.

Definition bindO {A B} (m : Outcome A) (k : A -> Outcome B) : Outcome B :=
  match m with
  | Ok a => k a
  | Throw e => Throw e
  | Undefined => Undefined
  | OutOfFuel => OutOfFuel
  end.

Declare Scope outcome_scope.
Delimit Scope outcome_scope with outcome.
Notation "x <- m ;; k" := (bindO m (fun x => k))
  (at level 100, m at next level, right associativity) : outcome_scope.

(** ** [size_t] *)

Definition SIZE_WIDTH : Z := 64.
Definition size_t (z : Z) : Z := z mod 2 ^ SIZE_WIDTH.
Definition sz_add (a b : Z) : Z := size_t (a + b).
Definition sz_sub (a b : Z) : Z := size_t (a - b).

Arguments size_t : simpl never.
Arguments sz_add : simpl never.
Arguments sz_sub : simpl never.

Definition INT_MAX : Z := 2147483647.

(** ** Character buffers *)

Definition NUL : ascii := "000"%char.

Definition char_code (ch : ascii) : Z := Z.of_N (N_of_ascii ch).

Definition char_eqb (a b : ascii) : bool := Ascii.eqb a b.

Arguments char_eqb : simpl never.

(** [func[j]]: the characters, then the terminator, then nothing. *)
Definition char_at (func : list ascii) (j : Z) : Outcome ascii :=
  if j <? 0 then Undefined
  else match func !! Z.to_nat j with
       | Some ch => Ok ch
       | None => if j =? Z.of_nat (length func) then Ok NUL else Undefined
       end.

(** [func + j]: what is left of the buffer from index [j] on. *)
Definition ptr_add (func : list ascii) (j : Z) : Outcome (list ascii) :=
  if (0 <=? j) && (j <=? Z.of_nat (length func))
  then Ok (drop (Z.to_nat j) func)
  else Undefined.

(** ** Character classifier *)

Definition IsLetter (ch : ascii) : bool :=
  ((char_code "a" <=? char_code ch) && (char_code ch <=? char_code "z")) ||
  ((char_code "A" <=? char_code ch) && (char_code ch <=? char_code "Z")).

Definition IsDigit (ch : ascii) : bool :=
  (char_code "0" <=? char_code ch) && (char_code ch <=? char_code "9").

Definition IsNamePart (ch : ascii) : bool :=
  IsLetter ch || IsDigit ch || char_eqb "_" ch.

Definition IsNumberPart (ch : ascii) : bool :=
  IsDigit ch || char_eqb ch "." || char_eqb ch "-".

(** [std::isspace] in the "C" locale. *)
Definition isspace (ch : ascii) : bool :=
  (char_code ch =? 32) || ((9 <=? char_code ch) && (char_code ch <=? 13)).

(** ** Brace matcher *)

Fixpoint CountBetweenBraces_loop (n : nat) (func : list ascii) (offset : Z)
    (braceCntr j : Z) : Outcome Z :=
  match n with
  | O => Throw (FuncParseExcept FuncParseExcept.OpenBraces offset)
  | S n' =>
      (ch <- char_at func j ;;
       if char_eqb "(" ch then
         CountBetweenBraces_loop n' func offset (sz_add braceCntr 1) (sz_add j 1)
       else if char_eqb ")" ch then
         let braceCntr' := sz_sub braceCntr 1 in
         if 0 =? braceCntr' then Ok (sz_sub j offset)
         else CountBetweenBraces_loop n' func offset braceCntr' (sz_add j 1)
       else CountBetweenBraces_loop n' func offset braceCntr (sz_add j 1))%outcome
  end.

(** [for (j = offset + 1; j < offset + length; j++)]: the number of
    iterations a run without [return] makes is the width of the range. *)
Definition CountBetweenBraces (func : list ascii) (offset length : Z) : Outcome Z :=
  CountBetweenBraces_loop
    (Z.to_nat (sz_add offset length - sz_add offset 1))
    func offset 1 (sz_add offset 1).

(** ** Name length *)

Fixpoint CountNameLength_from (name : list ascii) (i length : Z) : Z :=
  if i <? length then
    match name with
    | ch :: name' =>
        if IsNamePart ch then CountNameLength_from name' (sz_add i 1) length
        else i
    | [] => i
    end
  else length.

Definition CountNameLength (name : list ascii) (length : Z) : Z :=
  CountNameLength_from name 0 length.

(** ** Number scanner *)

Definition digit_value (ch : ascii) : Z := char_code ch - char_code "0".

Definition double_of_Z (z : Z) : float := PrimFloat.of_uint63 (Uint63.of_Z z).

(** [while (IsDigit(func[offset])) num = 10.0 * num + (func[offset++] - '0')] *)
Fixpoint ScanNumber_whole (rest : list ascii) (num : float) (offset : Z)
    (digitPresent : bool) : float * Z * bool :=
  match rest with
  | ch :: rest' =>
      if IsDigit ch then
        ScanNumber_whole rest'
          (10 * num + double_of_Z (digit_value ch))%float (sz_add offset 1) true
      else (num, offset, digitPresent)
  | [] => (num, offset, digitPresent)
  end.

(** [while (IsDigit(func[++offset]))
      num += (func[offset] - '0') / (fractionalDiv /= 10.0)];
    [rest] starts at [func[offset + 1]]. *)
Fixpoint ScanNumber_fraction (rest : list ascii) (num fractionalDiv : float)
    (offset : Z) (digitPresent : bool) : float * Z * bool :=
  let offset := sz_add offset 1 in
  match rest with
  | ch :: rest' =>
      if IsDigit ch then
        let fractionalDiv := (fractionalDiv / 10)%float in
        ScanNumber_fraction rest'
          (num + double_of_Z (digit_value ch) / fractionalDiv)%float
          fractionalDiv offset true
      else (num, offset, digitPresent)
  | [] => (num, offset, digitPresent)
  end.

(** Returns the value and the updated [offset] (a reference parameter). *)
Definition ScanNumber (func : list ascii) (offset : Z) : Outcome (float * Z) :=
  (let fractionalDiv := 1%float in
   let digitPresent := false in
   let num := 0%float in
   let firstIdx := offset in
   first <- char_at func firstIdx ;;
   let offset := if char_eqb first "-" then sz_add offset 1 else offset in
   rest <- ptr_add func offset ;;
   let '(num, offset, digitPresent) := ScanNumber_whole rest num offset digitPresent in
   ch <- char_at func offset ;;
   scanned <-
     (if char_eqb ch "." then
        rest <- ptr_add func (sz_add offset 1) ;;
        Ok (ScanNumber_fraction rest num fractionalDiv offset digitPresent)
      else Ok (num, offset, digitPresent)) ;;
   let '(num, offset, digitPresent) := scanned in
   if negb digitPresent then
     Throw (FuncParseExcept FuncParseExcept.UnexpectedSymbol firstIdx)
   else Ok (if char_eqb first "-" then (- num)%float else num, offset))%outcome.

Definition c_str (s : string) : list ascii := list_ascii_of_string s.

(** ** AST ([FunctionParser::FuncElem] and its four derived structs) *)

Record Complex : Set := complex { real : float; imag : float }.

Module FunctionName.
(** [FunctionParser::Function::Name] *)
Inductive t : Set :=
| sin | cos | tan | sinh | cosh | tanh | exp | log | abs | pos | ang | re | im.

(** [static_cast<size_t>(name)] *)
Definition to_index (n : t) : nat :=
  match n with
  | sin => 0 | cos => 1 | tan => 2 | sinh => 3 | cosh => 4 | tanh => 5
  | exp => 6 | log => 7 | abs => 8 | pos => 9 | ang => 10 | re => 11
  | im => 12
  end%nat.

(** [static_cast<Function::Name>(i)] *)
Definition of_index (i : nat) : option t :=
  [sin; cos; tan; sinh; cosh; tanh; exp; log; abs; pos; ang; re; im] !! i.
End FunctionName.

Module OperatorName.
(** [FunctionParser::Operator::Name] *)
Inductive t : Set := add | sub | mul | div | pow.

Definition to_index (n : t) : nat :=
  match n with add => 0 | sub => 1 | mul => 2 | div => 3 | pow => 4 end%nat.
End OperatorName.

(** [Variable] is a reserved word of Rocq, hence the prime. *)
#[warnings="-register-all"]
Inductive FuncElem : Set :=
| Variable' (index : Z)
| Constant (value : Complex)
| Function (name : FunctionName.t) (param : option FuncElem)
| Operator (name : OperatorName.t) (params0 params1 : option FuncElem)
    (precedence : Z).

Module FuncElemType.
(** [FuncElem::Type] *)
Inductive t : Set := Variable' | Constant | Function | Operator.
End FuncElemType.

Definition FuncElem_type (e : FuncElem) : FuncElemType.t :=
  match e with
  | Variable' _ => FuncElemType.Variable'
  | Constant _ => FuncElemType.Constant
  | Function _ _ => FuncElemType.Function
  | Operator _ _ _ _ => FuncElemType.Operator
  end.

Definition g_FunctionNames : list string :=
  ["sin"; "cos"; "tan"; "sinh"; "cosh"; "tanh"; "exp"; "log"; "abs"; "pos";
   "ang"; "re"; "im"]%string.

(** ** Parser session state *)

Inductive Precision : Set := Single | Double | Extended.

Record FunctionParser : Set := mkFunctionParser {
  m_usedVariables : gset Z;
  m_supportedPrecision : Precision;
  m_inputFunc : string;
  m_parsedFunc : option FuncElem
}.

Definition set_usedVariables (f : gset Z -> gset Z) (p : FunctionParser) :=
  mkFunctionParser (f (m_usedVariables p)) (m_supportedPrecision p)
    (m_inputFunc p) (m_parsedFunc p).

Definition set_supportedPrecision (x : Precision) (p : FunctionParser) :=
  mkFunctionParser (m_usedVariables p) x (m_inputFunc p) (m_parsedFunc p).

Definition Precision_eqb (a b : Precision) : bool :=
  match a, b with
  | Single, Single | Double, Double | Extended, Extended => true
  | _, _ => false
  end.

(** A member function: the outcome together with the members afterwards. *)
Definition Member (A : Type) : Type := FunctionParser -> Outcome A * FunctionParser.

Definition retM {A} (a : A) : Member A := fun st => (Ok a, st).

Definition bindM {A B} (m : Member A) (k : A -> Member B) : Member B :=
  fun st =>
    match m st with
    | (Ok a, st') => k a st'
    | (Throw e, st') => (Throw e, st')
    | (Undefined, st') => (Undefined, st')
    | (OutOfFuel, st') => (OutOfFuel, st')
    end.

(** A call of a free function from inside a member function. *)
Definition liftM {A} (m : Outcome A) : Member A := fun st => (m, st).

Definition throwM {A} (e : FuncParseExcept.t) : Member A := liftM (Throw e).

Declare Scope member_scope.
Delimit Scope member_scope with member.
Notation "x <~ m ;; k" := (bindM m (fun x => k))
  (at level 100, m at next level, right associativity) : member_scope.

(** ** Precision tracker *)

(** [for (i = 0; i < _countof(g_FunctionNames); i++) if (g_FunctionNames[i] == name)] *)
Fixpoint find_name (table : list string) (name : string) (i : nat) : option nat :=
  match table with
  | [] => None
  | entry :: table' =>
      if String.eqb entry name then Some i else find_name table' name (S i)
  end.

Definition GetFunctionNameApplyPrecision (name : string) (offset : Z)
  : Member FunctionName.t :=
  fun st =>
    match find_name g_FunctionNames name 0 with
    | Some i =>
        match FunctionName.of_index i with
        | Some n =>
            let st' :=
              if negb (Precision_eqb (m_supportedPrecision st) Single) then
                match n with
                | FunctionName.pos | FunctionName.re | FunctionName.im => st
                | _ => set_supportedPrecision Single st
                end
              else st in
            (Ok n, st')
        | None => (Undefined, st)
        end
    | None => (Throw (FuncParseExcept FuncParseExcept.UnknownSymbol offset), st)
    end.

(** ** Operator scanner *)

Definition ScanOperator (func : list ascii) (offset : Z)
  : Outcome (option FuncElem * Z) :=
  (ch <- char_at func offset ;;
   let offset := sz_add offset 1 in
   if char_eqb ch "+" then Ok (Some (Operator OperatorName.add None None 0), offset)
   else if char_eqb ch "-" then Ok (Some (Operator OperatorName.sub None None 0), offset)
   else if char_eqb ch "*" then Ok (Some (Operator OperatorName.mul None None 1), offset)
   else if char_eqb ch "/" then Ok (Some (Operator OperatorName.div None None 1), offset)
   else if char_eqb ch "^" then Ok (Some (Operator OperatorName.pow None None 2), offset)
   else Throw (FuncParseExcept FuncParseExcept.OperatorExpected (sz_sub offset 1)))%outcome.

(** ** Operand scanner: the named-variable branch *)

(** [name[i]] of a [std::string]: the character, or NUL at [size()]. *)
Definition name_at (name : list ascii) (i : nat) : ascii :=
  match name !! i with Some ch => ch | None => NUL end.

(** [for (i = 1; i < name.length(); i++)], entered with [rest] the
    characters from [name[1]] on. *)
Fixpoint ScanIndex (rest : list ascii) (index : Z) (errorOffset : Z) : Outcome Z :=
  match rest with
  | [] => Ok index
  | ch :: rest' =>
      if negb (IsDigit ch) then
        Throw (FuncParseExcept FuncParseExcept.UnexpectedSymbol errorOffset)
      else
        let index' := index * 10 + digit_value ch in
        if index' <=? INT_MAX then ScanIndex rest' index' errorOffset else Undefined
  end.

Definition name_length (name : list ascii) : Z := Z.of_nat (length name).

Definition ScanVariable (name : list ascii) (offset : Z) : Member FuncElem :=
  if String.eqb (string_of_list_ascii name) "i" then
    retM (Constant (complex 0 1))
  else if String.eqb (string_of_list_ascii name) "c" then
    fun st => (Ok (Variable' (-1)), set_usedVariables (fun s => {[ -1 ]} ∪ s) st)
  else if char_eqb (name_at name 0) "z" then
    if ((1 <? name_length name) && char_eqb (name_at name 1) "0")
       || (10 <? name_length name) then
      throwM (FuncParseExcept FuncParseExcept.UnexpectedSymbol
                (sz_sub offset (name_length name)))
    else
      (index <~ liftM (ScanIndex (drop 1 name) 0 (sz_sub offset (name_length name))) ;;
       fun st => (Ok (Variable' index), set_usedVariables (fun s => {[ index ]} ∪ s) st))%member
  else
    throwM (FuncParseExcept FuncParseExcept.UnexpectedSymbol
              (sz_sub (sz_add offset 1) (name_length name))).

(** ** Precedence reducer: the three compaction passes *)

(** [tokenized[k]] of the [std::vector]; an index outside it is undefined. *)
Definition vec_at {A} (v : list A) (k : Z) : Outcome A :=
  if k <? 0 then Undefined
  else match v !! Z.to_nat k with
       | Some x => Ok x
       | None => Undefined
       end.

Definition vec_set {A} (v : list A) (k : Z) (x : A) : list A :=
  <[Z.to_nat k := x]> v.

(** [FuncElem::Type::Operator == tok->type &&
     static_cast<Operator*>(tok)->precedence == precedence]; the name and the
    precedence of the operator when the test holds. *)
Definition operator_at (precedence : Z) (e : FuncElem) : option (OperatorName.t * Z) :=
  match e with
  | Operator name _ _ opPrecedence =>
      if opPrecedence =? precedence then Some (name, opPrecedence) else None
  | _ => None
  end.

(** [while (readIdx < tokenCount)] for one [precedence]; returns the vector
    and the final [storeIdx]. *)
Fixpoint ReducePass (n : nat) (precedence : Z) (tokenized : list (option FuncElem))
    (tokenCount storeIdx readIdx : Z) : Outcome (list (option FuncElem) * Z) :=
  if readIdx <? tokenCount then
    match n with
    | O => OutOfFuel
    | S n' =>
        (tok <- vec_at tokenized readIdx ;;
         match tok with
         | None => Undefined
         | Some e =>
             match operator_at precedence e with
             | Some (name, opPrecedence) =>
                 if negb ((sz_add readIdx 1 <? tokenCount) && (0 <? storeIdx)) then
                   Throw (FuncParseExcept FuncParseExcept.EmptyFunction 0)
                 else
                   left <- vec_at tokenized (sz_sub storeIdx 1) ;;
                   let tokenized := vec_set tokenized (sz_sub storeIdx 1) None in
                   right <- vec_at tokenized (sz_add readIdx 1) ;;
                   let tokenized := vec_set tokenized (sz_add readIdx 1) None in
                   let op := Operator name left right opPrecedence in
                   let tokenized :=
                     vec_set (vec_set tokenized readIdx None)
                       (sz_sub storeIdx 1) (Some op) in
                   ReducePass n' precedence tokenized tokenCount
                     storeIdx (sz_add readIdx 2)
             | None =>
                 let tokenized :=
                   if negb (storeIdx =? readIdx) then
                     vec_set (vec_set tokenized readIdx None) storeIdx tok
                   else tokenized in
                 ReducePass n' precedence tokenized tokenCount
                   (sz_add storeIdx 1) (sz_add readIdx 1)
             end
         end)%outcome
    end
  else Ok (tokenized, storeIdx).

(** [for (int precedence = 2; precedence >= 0; precedence--)] *)
Definition Reduce (tokenized : list (option FuncElem))
  : Outcome (list (option FuncElem) * Z) :=
  (let tokenCount := Z.of_nat (length tokenized) in
   r <- ReducePass (Z.to_nat tokenCount) 2 tokenized tokenCount 0 0 ;;
   let '(tokenized, tokenCount) := r in
   r <- ReducePass (Z.to_nat tokenCount) 1 tokenized tokenCount 0 0 ;;
   let '(tokenized, tokenCount) := r in
   ReducePass (Z.to_nat tokenCount) 0 tokenized tokenCount 0 0)%outcome.

(** ** Operand scanner and precedence reducer

    [ScanEvaluated] and [ParsePart] call each other, and [Tokenize] is the
    [for] loop of [ParsePart] that fills [tokenized].  Each body is written
    once, over the functions it calls; the recursion is tied below on a
    counter.  [ScanEvaluated] returns the node together with the new value
    of its reference parameter [offset]. *)

Section Bodies.
Variable ParsePart : list ascii -> Z -> Z -> Member (option FuncElem).
Variable ScanEvaluated : list ascii -> Z -> Z -> Member (option FuncElem * Z).
Variable Tokenize :
  list ascii -> Z -> Z -> Z -> bool -> list (option FuncElem) ->
  Member (list (option FuncElem) * bool).

(** [func] is a buffer here and never the null pointer, so [!func] is
    false and the first test is [!length]. *)
Definition ParsePart_body (func : list ascii) (offset length : Z)
  : Member (option FuncElem) :=
  if length =? 0 then throwM (FuncParseExcept FuncParseExcept.NoInput 0)
  else
    (r <~ Tokenize func offset length offset true [] ;;
     let '(tokenized, scanEvaluated) := r in
     if scanEvaluated : bool then
       throwM (FuncParseExcept FuncParseExcept.DanglingOperator
                 (sz_sub (sz_add offset length) 1))
     else if bool_decide (tokenized = []) then
       throwM (FuncParseExcept FuncParseExcept.NoInput 0)
     else
       r <~ liftM (Reduce tokenized) ;;
       let '(tokenized, tokenCount) := r in
       if negb (1 =? tokenCount) then
         throwM (FuncParseExcept FuncParseExcept.UnknownError 0)
       else liftM (vec_at tokenized 0))%member.

Definition ScanEvaluated_body (func : list ascii) (offset length : Z)
  : Member (option FuncElem * Z) :=
  (ch <~ liftM (char_at func offset) ;;
   if char_eqb "(" ch then
     let offset := sz_add offset 1 in
     bracedLength <~ liftM (CountBetweenBraces func offset length) ;;
     funcElem <~ ParsePart func offset bracedLength ;;
     let offset := sz_add offset (sz_add bracedLength 1) in
     retM (funcElem, offset)
   else if IsLetter ch then
     start <~ liftM (ptr_add func offset) ;;
     let nameLength := CountNameLength start (sz_sub length offset) in
     let name := take (Z.to_nat nameLength) start in
     let offset := sz_add offset nameLength in
     next <~ liftM (char_at func offset) ;;
     if char_eqb next "(" then
       n <~ GetFunctionNameApplyPrecision (string_of_list_ascii name) offset ;;
       r <~ ScanEvaluated func offset length ;;
       let '(param, offset) := r in
       retM (Some (Function n param), offset)
     else
       funcElem <~ ScanVariable name offset ;;
       retM (Some funcElem, offset)
   else if IsNumberPart ch then
     r <~ liftM (ScanNumber func offset) ;;
     let '(num, offset) := r in
     retM (Some (Constant (complex num 0)), offset)
   else throwM (FuncParseExcept FuncParseExcept.UnknownSymbol offset))%member.

(** [for (i = offset; i < offset + length; scanEvaluated = !scanEvaluated)
      tokenized.emplace_back(scanEvaluated
        ? ScanEvaluated(func, i, length + offset - i) : ScanOperator(func, i))] *)
Definition Tokenize_body (func : list ascii) (offset length i : Z)
    (scanEvaluated : bool) (tokenized : list (option FuncElem))
  : Member (list (option FuncElem) * bool) :=
  if i <? sz_add offset length then
    (r <~ (if scanEvaluated
           then ScanEvaluated func i (sz_sub (sz_add length offset) i)
           else liftM (ScanOperator func i)) ;;
     let '(token, i) := r in
     Tokenize func offset length i (negb scanEvaluated) (tokenized ++ [token]))%member
  else retM (tokenized, scanEvaluated).
End Bodies.

Fixpoint ParsePart (fuel : nat) : list ascii -> Z -> Z -> Member (option FuncElem) :=
  match fuel with
  | O => fun _ _ _ => liftM OutOfFuel
  | S fuel' => ParsePart_body (fun func => Tokenize fuel' func)
  end

with ScanEvaluated (fuel : nat)
  : list ascii -> Z -> Z -> Member (option FuncElem * Z) :=
  match fuel with
  | O => fun _ _ _ => liftM OutOfFuel
  | S fuel' =>
      ScanEvaluated_body (fun func => ParsePart fuel' func)
        (fun func => ScanEvaluated fuel' func)
  end

with Tokenize (fuel : nat)
  : list ascii -> Z -> Z -> Z -> bool -> list (option FuncElem) ->
    Member (list (option FuncElem) * bool) :=
  match fuel with
  | O => fun _ _ _ _ _ _ => liftM OutOfFuel
  | S fuel' =>
      Tokenize_body (fun func => ScanEvaluated fuel' func)
        (fun func => Tokenize fuel' func)
  end.

(** ** Top-level entry *)

Definition Clear : Member unit :=
  fun _ => (Ok tt, mkFunctionParser ∅ Extended EmptyString None).

(** [for (i = 0; function[i]; i++) if (!isspace(function[i])) input += function[i]] *)
Fixpoint StripWhitespace (function : string) : list ascii :=
  match function with
  | EmptyString => []
  | String ch function' =>
      if char_eqb ch NUL then []
      else if negb (isspace ch) then ch :: StripWhitespace function'
      else StripWhitespace function'
  end.

(** The counter handed to [ParsePart]: four steps for each character. *)
Definition ParseFuel (input : list ascii) : nat := (4 * length input + 4)%nat.

Definition Parse (function : string) : Member unit :=
  (_ <~ Clear ;;
   let input := StripWhitespace function in
   output <~ ParsePart (ParseFuel input) input 0 (Z.of_nat (length input)) ;;
   fun st =>
     (Ok tt, mkFunctionParser (m_usedVariables st) (m_supportedPrecision st)
               (string_of_list_ascii input) output))%member.

(** A freshly constructed parser ([FunctionParser::FunctionParser()]). *)
Definition FunctionParser_new : FunctionParser :=
  mkFunctionParser ∅ Extended EmptyString None.

Definition PseudoCode (p : FunctionParser) : option FuncElem := m_parsedFunc p.
Definition UsedVariables (p : FunctionParser) : gset Z := m_usedVariables p.
Definition SupportedPrecision (p : FunctionParser) : Precision := m_supportedPrecision p.

(** ** Auxiliary numeric functions (namespace [mth])

    Each function has two overloads: one on [std::complex<T>], chosen by the
    complex instantiation, and one on [T] itself.  [T] is [double] here;
    [std::abs] on a [double] is [PrimFloat.abs], and [std::atan2] belongs to
    the C++ library. *)

Module mth.
Section Overloads.
Variable atan2 : float -> float -> float.

Definition pos_complex (t : Complex) : Complex :=
  complex (PrimFloat.abs (real t)) (PrimFloat.abs (imag t)).
Definition pos (t : float) : float := PrimFloat.abs t.

Definition ang_complex (t : Complex) : Complex :=
  complex (atan2 (imag t) (real t)) 0.
Definition ang (t : float) : float := 0%float.

Definition re_complex (t : Complex) : Complex :=
  complex (PrimFloat.abs (real t)) 0.
Definition re (t : float) : float := t.

Definition im_complex (t : Complex) : Complex :=
  complex (PrimFloat.abs (imag t)) 0.
Definition im (t : float) : float := 0%float.
End Overloads.
End mth.

(** ** Generic evaluator ([FunctionEvaluator<NumberType>])

    What the template asks of [NumberType]: value initialisation, a
    conversion from the [std::complex<double>] of a parsed constant, the four
    arithmetic operators, [std::pow], the nine functions of [<cmath>] /
    [<complex>] and the four functions of [mth]. *)

Class NumberType (T : Type) : Type := {
  nt_init : T;
  nt_of_constant : Complex -> T;
  nt_add : T -> T -> T;
  nt_sub : T -> T -> T;
  nt_mul : T -> T -> T;
  nt_div : T -> T -> T;
  nt_pow : T -> T -> T;
  nt_sin : T -> T;
  nt_cos : T -> T;
  nt_tan : T -> T;
  nt_sinh : T -> T;
  nt_cosh : T -> T;
  nt_tanh : T -> T;
  nt_exp : T -> T;
  nt_log : T -> T;
  nt_abs : T -> T;
  nt_pos : T -> T;
  nt_ang : T -> T;
  nt_re : T -> T;
  nt_im : T -> T
}.

(** The functions of the C++ library on [std::complex<double>] that the
    repository calls and does not define. *)
Record StdComplex : Type := {
  std_div : Complex -> Complex -> Complex;
  std_pow : Complex -> Complex -> Complex;
  std_sin : Complex -> Complex;
  std_cos : Complex -> Complex;
  std_tan : Complex -> Complex;
  std_sinh : Complex -> Complex;
  std_cosh : Complex -> Complex;
  std_tanh : Complex -> Complex;
  std_exp : Complex -> Complex;
  std_log : Complex -> Complex;
  std_abs : Complex -> float;
  std_atan2 : float -> float -> float
}.

(** [operator+], [operator-] and [operator*] of [std::complex<double>], each
    component rounded on its own. *)
Definition complex_add (a b : Complex) : Complex :=
  complex (real a + real b) (imag a + imag b).
Definition complex_sub (a b : Complex) : Complex :=
  complex (real a - real b) (imag a - imag b).
Definition complex_mul (a b : Complex) : Complex :=
  complex (real a * real b - imag a * imag b)
          (real a * imag b + imag a * real b).

(** The complex instantiation, [FunctionEvaluator<std::complex<double>>]. *)
#[export] Instance complex_double (lib : StdComplex) : NumberType Complex := {
  nt_init := complex 0 0;
  nt_of_constant := fun value => value;
  nt_add := complex_add;
  nt_sub := complex_sub;
  nt_mul := complex_mul;
  nt_div := std_div lib;
  nt_pow := std_pow lib;
  nt_sin := std_sin lib;
  nt_cos := std_cos lib;
  nt_tan := std_tan lib;
  nt_sinh := std_sinh lib;
  nt_cosh := std_cosh lib;
  nt_tanh := std_tanh lib;
  nt_exp := std_exp lib;
  nt_log := std_log lib;
  nt_abs := fun p => complex (std_abs lib p) 0;
  nt_pos := mth.pos_complex;
  nt_ang := mth.ang_complex (std_atan2 lib);
  nt_re := mth.re_complex;
  nt_im := mth.im_complex
}.

Section Evaluator.
Context {NumberT : Type} `{NumberType NumberT}.

(** The evaluation tree.  A variable node holds a reference into
    [m_variables]: it is the key of the slot, read again at every [Eval].
    The children are results of [std::make_unique], never null. *)
Inductive Elem : Type :=
| EvalConstant (m_value : NumberT)
| EvalVariable (slot : Z)
| EvalFunction (m_param : Elem) (m_function : NumberT -> NumberT)
| EvalOperator (m_params0 m_params1 : Elem)
    (m_function : NumberT -> NumberT -> NumberT).

Fixpoint Elem_Eval (m_variables : gmap Z NumberT) (e : Elem) : Outcome NumberT :=
  match e with
  | EvalConstant m_value => Ok m_value
  | EvalVariable slot =>
      match m_variables !! slot with
      | Some m_value => Ok m_value
      | None => Undefined
      end
  | EvalFunction m_param m_function =>
      (p <- Elem_Eval m_variables m_param ;; Ok (m_function p))%outcome
  | EvalOperator m_params0 m_params1 m_function =>
      (lhs <- Elem_Eval m_variables m_params0 ;;
       rhs <- Elem_Eval m_variables m_params1 ;;
       Ok (m_function lhs rhs))%outcome
  end.

Definition operator_functions : list (NumberT -> NumberT -> NumberT) :=
  [nt_add; nt_sub; nt_mul; nt_div; nt_pow].

Definition function_functions : list (NumberT -> NumberT) :=
  [nt_sin; nt_cos; nt_tan; nt_sinh; nt_cosh; nt_tanh; nt_exp; nt_log; nt_abs;
   nt_pos; nt_ang; nt_re; nt_im].

(** [ConvertElem] with [ConvertOperator], [ConvertFunction],
    [ConvertConstant] and [ConvertVariable] as its four cases; a null
    child is dereferenced by the [switch] on its [type]. *)
Fixpoint ConvertElem (m_variables : gmap Z NumberT) (funcElem : FuncElem)
  : Outcome Elem :=
  let convert_ptr (p : option FuncElem) : Outcome Elem :=
    match p with
    | Some child => ConvertElem m_variables child
    | None => Undefined
    end in
  match funcElem with
  | Operator name params0 params1 _ =>
      match operator_functions !! OperatorName.to_index name with
      | Some f =>
          (param1 <- convert_ptr params0 ;;
           param2 <- convert_ptr params1 ;;
           Ok (EvalOperator param1 param2 f))%outcome
      | None => Throw (FuncParseExcept FuncParseExcept.UnknownSymbol 0)
      end
  | Function name param =>
      match function_functions !! FunctionName.to_index name with
      | Some f =>
          (param <- convert_ptr param ;; Ok (EvalFunction param f))%outcome
      | None => Throw (FuncParseExcept FuncParseExcept.UnknownSymbol 0)
      end
  | Constant value => Ok (EvalConstant (nt_of_constant value))
  | Variable' index =>
      match m_variables !! index with
      | Some _ => Ok (EvalVariable index)
      | None => Throw (FuncParseExcept FuncParseExcept.InvalidVariableIndex 0)
      end
  end.

Record FunctionEvaluator : Type := mkFunctionEvaluator {
  m_funcTree : Elem;
  m_variables : gmap Z NumberT
}.

(** The constructor: one value-initialised slot for each used variable,
    then the conversion of the root. *)
Definition FunctionEvaluator_new (parser : FunctionParser)
  : Outcome FunctionEvaluator :=
  let variables : gmap Z NumberT := gset_to_gmap nt_init (UsedVariables parser) in
  match PseudoCode parser with
  | Some root =>
      (tree <- ConvertElem variables root ;;
       Ok (mkFunctionEvaluator tree variables))%outcome
  | None => Undefined
  end.

(** [operator()] *)
Definition call (ev : FunctionEvaluator) : Outcome NumberT :=
  Elem_Eval (m_variables ev) (m_funcTree ev).

(** [Variables()[index] = value], the caller writing into the store. *)
Definition assign (index : Z) (value : NumberT) (ev : FunctionEvaluator)
  : FunctionEvaluator :=
  mkFunctionEvaluator (m_funcTree ev) (<[index := value]> (m_variables ev)).
End Evaluator.

Arguments Elem : clear implicits.
Arguments FunctionEvaluator : clear implicits.

(** ** Names, messages and printing *)

(** [g_FunctionNames[static_cast<size_t>(name)]] *)
Definition FunctionName_text (name : FunctionName.t) : string :=
  match g_FunctionNames !! FunctionName.to_index name with
  | Some text => text
  | None => EmptyString
  end.

(** ** Stream output of integers

    [os << n] for a non-negative integer under the default flags and the
    classic locale: the decimal digits, most significant first, with no
    sign, padding or separator.  A [size_t] has at most twenty digits. *)

Definition digit_char (d : Z) : ascii := ascii_of_N (Z.to_N (char_code "0" + d)).

Fixpoint decimal_digits (n : nat) (value : Z) (text : list ascii) : list ascii :=
  match n with
  | O => text
  | S n' =>
      let text := digit_char (value mod 10) :: text in
      if value <? 10 then text else decimal_digits n' (value / 10) text
  end.

Definition print_decimal (value : Z) : list ascii := decimal_digits 20 value [].

(** ** The message of an exception ([FuncParseExcept::what]) *)

Definition s_ErrorNameTable : list string :=
  ["No input"; "Unexpected symbol"; "Unknown symbol"; "Open braces";
   "Operator expected"; "Empty function"; "Dangling operator";
   "Invalid variable index"; "Unknown error"]%string.

Definition ErrorType_index (error : FuncParseExcept.ErrorType) : nat :=
  match error with
  | FuncParseExcept.NoInput => 0
  | FuncParseExcept.UnexpectedSymbol => 1
  | FuncParseExcept.UnknownSymbol => 2
  | FuncParseExcept.OpenBraces => 3
  | FuncParseExcept.OperatorExpected => 4
  | FuncParseExcept.EmptyFunction => 5
  | FuncParseExcept.DanglingOperator => 6
  | FuncParseExcept.InvalidVariableIndex => 7
  | FuncParseExcept.UnknownError => 8
  end%nat.

(** [m_readableError], as the constructor builds it from [error] and
    [where]; [what()] returns it. *)
Definition what (e : FuncParseExcept.t) : string :=
  let error := FuncParseExcept.m_foundError e in
  let name :=
    match s_ErrorNameTable !! ErrorType_index error with
    | Some name => name
    | None => EmptyString
    end in
  match error with
  | FuncParseExcept.NoInput
  | FuncParseExcept.EmptyFunction
  | FuncParseExcept.UnknownError => name
  | _ =>
      (name ++ " at position "
       ++ string_of_list_ascii
            (print_decimal (sz_add (FuncParseExcept.m_errorOffset e) 1)))%string
  end.

(** ** Pseudo-code printer ([Print] and [operator<<])

    The characters a node writes to the stream.  The text of a [double] is
    the business of the stream and its formatting state; it is a parameter
    here. *)

Section Printer.
Variable print_double : float -> string.

Definition opNames : list string := ["add"; "sub"; "mul"; "div"; "pow"]%string.

Fixpoint Print (e : FuncElem) : string :=
  let print_ptr (p : option FuncElem) : string :=
    match p with
    | Some child => Print child
    | None => EmptyString
    end in
  match e with
  | Variable' index =>
      String (if index <? 0 then "c"%char else "z"%char)
        (if 0 <? index then string_of_list_ascii (print_decimal index)
         else EmptyString)
  | Constant value =>
      ("(" ++ print_double (real value) ++ "," ++ print_double (imag value)
       ++ ")")%string
  | Function name param =>
      (FunctionName_text name ++ "(" ++ print_ptr param ++ ")")%string
  | Operator name params0 params1 _ =>
      (match opNames !! OperatorName.to_index name with
       | Some text => text
       | None => EmptyString
       end ++ "(" ++ print_ptr params0 ++ "," ++ print_ptr params1 ++ ")")%string
  end.
End Printer.

(** * Vocabulary of the statements *)

(** Running a whole session: parse, build the complex evaluator, write the
    given values into the variable store, evaluate once. *)
Definition evaluate (lib : StdComplex) (function : string)
    (bindings : list (Z * Complex)) : Outcome Complex :=
  match Parse function FunctionParser_new with
  | (Ok _, parser) =>
      (ev <- FunctionEvaluator_new (H := complex_double lib) parser ;;
       call (foldl (fun ev b => assign b.1 b.2 ev) ev bindings))%outcome
  | (Throw e, _) => Throw e
  | (Undefined, _) => Undefined
  | (OutOfFuel, _) => OutOfFuel
  end.

(** A numeric literal as [ScanEvaluated] stores it: zero imaginary part. *)
Definition const (x : float) : option FuncElem := Some (Constant (complex x 0)).

(** An operator node with both children set. *)
Definition binary (name : OperatorName.t) (precedence : Z)
    (lhs rhs : option FuncElem) : option FuncElem :=
  Some (Operator name lhs rhs precedence).

(** A library whose [pow] multiplies out the exponents 2 and 3; it stands
    for any implementation of [std::pow] that is exact on these. *)
Definition small_power_library : StdComplex := {|
  std_div := fun a _ => a;
  std_pow := fun a b =>
    if PrimFloat.eqb (real b) 2 then complex_mul a a
    else if PrimFloat.eqb (real b) 3 then complex_mul (complex_mul a a) a
    else complex 1 0;
  std_sin := fun a => a;
  std_cos := fun a => a;
  std_tan := fun a => a;
  std_sinh := fun a => a;
  std_cosh := fun a => a;
  std_tanh := fun a => a;
  std_exp := fun a => a;
  std_log := fun a => a;
  std_abs := fun a => PrimFloat.abs (real a);
  std_atan2 := fun _ _ => 0%float
|}.

(** [exp] and [log] of the C library on the four arguments that the
    session [2^3^2] reaches, each the [double] nearest to the real value:
    log 2 = 0.6931471805599453, log 7.999999999999998 = 2.0794415416798357,
    exp 2.0794415416798357 = 7.999999999999998 and
    exp 4.1588830833596715 = 63.99999999999998. *)
Definition rounded_log (x : float) : float :=
  if PrimFloat.eqb x 2 then 0x1.62e42fefa39efp-1%float
  else if PrimFloat.eqb x 0x1.ffffffffffffep+2 then 0x1.0a2b23f3bab73p+1%float
  else 0%float.

Definition rounded_exp (x : float) : float :=
  if PrimFloat.eqb x 0x1.0a2b23f3bab73p+1 then 0x1.ffffffffffffep+2%float
  else if PrimFloat.eqb x 0x1.0a2b23f3bab73p+2 then 0x1.ffffffffffffdp+5%float
  else 1%float.

(** A library whose [pow] is computed the way the GNU C library computes
    it, as [exp(y * log(x))], here for a positive real [x] and a real [y];
    the other functions are those of [small_power_library]. *)
Definition exp_log_library : StdComplex := {|
  std_div := std_div small_power_library;
  std_pow := fun x y =>
    complex (rounded_exp (real (complex_mul y (complex (rounded_log (real x)) 0)))) 0;
  std_sin := std_sin small_power_library;
  std_cos := std_cos small_power_library;
  std_tan := std_tan small_power_library;
  std_sinh := std_sinh small_power_library;
  std_cosh := std_cosh small_power_library;
  std_tanh := std_tanh small_power_library;
  std_exp := std_exp small_power_library;
  std_log := std_log small_power_library;
  std_abs := std_abs small_power_library;
  std_atan2 := std_atan2 small_power_library
|}.

(** The real part of a session's value is [x]. *)
Definition returns_real (x : float) (o : Outcome Complex) : bool :=
  match o with
  | Ok value => PrimFloat.eqb (real value) x
  | _ => false
  end.

(** The [default] branch of the [switch] in [GetFunctionNameApplyPrecision]:
    every function but [pos], [re] and [im]. *)
Definition needs_full_precision (n : FunctionName.t) : bool :=
  match n with
  | FunctionName.pos | FunctionName.re | FunctionName.im => false
  | _ => true
  end.

(** [pat] is a prefix of [text]; [pat] occurs somewhere in [text]. *)
Fixpoint starts_with (pat text : list ascii) : bool :=
  match pat, text with
  | [], _ => true
  | p :: pat', t :: text' => Ascii.eqb p t && starts_with pat' text'
  | _ :: _, [] => false
  end.

Fixpoint occurs_in (pat text : list ascii) : bool :=
  starts_with pat text ||
  match text with
  | [] => false
  | _ :: text' => occurs_in pat text'
  end.

(** The text mentions the name of a function other than [pos], [re], [im]. *)
Definition mentions_full_precision (text : list ascii) : bool :=
  existsb (fun entry => occurs_in (list_ascii_of_string entry) text)
    ["sin"; "cos"; "tan"; "sinh"; "cosh"; "tanh"; "exp"; "log"; "abs"; "ang"]%string.

(** The tree has a function that needs full precision. *)
Fixpoint uses_full_precision (e : FuncElem) : bool :=
  let below (p : option FuncElem) : bool :=
    match p with
    | Some child => uses_full_precision child
    | None => false
    end in
  match e with
  | Variable' _ | Constant _ => false
  | Function name param => needs_full_precision name || below param
  | Operator _ params0 params1 _ => below params0 || below params1
  end.

(** With the members [st], a token that has such a function goes with the
    precision [Single]. *)
Definition tracked (st : FunctionParser) (token : option FuncElem) : Prop :=
  forall e, token = Some e -> uses_full_precision e = true ->
            m_supportedPrecision st = Single.

(** What scanning the text [func] may do to the members: the stored text
    and root stay, variables are only added, the precision stays or drops
    to [Single], and it stays when [func] mentions no function that needs
    full precision. *)
Record session_extends (func : list ascii) (st st' : FunctionParser) : Prop := {
  ext_inputFunc : m_inputFunc st' = m_inputFunc st;
  ext_parsedFunc : m_parsedFunc st' = m_parsedFunc st;
  ext_usedVariables : m_usedVariables st ⊆ m_usedVariables st';
  ext_precision :
    m_supportedPrecision st' = m_supportedPrecision st
    \/ m_supportedPrecision st' = Single;
  ext_quiet :
    mentions_full_precision func = false ->
    m_supportedPrecision st' = m_supportedPrecision st
}.

(** Every run of the member function [m] extends the session. *)
Definition preserves {A} (func : list ascii) (m : Member A) : Prop :=
  forall st r st', m st = (r, st') -> session_extends func st st'.

(** [a] is a value that [m] can return. *)
Definition returned {A} (m : Member A) (a : A) : Prop :=
  exists st st', m st = (Ok a, st').

(** The decimal value of a run of digits, continued from [index]. *)
Definition decimal_from (index : Z) (digits : list ascii) : Z :=
  fold_left (fun acc ch => acc * 10 + digit_value ch) digits index.

(** The names the operand scanner takes for a variable or a constant:
    [i], [c], or [z] followed by at most nine digits, the first not [0]. *)
Definition is_variable_name (name : list ascii) : bool :=
  String.eqb (string_of_list_ascii name) "i"
  || String.eqb (string_of_list_ascii name) "c"
  || (char_eqb (name_at name 0) "z"
      && negb (((1 <? name_length name) && char_eqb (name_at name 1) "0")
               || (10 <? name_length name))
      && forallb IsDigit (drop 1 name)).

(** The name as [ScanEvaluated] reads it at [offset]:
    [std::string name(func + offset, nameLength)]. *)
Definition scanned_name (func : list ascii) (offset length : Z) : list ascii :=
  let start := drop (Z.to_nat offset) func in
  take (Z.to_nat (CountNameLength start (sz_sub length offset))) start.

(** The suffixes the scanner accepts after [z]: at most nine digits, the
    first of them not [0]. *)
Definition z_suffix_accepted (digits : list ascii) : bool :=
  negb (char_eqb (name_at digits 0) "0") && (Z.of_nat (length digits) <=? 9).

(** The text [z] followed by the digits. *)
Definition z_name (digits : list ascii) : string :=
  String "z" (string_of_list_ascii digits).

(** The reducer as the specification words it (section 4.3, step 3): one
    left-to-right pass for a tier.  [reduced] is the prefix already
    reduced, most recent first, and [pending] the tokens not yet read.  An
    operator of the tier takes the operand before it and the operand after
    it and is written back in the place of the left one; without one of
    them the pass fails with an empty-function error. *)
Fixpoint compaction_pass (precedence : Z) (reduced pending : list FuncElem)
  : Outcome (list FuncElem) :=
  match pending with
  | [] => Ok (rev reduced)
  | tok :: pending' =>
      match operator_at precedence tok with
      | Some (name, opPrecedence) =>
          match reduced, pending' with
          | lhs :: reduced', rhs :: pending'' =>
              compaction_pass precedence
                (Operator name (Some lhs) (Some rhs) opPrecedence :: reduced')
                pending''
          | _, _ => Throw (FuncParseExcept FuncParseExcept.EmptyFunction 0)
          end
      | None => compaction_pass precedence (tok :: reduced) pending'
      end
  end.

(** Tiers 2, 1, 0 in that order. *)
Definition three_passes (tokens : list FuncElem) : Outcome (list FuncElem) :=
  (tokens <- compaction_pass 2 [] tokens ;;
   tokens <- compaction_pass 1 [] tokens ;;
   compaction_pass 0 [] tokens)%outcome.

(** The vector [v] holds the tokens [l] in its first cells. *)
Definition holds (v : list (option FuncElem)) (l : list FuncElem) : Prop :=
  forall k x, l !! k = Some x -> v !! k = Some (Some x).

(** The state of a pass: [reduced] sits in the cells below [storeIdx], and
    [pending] in the cells from [readIdx] to [tokenCount]. *)
Record pass_state (v : list (option FuncElem)) (s r : nat)
    (reduced pending : list FuncElem) : Prop := {
  ps_store : length reduced = s;
  ps_order : (s <= r)%nat;
  ps_size : (r + length pending <= length v)%nat;
  ps_reduced : holds v (rev reduced);
  ps_pending : forall k x, pending !! k = Some x -> v !! (r + k)%nat = Some (Some x)
}.

(** A node that is an operand for every pass: not an [Operator] node. *)
Definition is_operand (e : FuncElem) : bool :=
  match e with
  | Operator _ _ _ _ => false
  | _ => true
  end.

(** The tokens that follow the first operand: operator, operand, ... with
    every operator in the tier [precedence]. *)
Definition chain (precedence : Z) (tail : list (OperatorName.t * FuncElem))
  : list FuncElem :=
  flat_map (fun step => [Operator step.1 None None precedence; step.2]) tail.

(** The left-nested tree ((first op1 e1) op2 e2) ... *)
Definition fold_chain (precedence : Z) (first : FuncElem)
    (tail : list (OperatorName.t * FuncElem)) : FuncElem :=
  fold_left (fun lhs step => Operator step.1 (Some lhs) (Some step.2) precedence)
    tail first.

(** The outcome is one the program has: the counter of the model did not
    run out. *)
Definition in_fuel {A} (o : Outcome A) : Prop := o <> OutOfFuel.

(** The indices of the [Variable] nodes of a tree. *)
Fixpoint variables (e : FuncElem) : gset Z :=
  let below (p : option FuncElem) : gset Z :=
    match p with
    | Some child => variables child
    | None => ∅
    end in
  match e with
  | Variable' index => {[ index ]}
  | Constant _ => ∅
  | Function _ param => below param
  | Operator _ params0 params1 _ => below params0 ∪ below params1
  end.

(** No [param] of the tree is the null pointer. *)
Fixpoint complete (e : FuncElem) : bool :=
  let below (p : option FuncElem) : bool :=
    match p with
    | Some child => complete child
    | None => false
    end in
  match e with
  | Variable' _ | Constant _ => true
  | Function _ param => below param
  | Operator _ params0 params1 _ => below params0 && below params1
  end.

(** The precedence [ScanOperator] gives to an operator. *)
Definition tier (name : OperatorName.t) : Z :=
  match name with
  | OperatorName.add | OperatorName.sub => 0
  | OperatorName.mul | OperatorName.div => 1
  | OperatorName.pow => 2
  end.

(** Every [Operator] node of the tree carries the precedence of its name. *)
Fixpoint tiered (e : FuncElem) : bool :=
  let below (p : option FuncElem) : bool :=
    match p with
    | Some child => tiered child
    | None => true
    end in
  match e with
  | Variable' _ | Constant _ => true
  | Function _ param => below param
  | Operator name params0 params1 precedence =>
      (precedence =? tier name) && below params0 && below params1
  end.

(** A token the scan may hold when the used variables are [used]. *)
Definition sound (used : gset Z) (e : FuncElem) : Prop :=
  variables e ⊆ used /\ tiered e = true.

(** The token vector of [ParsePart]: operands and operators in turn, the
    operands without a null [param]. *)
Fixpoint alternating (used : gset Z) (operand : bool) (l : list FuncElem) : Prop :=
  match l with
  | [] => True
  | x :: l' =>
      sound used x /\ (operand = true -> complete x = true)
      /\ alternating used (negb operand) l'
  end.

(** The variable indices [ScanVariable] can store. *)
Definition index_in_range (st : FunctionParser) : Prop :=
  forall index, index ∈ m_usedVariables st -> -1 <= index < 10 ^ 9.

(** Every run of [m] keeps the property [I] of the members. *)
Definition keeps {A} (I : FunctionParser -> Prop) (m : Member A) : Prop :=
  forall st r st', m st = (r, st') -> I st -> I st'.

Section Interpretation.
Context {NumberT : Type} `{NumberType NumberT}.

Definition apply_function (name : FunctionName.t) : NumberT -> NumberT :=
  match name with
  | FunctionName.sin => nt_sin
  | FunctionName.cos => nt_cos
  | FunctionName.tan => nt_tan
  | FunctionName.sinh => nt_sinh
  | FunctionName.cosh => nt_cosh
  | FunctionName.tanh => nt_tanh
  | FunctionName.exp => nt_exp
  | FunctionName.log => nt_log
  | FunctionName.abs => nt_abs
  | FunctionName.pos => nt_pos
  | FunctionName.ang => nt_ang
  | FunctionName.re => nt_re
  | FunctionName.im => nt_im
  end.

Definition apply_operator (name : OperatorName.t) : NumberT -> NumberT -> NumberT :=
  match name with
  | OperatorName.add => nt_add
  | OperatorName.sub => nt_sub
  | OperatorName.mul => nt_mul
  | OperatorName.div => nt_div
  | OperatorName.pow => nt_pow
  end.

(** The value of a parsed tree, read off the tree itself, with the
    variables taken from [env]. *)
Fixpoint interpret (env : gmap Z NumberT) (e : FuncElem) : option NumberT :=
  let below (p : option FuncElem) : option NumberT :=
    match p with
    | Some child => interpret env child
    | None => None
    end in
  match e with
  | Variable' index => env !! index
  | Constant value => Some (nt_of_constant value)
  | Function name param =>
      match below param with
      | Some p => Some (apply_function name p)
      | None => None
      end
  | Operator name params0 params1 _ =>
      match below params0, below params1 with
      | Some lhs, Some rhs => Some (apply_operator name lhs rhs)
      | _, _ => None
      end
  end.

(** The caller writing the values [bindings] into [Variables()], one after
    the other. *)
Definition assign_all (bindings : list (Z * NumberT)) (ev : FunctionEvaluator NumberT)
  : FunctionEvaluator NumberT :=
  foldl (fun ev b => assign b.1 b.2 ev) ev bindings.
End Interpretation.

(** An induction principle that reaches the children behind the pointers. *)
Section FuncElem_induction.
Variable P : FuncElem -> Prop.
Hypothesis HVariable : forall index, P (Variable' index).
Hypothesis HConstant : forall value, P (Constant value).
Hypothesis HFunction : forall name param,
  (forall child, param = Some child -> P child) -> P (Function name param).
Hypothesis HOperator : forall name params0 params1 precedence,
  (forall child, params0 = Some child -> P child) ->
  (forall child, params1 = Some child -> P child) ->
  P (Operator name params0 params1 precedence).

Fixpoint FuncElem_children_ind (e : FuncElem) : P e :=
  let below (p : option FuncElem) : forall child, p = Some child -> P child :=
    match p with
    | Some c => fun child Heq =>
        eq_ind c P (FuncElem_children_ind c) child
          (f_equal (fun o => match o with Some x => x | None => c end) Heq)
    | None => fun child Heq =>
        False_ind _ (eq_ind None (fun o => match o with Some _ => False | None => True end)
                       I (Some child) Heq)
    end in
  match e with
  | Variable' index => HVariable index
  | Constant value => HConstant value
  | Function name param => HFunction name param (below param)
  | Operator name params0 params1 precedence =>
      HOperator name params0 params1 precedence (below params0) (below params1)
  end.
End FuncElem_induction.

(** The nesting depth after [text], counted from [depth]: one up at every
    [(], one down at every [)]. *)
Definition depth_after (depth : Z) (text : list ascii) : Z :=
  fold_left
    (fun depth ch =>
       if char_eqb "(" ch then depth + 1
       else if char_eqb ")" ch then depth - 1
       else depth)
    text depth.

(** [text] closes no parenthesis that it did not open. *)
Definition never_closes (text : list ascii) : Prop :=
  forall k, 0 <= depth_after 0 (take k text).

(** The kinds whose message has no position. *)
Definition without_position (error : FuncParseExcept.ErrorType) : bool :=
  match error with
  | FuncParseExcept.NoInput
  | FuncParseExcept.EmptyFunction
  | FuncParseExcept.UnknownError => true
  | _ => false
  end.

(** The characters [ScanOperator] takes. *)
Definition is_operator_char (ch : ascii) : bool :=
  char_eqb ch "+" || char_eqb ch "-" || char_eqb ch "*" || char_eqb ch "/"
  || char_eqb ch "^".

(** An exception of the parser on a text of [bound] characters: its offset
    is inside the text or at its end, and its kind is not
    InvalidVariableIndex. *)
Definition error_within (bound : Z) (e : FuncParseExcept.t) : Prop :=
  0 <= FuncParseExcept.m_errorOffset e <= bound
  /\ FuncParseExcept.m_foundError e <> FuncParseExcept.InvalidVariableIndex.

Definition throws_within {A} (bound : Z) (o : Outcome A) : Prop :=
  forall e, o = Throw e -> error_within bound e.

(** The variables of all the tokens of a vector. *)
Definition all_variables (l : list FuncElem) : gset Z := ⋃ (variables <$> l).

(** An operator as [ScanOperator] makes it, of a tier between 0 and [q]. *)
Definition is_fresh (q : Z) (e : FuncElem) : bool :=
  match e with
  | Operator _ None None precedence => (0 <=? precedence) && (precedence <=? q)
  | _ => false
  end.

(** Operands and operators in turn, every operator still as it was scanned
    and of a tier that a pass has yet to come to. *)
Fixpoint clean (q : Z) (operand : bool) (l : list FuncElem) : Prop :=
  match l with
  | [] => True
  | x :: l' => (operand = false -> is_fresh q x = true) /\ clean q (negb operand) l'
  end.

(** No pass of tier [q] or below takes [e] for an operator. *)
Definition inert (q : Z) (e : FuncElem) : Prop :=
  forall q', q' <= q -> operator_at q' e = None.

(** A token sits in an operator's place and no pass will fold it. *)
Definition tainted (q : Z) (l : list FuncElem) : Prop :=
  exists k x, Nat.odd k = true /\ l !! k = Some x /\ inert q x.

(** The same in the middle of the pass of tier [q]. *)
Definition stuck (q : Z) (reduced pending : list FuncElem) : Prop :=
  exists k x,
    Nat.odd k = true /\ (rev reduced ++ pending) !! k = Some x
    /\ ((k < length reduced)%nat /\ inert (q - 1) x
        \/ (length reduced <= k)%nat /\ inert q x).

(** * Properties *)

(** ** Concrete sessions *)

(** C3: [z*z+c] parses to add(mul(z, z), c), and with z = 0.5+0i and
    c = 0+0i the complex evaluator returns 0.25+0i. *)
Theorem Parse_zzc_tree_and_value (lib : StdComplex) (st : FunctionParser) :
  Parse "z*z+c" st =
    (Ok tt,
     mkFunctionParser {[ 0; -1 ]} Extended "z*z+c"
       (Some (Operator OperatorName.add
                (Some (Operator OperatorName.mul
                         (Some (Variable' 0)) (Some (Variable' 0)) 1))
                (Some (Variable' (-1))) 0)))
  /\ evaluate lib "z*z+c" [(0, complex 0.5 0); (-1, complex 0 0)]
     = Ok (complex 0.25 0).
Proof. split; vm_compute; reflexivity. Qed.

(** C1: on the literal [1.5] the number scanner returns 51: the divisor of
    the fractional digit is 0.1, not 10. *)
Theorem ScanNumber_fraction_divides_by_tenth (st : FunctionParser) :
  ScanNumber (c_str "1.5") 0 = Ok (51%float, 3)
  /\ Parse "1.5" st =
       (Ok tt, mkFunctionParser ∅ Extended "1.5" (const 51)).
Proof. split; vm_compute; reflexivity. Qed.

(** C2: in [((z))] the brace matcher, started just past the first
    parenthesis, skips the second one and stops at the first closing
    parenthesis (distance 2, the matching one is at distance 3); the parse
    then fails on the last character. *)
Theorem CountBetweenBraces_skips_first_char (st : FunctionParser) :
  CountBetweenBraces (c_str "((z))") 1 5 = Ok 2
  /\ (Parse "((z))" st).1 =
       Throw (FuncParseExcept FuncParseExcept.OperatorExpected 4).
Proof. split; vm_compute; reflexivity. Qed.

(** C6: [(z+1] fails with OpenBraces, but at offset 1, one past the
    parenthesis at offset 0; and [((z)], whose first parenthesis is never
    closed, is accepted. *)
Theorem Parse_open_braces_offset_past_brace (st : FunctionParser) :
  (Parse "(z+1" st).1 = Throw (FuncParseExcept FuncParseExcept.OpenBraces 1)
  /\ Parse "((z)" st =
       (Ok tt, mkFunctionParser {[ 0 ]} Extended "((z)" (Some (Variable' 0))).
Proof. split; vm_compute; reflexivity. Qed.

(** ** What a member function may do to the session

    Scanning only ever adds variable indices and lowers the precision to
    [Single]; the stored text and the stored root are written by [Parse]
    and [Clear] alone.  The precision moves only when the text mentions one
    of the ten function names that need full precision. *)

Section Frame.
Variable func : list ascii.

Lemma session_extends_refl st : session_extends func st st.
Proof. split; auto. Qed.

Lemma session_extends_trans st1 st2 st3 :
  session_extends func st1 st2 -> session_extends func st2 st3 ->
  session_extends func st1 st3.
Proof.
  intros [Hi1 Hp1 Hu1 Hs1 Hq1] [Hi2 Hp2 Hu2 Hs2 Hq2]; split.
  - congruence.
  - congruence.
  - etrans; eassumption.
  - destruct Hs2 as [Hs2|Hs2]; [rewrite Hs2; exact Hs1 | right; exact Hs2].
  - intros Hquiet. rewrite Hq2, Hq1; auto.
Qed.

Lemma preserves_retM {A} (a : A) : preserves func (retM a).
Proof. intros st r st' [= _ <-]. apply session_extends_refl. Qed.

Lemma preserves_liftM {A} (m : Outcome A) : preserves func (liftM m).
Proof. intros st r st' [= _ <-]. apply session_extends_refl. Qed.

Lemma preserves_throwM {A} e : preserves func (@throwM A e).
Proof. apply preserves_liftM. Qed.

Lemma preserves_bindM {A B} (m : Member A) (k : A -> Member B) :
  preserves func m -> (forall a, returned m a -> preserves func (k a)) ->
  preserves func (bindM m k).
Proof.
  intros Hm Hk st r st'. unfold bindM.
  destruct (m st) as [[a| | |] st1] eqn:E; intros Hr.
  - eapply session_extends_trans; [eapply Hm, E | eapply Hk, Hr].
    exists st, st1. exact E.
  - injection Hr as _ <-. eapply Hm, E.
  - injection Hr as _ <-. eapply Hm, E.
  - injection Hr as _ <-. eapply Hm, E.
Qed.

Lemma preserves_insert {A} (a : A) (index : Z) :
  preserves func
    (fun st => (Ok a, set_usedVariables (fun s => {[ index ]} ∪ s) st)).
Proof.
  intros st r st' [= _ <-]. split; simpl; auto. apply union_subseteq_r.
Qed.

Lemma preserves_ScanVariable name offset :
  preserves func (ScanVariable name offset).
Proof.
  unfold ScanVariable.
  repeat match goal with
         | |- preserves _ (if ?b then _ else _) => destruct b
         | |- preserves _ (retM _) => apply preserves_retM
         | |- preserves _ (throwM _) => apply preserves_throwM
         | |- preserves _ (liftM _) => apply preserves_liftM
         | |- preserves _ (bindM _ _) => apply preserves_bindM; [|intros ? _]
         | |- preserves _ (fun st => (Ok _, set_usedVariables _ st)) =>
             apply preserves_insert
         end.
Qed.
End Frame.

(** *** The precision tracker, one call at a time *)

Lemma GetFunctionNameApplyPrecision_step name offset st :
  match GetFunctionNameApplyPrecision name offset st with
  | (Ok n, st') =>
      In name g_FunctionNames
      /\ g_FunctionNames !! FunctionName.to_index n = Some name
      /\ st' = (if needs_full_precision n
                then (if Precision_eqb (m_supportedPrecision st) Single then st
                      else set_supportedPrecision Single st)
                else st)
  | (Throw e, st') =>
      e = FuncParseExcept FuncParseExcept.UnknownSymbol offset /\ st' = st
      /\ ~ In name g_FunctionNames
  | _ => False
  end.
Proof.
  unfold GetFunctionNameApplyPrecision, g_FunctionNames, find_name.
  repeat match goal with
         | |- context [String.eqb ?a name] =>
             let E := fresh "E" in
             destruct (String.eqb_spec a name) as [E|E];
             [ rewrite <- E; simpl;
               split; [simpl; tauto | split; [reflexivity|]];
               destruct (Precision_eqb _ _); reflexivity
             | ]
         end.
  split; [reflexivity|]. split; [reflexivity|].
  simpl. intuition congruence.
Qed.

Lemma starts_with_take n (l : list ascii) : starts_with (take n l) l = true.
Proof.
  revert l; induction n as [|n IH]; intros [|x l]; simpl; auto.
  rewrite Ascii.eqb_refl. apply IH.
Qed.

Lemma occurs_in_take_drop n k (l : list ascii) :
  occurs_in (take n (drop k l)) l = true.
Proof.
  revert l; induction k as [|k IH]; intros l.
  - rewrite drop_0. destruct l; simpl; [destruct n; reflexivity|].
    rewrite (starts_with_take n (a :: l)). reflexivity.
  - destruct l as [|x l]; simpl.
    + destruct n; reflexivity.
    + rewrite IH. apply orb_true_r.
Qed.

Lemma preserves_GetFunctionNameApplyPrecision func name offset :
  occurs_in name func = true ->
  preserves func (GetFunctionNameApplyPrecision (string_of_list_ascii name) offset).
Proof.
  intros Hocc st r st' Hcall.
  pose proof (GetFunctionNameApplyPrecision_step
                (string_of_list_ascii name) offset st) as Hstep.
  rewrite Hcall in Hstep. destruct r as [n|e| |]; try contradiction.
  - destruct Hstep as (_ & Hentry & ->).
    assert (Hname : name = list_ascii_of_string
                             (default EmptyString
                                (g_FunctionNames !! FunctionName.to_index n))).
    { rewrite Hentry. simpl. symmetry. apply list_ascii_of_string_of_list_ascii. }
    destruct (needs_full_precision n) eqn:Hn; [|apply session_extends_refl].
    destruct (Precision_eqb _ _); [apply session_extends_refl|].
    split; simpl; auto.
    intros Hquiet. exfalso. revert Hquiet.
    unfold mentions_full_precision. simpl.
    destruct n; try discriminate Hn; simpl in Hname; rewrite <- Hname, Hocc;
      rewrite ?orb_true_r; discriminate.
  - destruct Hstep as (_ & -> & _). apply session_extends_refl.
Qed.

Lemma returned_liftM {A} (m : Outcome A) (a : A) : returned (liftM m) a -> m = Ok a.
Proof. intros (st & st' & [= E _]). exact E. Qed.

Ltac preserves_step :=
  match goal with
  | |- preserves _ (if ?b then _ else _) => destruct b
  | |- preserves _ (let '(_, _) := ?r in _) => destruct r
  | |- preserves _ (retM _) => apply preserves_retM
  | |- preserves _ (throwM _) => apply preserves_throwM
  | |- preserves _ (liftM _) => apply preserves_liftM
  | |- preserves _ (bindM _ _) => apply preserves_bindM; [|intros ? ?]
  | |- preserves _ (ScanVariable _ _) => apply preserves_ScanVariable
  | H : _ |- _ => apply H
  end.

Lemma preserves_parser func fuel :
  (forall offset length, preserves func (ParsePart fuel func offset length))
  /\ (forall offset length, preserves func (ScanEvaluated fuel func offset length))
  /\ (forall offset length i scanEvaluated tokenized,
        preserves func (Tokenize fuel func offset length i scanEvaluated tokenized)).
Proof.
  induction fuel as [|fuel (IHP & IHS & IHT)].
  - split; [|split]; intros; apply preserves_liftM.
  - split; [|split]; intros; simpl.
    + unfold ParsePart_body. repeat preserves_step.
    + unfold ScanEvaluated_body.
      apply preserves_bindM; [apply preserves_liftM|intros ch _].
      destruct (char_eqb "(" ch); [repeat preserves_step|].
      destruct (IsLetter ch); [|repeat preserves_step].
      apply preserves_bindM; [apply preserves_liftM|intros start Hstart].
      apply returned_liftM in Hstart. unfold ptr_add in Hstart.
      destruct (_ && _); [|discriminate]. injection Hstart as <-.
      apply preserves_bindM; [apply preserves_liftM|intros next _].
      destruct (char_eqb next "("); [|repeat preserves_step].
      apply preserves_bindM;
        [apply preserves_GetFunctionNameApplyPrecision, occurs_in_take_drop|].
      intros n _. repeat preserves_step.
    + unfold Tokenize_body. repeat preserves_step.
Qed.

Lemma preserves_ParsePart fuel func offset length :
  preserves func (ParsePart fuel func offset length).
Proof. apply preserves_parser. Qed.

(** ** Failure of [Parse] (C10) *)

Lemma Parse_unfold function st :
  Parse function st =
    let input := StripWhitespace function in
    match ParsePart (ParseFuel input) input 0 (Z.of_nat (length input))
            FunctionParser_new with
    | (Ok output, st1) =>
        (Ok tt, mkFunctionParser (m_usedVariables st1) (m_supportedPrecision st1)
                  (string_of_list_ascii input) output)
    | (Throw e, st1) => (Throw e, st1)
    | (Undefined, st1) => (Undefined, st1)
    | (OutOfFuel, st1) => (OutOfFuel, st1)
    end.
Proof.
  unfold Parse, bindM, Clear, FunctionParser_new. simpl.
  destruct (ParsePart _ _ _ _ _) as [[?| | |] ?]; reflexivity.
Qed.

(** C10, counterexample: [z+] makes [Parse] throw, and afterwards the set
    of used variables holds 0: it is not the empty set of a fresh parser. *)
Lemma Parse_dangling_keeps_variable :
  Parse "z+" FunctionParser_new =
    (Throw (FuncParseExcept FuncParseExcept.DanglingOperator 1),
     mkFunctionParser {[ 0 ]} Extended "" None)
  /\ UsedVariables (Parse "z+" FunctionParser_new).2 <> ∅
  /\ SupportedPrecision (Parse "sin(z)+" FunctionParser_new).2 <> Extended.
Proof.
  split; [vm_compute; reflexivity|]. split.
  - intros Hempty. assert (Hin : (0 : Z) ∈ UsedVariables (Parse "z+" FunctionParser_new).2)
      by (vm_compute; reflexivity).
    rewrite Hempty in Hin. by apply not_elem_of_empty in Hin.
  - vm_compute. discriminate.
Qed.

(** ** The [mth] overloads and the dispatch tables (C9) *)

Lemma float_neq_by_sign (a b : float) :
  PrimFloat.ltb a 0 <> PrimFloat.ltb b 0 -> a <> b.
Proof. intros Hne Heq. apply Hne. rewrite Heq. reflexivity. Qed.

(** C9, counterexample: on the real overload [re] returns its argument with
    its sign, so [re(-1)] is [-1] and not [|-1|]. *)
Lemma mth_re_real_keeps_sign :
  mth.re (-1) = (-1)%float /\ mth.re (-1) <> PrimFloat.abs (-1).
Proof.
  split; [reflexivity|]. apply float_neq_by_sign. vm_compute. discriminate.
Qed.

(** C9, amended: on a complex value [re] and [im] return the absolute value
    of the real, respectively imaginary, component with a zero imaginary
    part, also when reached through the evaluator's function table; on a
    real value [re] returns the value unchanged and [im] returns zero. *)
Theorem mth_re_im_overloads (lib : StdComplex) (t : Complex) (x : float) :
  mth.re_complex t = complex (PrimFloat.abs (real t)) 0
  /\ mth.im_complex t = complex (PrimFloat.abs (imag t)) 0
  /\ evaluate lib "re(z)" [(0, t)] = Ok (complex (PrimFloat.abs (real t)) 0)
  /\ evaluate lib "im(z)" [(0, t)] = Ok (complex (PrimFloat.abs (imag t)) 0)
  /\ mth.re x = x
  /\ mth.im x = 0%float.
Proof.
  destruct t as [a b]. repeat apply conj; vm_compute; reflexivity.
Qed.

(** ** Named variables (C7, C8) *)

Lemma size_t_small z : 0 <= z < 2 ^ SIZE_WIDTH -> size_t z = z.
Proof. intros Hz. unfold size_t. apply Z.mod_small, Hz. Qed.

Lemma IsDigit_range ch : IsDigit ch = true -> 0 <= digit_value ch <= 9.
Proof.
  unfold IsDigit, digit_value. change (char_code "0") with 48.
  change (char_code "9") with 57. lia.
Qed.

Lemma ScanIndex_result digits : forall index errorOffset,
  0 <= index ->
  (index + 1) * 10 ^ Z.of_nat (length digits) <= 10 ^ 9 ->
  ScanIndex digits index errorOffset =
    if forallb IsDigit digits then Ok (decimal_from index digits)
    else Throw (FuncParseExcept FuncParseExcept.UnexpectedSymbol errorOffset).
Proof.
  induction digits as [|ch digits IH]; intros index errorOffset Hpos Hbound.
  - reflexivity.
  - simpl. destruct (IsDigit ch) eqn:Hch; simpl; [|reflexivity].
    apply IsDigit_range in Hch.
    rewrite length_cons, Nat2Z.inj_succ, Z.pow_succ_r in Hbound by lia.
    assert (Hpow : 1 <= 10 ^ Z.of_nat (length digits)) by (apply Z.pow_le_mono_r with (b := 0); lia).
    assert (Hle : (index * 10 + digit_value ch <=? INT_MAX) = true).
    { apply Z.leb_le. unfold INT_MAX. nia. }
    rewrite Hle. apply IH; nia.
Qed.

Lemma ScanVariable_rejects name offset st :
  is_variable_name name = false ->
  ScanVariable name offset st =
    (Throw (FuncParseExcept FuncParseExcept.UnexpectedSymbol
              (if char_eqb (name_at name 0) "z"
               then sz_sub offset (name_length name)
               else sz_sub (sz_add offset 1) (name_length name))), st).
Proof.
  unfold is_variable_name, ScanVariable.
  destruct (String.eqb _ "i"); [discriminate|].
  destruct (String.eqb _ "c"); [discriminate|]. simpl.
  destruct (char_eqb (name_at name 0) "z"); [|reflexivity]. simpl.
  destruct (_ || _) eqn:Hcheck; [reflexivity|]. simpl. intros Hdigits.
  unfold bindM, liftM. rewrite ScanIndex_result, Hdigits; [reflexivity|lia|].
  apply orb_false_iff in Hcheck as [_ Hlen]. apply Z.ltb_ge in Hlen.
  unfold name_length in Hlen. rewrite length_drop.
  apply Z.le_trans with (1 * 10 ^ 9); [|lia].
  apply Z.mul_le_mono_nonneg_l; [lia|]. apply Z.pow_le_mono_r; lia.
Qed.

Lemma CountNameLength_from_bounds name : forall i bound,
  0 <= i <= bound -> bound < 2 ^ SIZE_WIDTH ->
  i <= CountNameLength_from name i bound <= i + Z.of_nat (length name)
  /\ CountNameLength_from name i bound <= bound.
Proof.
  induction name as [|ch name IH]; intros i bound Hi Hbound; simpl.
  - destruct (i <? bound) eqn:E; [lia|]. apply Z.ltb_ge in E. lia.
  - destruct (i <? bound) eqn:E; [|apply Z.ltb_ge in E; lia].
    apply Z.ltb_lt in E. destruct (IsNamePart ch); [|lia].
    unfold sz_add. rewrite size_t_small by lia.
    specialize (IH (i + 1) bound). lia.
Qed.

Lemma size_t_range z : 0 <= size_t z < 2 ^ SIZE_WIDTH.
Proof. unfold size_t. apply Z.mod_pos_bound. reflexivity. Qed.

Lemma CountNameLength_bounds name length :
  0 <= CountNameLength name (size_t length) <= Z.of_nat (List.length name).
Proof.
  pose proof (size_t_range length).
  pose proof (CountNameLength_from_bounds name 0 (size_t length)).
  unfold CountNameLength. lia.
Qed.

Lemma sz_sub_add_cancel offset n :
  0 <= offset < 2 ^ SIZE_WIDTH -> sz_sub (sz_add offset n) n = offset.
Proof.
  intros Hoffset. unfold sz_sub, sz_add, size_t.
  rewrite Zminus_mod_idemp_l. replace (offset + n - n) with offset by lia.
  apply Z.mod_small, Hoffset.
Qed.

Lemma char_at_ptr_add func offset ch :
  char_at func offset = Ok ch -> ptr_add func offset = Ok (drop (Z.to_nat offset) func).
Proof.
  unfold char_at, ptr_add. destruct (offset <? 0) eqn:E; [discriminate|].
  apply Z.ltb_ge in E. destruct (func !! Z.to_nat offset) eqn:Hlook.
  - apply lookup_lt_Some in Hlook. intros _.
    replace (_ && _) with true; [reflexivity|]. symmetry. apply andb_true_iff. lia.
  - destruct (offset =? _) eqn:Heq; [|discriminate]. intros _.
    replace (_ && _) with true; [reflexivity|]. symmetry. apply andb_true_iff. lia.
Qed.

Lemma IsLetter_not_paren ch : IsLetter ch = true -> char_eqb "(" ch = false.
Proof.
  intros Hletter. destruct (char_eqb "(" ch) eqn:E; [|reflexivity].
  apply Ascii.eqb_eq in E. subst ch. discriminate.
Qed.

Lemma scanned_name_length func offset length :
  name_length (scanned_name func offset length) =
    CountNameLength (drop (Z.to_nat offset) func) (sz_sub length offset).
Proof.
  pose proof (CountNameLength_bounds (drop (Z.to_nat offset) func)
                (length - offset)) as Hb.
  unfold name_length, scanned_name. cbv zeta. rewrite length_take.
  unfold sz_sub. lia.
Qed.

(** C7, amended: a scanned name that is not followed by [(] and is none of
    [i], [c], [z] with at most nine digits (no leading zero) makes the
    operand scanner throw UnexpectedSymbol, leaving the session as it was;
    when the name begins with [z] the error carries the offset of the
    name's first character. *)
Theorem ScanEvaluated_rejects_name (fuel : nat) (func : list ascii)
    (offset length : Z) (st : FunctionParser) (ch next : ascii)
    (Hrange : 0 <= offset < 2 ^ SIZE_WIDTH)
    (Hch : char_at func offset = Ok ch)
    (Hletter : IsLetter ch = true)
    (Hnext : char_at func
               (sz_add offset (name_length (scanned_name func offset length)))
             = Ok next)
    (Hparen : char_eqb next "(" = false)
    (Hname : is_variable_name (scanned_name func offset length) = false) :
  exists errorOffset,
    ScanEvaluated (S fuel) func offset length st =
      (Throw (FuncParseExcept FuncParseExcept.UnexpectedSymbol errorOffset), st)
    /\ (name_at (scanned_name func offset length) 0 = "z"%char ->
        errorOffset = offset).
Proof.
  pose proof (scanned_name_length func offset length) as Hlen.
  eexists. split.
  - simpl. unfold ScanEvaluated_body, bindM, liftM.
    rewrite Hch, (IsLetter_not_paren _ Hletter), Hletter.
    rewrite (char_at_ptr_add _ _ _ Hch).
    fold (scanned_name func offset length). rewrite <- Hlen.
    rewrite Hnext, Hparen, (ScanVariable_rejects _ _ _ Hname). reflexivity.
  - intros Hz. simpl. rewrite Hz. simpl.
    apply sz_sub_add_cancel, Hrange.
Qed.

Lemma ScanEvaluated_rejects_name_witness :
  is_variable_name (scanned_name (c_str "1+z01*zeta") 2 8) = false
  /\ exists errorOffset,
       ScanEvaluated 1 (c_str "1+z01*zeta") 2 8 FunctionParser_new =
         (Throw (FuncParseExcept FuncParseExcept.UnexpectedSymbol errorOffset),
          FunctionParser_new)
       /\ (name_at (scanned_name (c_str "1+z01*zeta") 2 8) 0 = "z"%char ->
           errorOffset = 2).
Proof.
  split; [reflexivity|].
  apply (ScanEvaluated_rejects_name 0 (c_str "1+z01*zeta") 2 8
           FunctionParser_new "z" "*"); try reflexivity.
  vm_compute. split; [discriminate|reflexivity].
Defined.

(** *** A name at the start of the text *)

Lemma CountNameLength_from_run name rest : forall i bound,
  forallb IsNamePart name = true ->
  IsNamePart (name_at rest 0) = false ->
  0 <= i -> i + Z.of_nat (length name) <= bound -> bound < 2 ^ SIZE_WIDTH ->
  CountNameLength_from (name ++ rest) i bound = i + Z.of_nat (length name).
Proof.
  induction name as [|ch name IH]; intros i bound Hname Hrest Hi Hbound Hsize.
  - destruct rest as [|ch rest]; simpl in *;
      destruct (i <? bound) eqn:E; try (apply Z.ltb_ge in E); try lia.
    unfold name_at in Hrest. simpl in Hrest. rewrite Hrest. lia.
  - simpl in Hname. apply andb_true_iff in Hname as [Hch Hname].
    rewrite length_cons, Nat2Z.inj_succ in *.
    simpl. replace (i <? bound) with true by (symmetry; apply Z.ltb_lt; lia).
    rewrite Hch. unfold sz_add. rewrite size_t_small by lia.
    rewrite IH; auto; lia.
Qed.

Lemma char_at_app_r (name rest : list ascii) :
  char_at (name ++ rest) (Z.of_nat (length name)) = Ok (name_at rest 0).
Proof.
  unfold char_at. replace (_ <? 0) with false by (symmetry; apply Z.ltb_ge; lia).
  rewrite Nat2Z.id, lookup_app_r, Nat.sub_diag by lia. unfold name_at.
  destruct rest as [|ch rest]; simpl; [|reflexivity].
  rewrite app_nil_r, Z.eqb_refl. reflexivity.
Qed.

Lemma char_at_head ch (text : list ascii) : char_at (ch :: text) 0 = Ok ch.
Proof. reflexivity. Qed.

Lemma ptr_add_0 (text : list ascii) : ptr_add text 0 = Ok text.
Proof.
  unfold ptr_add. replace (_ && _) with true; [rewrite drop_0; reflexivity|].
  symmetry. apply andb_true_iff. split; apply Z.leb_le; lia.
Qed.

Lemma bindM_liftM_Ok {A B} (a : A) (k : A -> Member B) st :
  bindM (liftM (Ok a)) k st = k a st.
Proof. reflexivity. Qed.

Lemma ScanEvaluated_S fuel func offset length :
  ScanEvaluated (S fuel) func offset length =
    ScanEvaluated_body (fun func => ParsePart fuel func)
      (fun func => ScanEvaluated fuel func) func offset length.
Proof. reflexivity. Qed.

Lemma Tokenize_S fuel func offset length i scanEvaluated tokenized :
  Tokenize (S fuel) func offset length i scanEvaluated tokenized =
    Tokenize_body (fun func => ScanEvaluated fuel func)
      (fun func => Tokenize fuel func) func offset length i scanEvaluated tokenized.
Proof. reflexivity. Qed.

Lemma ParsePart_S fuel func offset length :
  ParsePart (S fuel) func offset length =
    ParsePart_body (fun func => Tokenize fuel func) func offset length.
Proof. reflexivity. Qed.

Lemma ScanEvaluated_leading_name fuel name rest length st :
  IsLetter (name_at name 0) = true ->
  forallb IsNamePart name = true ->
  IsNamePart (name_at rest 0) = false ->
  char_eqb (name_at rest 0) "(" = false ->
  Z.of_nat (List.length name) <= length < 2 ^ SIZE_WIDTH ->
  ScanEvaluated (S fuel) (name ++ rest) 0 length st =
    bindM (ScanVariable name (name_length name))
      (fun funcElem => retM (Some funcElem, name_length name)) st.
Proof.
  intros Hletter Hname Hrest Hparen Hlength.
  assert (Hhead : char_at (name ++ rest) 0 = Ok (name_at name 0))
    by (destruct name; [discriminate|reflexivity]).
  rewrite ScanEvaluated_S. unfold ScanEvaluated_body.
  rewrite Hhead, bindM_liftM_Ok.
  rewrite (IsLetter_not_paren _ Hletter), Hletter.
  rewrite ptr_add_0, bindM_liftM_Ok.
  unfold sz_sub. rewrite Z.sub_0_r, (size_t_small length) by lia.
  unfold CountNameLength. rewrite CountNameLength_from_run by (auto; lia).
  rewrite Z.add_0_l, Nat2Z.id, take_app_length.
  unfold sz_add. rewrite Z.add_0_l, (size_t_small (Z.of_nat _)) by lia.
  rewrite char_at_app_r, bindM_liftM_Ok, Hparen. reflexivity.
Qed.

Lemma Tokenize_first_operand fuel func length st :
  0 < length < 2 ^ SIZE_WIDTH ->
  Tokenize (S fuel) func 0 length 0 true [] st =
    bindM (ScanEvaluated fuel func 0 length)
      (fun r => let '(token, i) := r in
                Tokenize fuel func 0 length i false ([] ++ [token])) st.
Proof.
  intros Hlength. rewrite Tokenize_S. unfold Tokenize_body, sz_add, sz_sub.
  rewrite Z.add_0_l, Z.add_0_r, Z.sub_0_r, (size_t_small length) by lia.
  rewrite size_t_small by lia.
  replace (0 <? length) with true by (symmetry; apply Z.ltb_lt; lia).
  reflexivity.
Qed.

Lemma Tokenize_at_end fuel func length scanEvaluated tokenized st :
  0 <= length < 2 ^ SIZE_WIDTH ->
  Tokenize (S fuel) func 0 length length scanEvaluated tokenized st =
    (Ok (tokenized, scanEvaluated), st).
Proof.
  intros Hlength. rewrite Tokenize_S. unfold Tokenize_body, sz_add.
  rewrite Z.add_0_l, size_t_small, Z.ltb_irrefl by lia. reflexivity.
Qed.

Lemma ParseFuel_cons ch (text : list ascii) :
  ParseFuel (ch :: text) = S (S (S (S (S (ParseFuel text - 1))))).
Proof. unfold ParseFuel. rewrite length_cons. lia. Qed.

(** A name at the start of the cleaned text that is not followed by [(] and
    is not a variable name makes [Parse] throw UnexpectedSymbol. *)
Lemma Parse_rejects_leading_name (function : string) (name rest : list ascii)
    (st : FunctionParser) :
  StripWhitespace function = name ++ rest ->
  Z.of_nat (length (name ++ rest)) < 2 ^ SIZE_WIDTH ->
  IsLetter (name_at name 0) = true ->
  forallb IsNamePart name = true ->
  IsNamePart (name_at rest 0) = false ->
  char_eqb (name_at rest 0) "(" = false ->
  is_variable_name name = false ->
  exists errorOffset,
    Parse function st =
      (Throw (FuncParseExcept FuncParseExcept.UnexpectedSymbol errorOffset),
       FunctionParser_new)
    /\ (name_at name 0 = "z"%char -> errorOffset = 0).
Proof.
  intros Hinput Hsize Hletter Hname Hrest Hparen Hbad.
  rewrite length_app, Nat2Z.inj_add in Hsize.
  destruct name as [|ch name]; [discriminate|].
  rewrite length_cons in Hsize.
  eexists. split.
  - rewrite Parse_unfold, Hinput. cbv zeta.
    change ((ch :: name) ++ rest) with (ch :: name ++ rest) at 1.
    rewrite ParseFuel_cons, ParsePart_S. unfold ParsePart_body.
    rewrite length_app, Nat2Z.inj_add.
    rewrite length_cons.
    replace (_ =? 0) with false by (symmetry; apply Z.eqb_neq; lia).
    unfold bindM at 1.
    rewrite Tokenize_first_operand by lia.
    unfold bindM at 1.
    rewrite ScanEvaluated_leading_name by (auto; rewrite length_cons; lia).
    unfold bindM at 1. rewrite (ScanVariable_rejects _ _ _ Hbad). reflexivity.
  - intros Hz. rewrite Hz. simpl. unfold sz_sub. rewrite Z.sub_diag. reflexivity.
Qed.

(** *** The suffix of [z] (C8) *)

Lemma IsNamePart_kept ch :
  IsNamePart ch = true -> char_eqb ch NUL = false /\ isspace ch = false.
Proof.
  intros Hname. split.
  - destruct (char_eqb ch NUL) eqn:E; [|reflexivity].
    apply Ascii.eqb_eq in E. subst ch. discriminate.
  - destruct (isspace ch) eqn:Hspace; [|reflexivity]. exfalso.
    unfold IsNamePart, IsLetter, IsDigit in Hname. unfold isspace in Hspace.
    destruct (char_eqb "_" ch) eqn:E.
    + apply Ascii.eqb_eq in E. subst ch. discriminate.
    + rewrite orb_false_r in Hname. revert Hname Hspace.
      change (char_code "a") with 97. change (char_code "z") with 122.
      change (char_code "A") with 65. change (char_code "Z") with 90.
      change (char_code "0") with 48. change (char_code "9") with 57. lia.
Qed.

Lemma StripWhitespace_name (name : list ascii) :
  forallb IsNamePart name = true ->
  StripWhitespace (string_of_list_ascii name) = name.
Proof.
  induction name as [|ch name IH]; [reflexivity|]. simpl.
  intros [Hch Hname]%andb_true_iff.
  destruct (IsNamePart_kept _ Hch) as [-> ->]. simpl. rewrite IH; auto.
Qed.

Lemma IsDigit_IsNamePart ch : IsDigit ch = true -> IsNamePart ch = true.
Proof. intros H. unfold IsNamePart. rewrite H, orb_true_r. reflexivity. Qed.

Lemma forallb_IsDigit_IsNamePart digits :
  forallb IsDigit digits = true -> forallb IsNamePart digits = true.
Proof.
  induction digits as [|ch digits IH]; [reflexivity|]. simpl.
  intros [Hch Hd]%andb_true_iff. rewrite (IsDigit_IsNamePart _ Hch). auto.
Qed.

Lemma ScanVariable_z digits offset st :
  forallb IsDigit digits = true ->
  ScanVariable ("z"%char :: digits) offset st =
    if z_suffix_accepted digits then
      (Ok (Variable' (decimal_from 0 digits)),
       set_usedVariables (fun s => {[ decimal_from 0 digits ]} ∪ s) st)
    else
      (Throw (FuncParseExcept FuncParseExcept.UnexpectedSymbol
                (sz_sub offset (name_length ("z"%char :: digits)))), st).
Proof.
  intros Hdigits. unfold ScanVariable, z_suffix_accepted.
  change (string_of_list_ascii ("z"%char :: digits))
    with (String "z" (string_of_list_ascii digits)).
  change (String.eqb (String "z" (string_of_list_ascii digits)) "i") with false.
  change (String.eqb (String "z" (string_of_list_ascii digits)) "c") with false.
  change (name_at ("z"%char :: digits) 0) with "z"%char.
  change (name_at ("z"%char :: digits) 1) with (name_at digits 0).
  change (char_eqb "z" "z") with true. cbv iota.
  unfold name_length. rewrite length_cons, Nat2Z.inj_succ.
  destruct (char_eqb (name_at digits 0) "0") eqn:Hzero.
  - destruct digits as [|d digits]; [discriminate|].
    rewrite length_cons, Nat2Z.inj_succ.
    replace (1 <? _) with true by (symmetry; apply Z.ltb_lt; lia).
    reflexivity.
  - rewrite andb_false_r. simpl negb. rewrite andb_true_l, orb_false_l.
    destruct (Z.of_nat (length digits) <=? 9) eqn:Hlen.
    + apply Z.leb_le in Hlen.
      replace (10 <? _) with false by (symmetry; apply Z.ltb_ge; lia).
      unfold bindM, liftM. change (drop 1 ("z"%char :: digits)) with digits.
      rewrite ScanIndex_result, Hdigits; [reflexivity|lia|].
      apply Z.le_trans with (1 * 10 ^ 9); [|lia].
      apply Z.mul_le_mono_nonneg_l; [lia|]. apply Z.pow_le_mono_r; lia.
    + apply Z.leb_gt in Hlen.
      replace (10 <? _) with true by (symmetry; apply Z.ltb_lt; lia).
      reflexivity.
Qed.

Lemma Reduce_single_variable index :
  Reduce [Some (Variable' index)] = Ok ([Some (Variable' index)], 1).
Proof. reflexivity. Qed.

(** C8, amended: [z] may carry a suffix of at most nine digits with no
    leading zero, and the variable index is the decimal value of the
    suffix ([z1] gives 1, [z10] gives 10); a suffix of digits that starts
    with [0] or has ten digits or more fails with UnexpectedSymbol at
    offset 0 ([z01], any eleven digits). *)
Theorem Parse_z_suffix (digits : list ascii) (st : FunctionParser)
    (Hdigits : forallb IsDigit digits = true)
    (Hsize : Z.of_nat (length digits) + 1 < 2 ^ SIZE_WIDTH) :
  Parse (z_name digits) st =
    (if z_suffix_accepted digits then
       (Ok tt,
        mkFunctionParser {[ decimal_from 0 digits ]} Extended (z_name digits)
          (Some (Variable' (decimal_from 0 digits))))
     else
       (Throw (FuncParseExcept FuncParseExcept.UnexpectedSymbol 0),
        FunctionParser_new)).
Proof.
  assert (Hname : forallb IsNamePart ("z"%char :: digits) = true)
    by (simpl; apply forallb_IsDigit_IsNamePart, Hdigits).
  rewrite Parse_unfold. unfold z_name.
  change (String "z" (string_of_list_ascii digits))
    with (string_of_list_ascii ("z"%char :: digits)).
  rewrite (StripWhitespace_name _ Hname). cbv zeta.
  rewrite ParseFuel_cons, ParsePart_S. unfold ParsePart_body.
  rewrite length_cons, Nat2Z.inj_succ.
  replace (_ =? 0) with false by (symmetry; apply Z.eqb_neq; lia).
  unfold bindM at 1. rewrite Tokenize_first_operand by lia.
  unfold bindM at 1.
  pose proof (ScanEvaluated_leading_name (S (S (ParseFuel digits - 1)))
                ("z"%char :: digits) [] (Z.succ (Z.of_nat (length digits)))
                FunctionParser_new) as Hscan.
  rewrite app_nil_r in Hscan. rewrite Hscan; clear Hscan;
    [|reflexivity|exact Hname|reflexivity|reflexivity
     |rewrite length_cons; lia].
  unfold bindM at 1. rewrite (ScanVariable_z _ _ _ Hdigits).
  destruct (z_suffix_accepted digits).
  - unfold retM at 1. cbv iota beta.
    unfold name_length. rewrite length_cons, Nat2Z.inj_succ.
    rewrite Tokenize_at_end by lia. cbv iota beta.
    change ([] ++ [Some (Variable' (decimal_from 0 digits))])
      with [Some (Variable' (decimal_from 0 digits))].
    rewrite bool_decide_eq_false_2 by discriminate.
    rewrite Reduce_single_variable. unfold bindM, liftM, set_usedVariables.
    simpl. rewrite union_empty_r_L. reflexivity.
  - unfold name_length, sz_sub. rewrite Z.sub_diag. reflexivity.
Qed.

Lemma Parse_z_suffix_witness :
  forallb IsDigit (c_str "10") = true
  /\ Parse "z10" FunctionParser_new =
       (Ok tt, mkFunctionParser {[ 10 ]} Extended "z10" (Some (Variable' 10))).
Proof.
  split; [reflexivity|].
  apply (Parse_z_suffix (c_str "10") FunctionParser_new); reflexivity.
Defined.

(** C8, counterexample: a suffix of ten digits with no leading zero is
    rejected; so is [z01], while nine digits are taken. *)
Lemma Parse_z_ten_digits_rejected :
  (Parse "z1234567890" FunctionParser_new).1 =
    Throw (FuncParseExcept FuncParseExcept.UnexpectedSymbol 0)
  /\ (Parse "z01" FunctionParser_new).1 =
       Throw (FuncParseExcept FuncParseExcept.UnexpectedSymbol 0)
  /\ (Parse "z12345678901" FunctionParser_new).1 =
       Throw (FuncParseExcept FuncParseExcept.UnexpectedSymbol 0)
  /\ Parse "z1" FunctionParser_new =
       (Ok tt, mkFunctionParser {[ 1 ]} Extended "z1" (Some (Variable' 1)))
  /\ Parse "z123456789" FunctionParser_new =
       (Ok tt, mkFunctionParser {[ 123456789 ]} Extended "z123456789"
                 (Some (Variable' 123456789))).
Proof. repeat apply conj; vm_compute; reflexivity. Qed.

(** C7, counterexample: the lone name [x] fails with UnexpectedSymbol at
    offset 1, which is neither the UnknownSymbol kind nor the offset 0 of
    the name. *)
Lemma Parse_unknown_name_kind :
  Parse "x" FunctionParser_new =
    (Throw (FuncParseExcept FuncParseExcept.UnexpectedSymbol 1),
     FunctionParser_new)
  /\ (Parse "x" FunctionParser_new).1 <>
       Throw (FuncParseExcept FuncParseExcept.UnknownSymbol 0).
Proof. split; [vm_compute; reflexivity|vm_compute; discriminate]. Qed.

(** ** The compaction passes against the description of the reducer (C5)

    The passes of [ParsePart] work in place, on a vector with a read and a
    store index; [compaction_pass] is the same pass as a fold over a list.
    [ReducePass] is shown to compute [compaction_pass] from every state in
    which the vector holds the reduced prefix below [storeIdx] and the
    pending tokens from [readIdx] on. *)

Lemma vec_at_nat {A} (v : list A) (k : nat) (x : A) :
  v !! k = Some x -> vec_at v (Z.of_nat k) = Ok x.
Proof.
  intros Hk. unfold vec_at.
  replace (Z.of_nat k <? 0) with false by (symmetry; apply Z.ltb_ge; lia).
  rewrite Nat2Z.id, Hk. reflexivity.
Qed.

Lemma vec_set_nat {A} (v : list A) (k : nat) (x : A) :
  vec_set v (Z.of_nat k) x = <[k := x]> v.
Proof. unfold vec_set. rewrite Nat2Z.id. reflexivity. Qed.

Lemma sz_add_nat (k j : nat) :
  Z.of_nat (k + j) < 2 ^ SIZE_WIDTH ->
  sz_add (Z.of_nat k) (Z.of_nat j) = Z.of_nat (k + j).
Proof. intros Hk. unfold sz_add. rewrite size_t_small by lia. lia. Qed.

Lemma sz_sub_nat (k : nat) :
  Z.of_nat (S k) < 2 ^ SIZE_WIDTH -> sz_sub (Z.of_nat (S k)) 1 = Z.of_nat k.
Proof. intros Hk. unfold sz_sub. rewrite size_t_small by lia. lia. Qed.

Lemma holds_app_l v l l' : holds v (l ++ l') -> holds v l.
Proof.
  intros Hv k x Hk. apply Hv. rewrite lookup_app_l; [exact Hk|].
  eapply lookup_lt_Some, Hk.
Qed.

Lemma holds_snoc v l x :
  holds v l -> v !! length l = Some (Some x) -> holds v (l ++ [x]).
Proof.
  intros Hv Hx k y Hk. destruct (decide (k < length l)%nat) as [Hlt|Hge].
  - rewrite lookup_app_l in Hk by exact Hlt. apply Hv, Hk.
  - pose proof (lookup_lt_Some _ _ _ Hk) as Hbound.
    rewrite length_app in Hbound. simpl in Hbound.
    assert (k = length l) as -> by lia.
    rewrite list_lookup_middle in Hk by reflexivity. congruence.
Qed.

Lemma holds_insert_ge v l i y :
  holds v l -> (length l <= i)%nat -> holds (<[i := y]> v) l.
Proof.
  intros Hv Hi k x Hk. pose proof (lookup_lt_Some _ _ _ Hk).
  rewrite list_lookup_insert_ne by lia. apply Hv, Hk.
Qed.

Lemma holds_length v l : holds v l -> (length l <= length v)%nat.
Proof.
  intros Hv. destruct l as [|x l _] using rev_ind; [simpl; lia|].
  rewrite length_app. simpl.
  assert (Hk : (l ++ [x]) !! length l = Some x)
    by (apply list_lookup_middle; reflexivity).
  apply Hv, lookup_lt_Some in Hk. lia.
Qed.

Lemma ReducePass_refines precedence n :
  forall v s r reduced pending,
    pass_state v s r reduced pending ->
    (length pending <= n)%nat ->
    Z.of_nat (r + length pending) < 2 ^ SIZE_WIDTH ->
    match compaction_pass precedence reduced pending with
    | Ok l =>
        exists v',
          ReducePass n precedence v (Z.of_nat (r + length pending))
            (Z.of_nat s) (Z.of_nat r) = Ok (v', Z.of_nat (length l))
          /\ holds v' l /\ length v' = length v
    | Throw e =>
        ReducePass n precedence v (Z.of_nat (r + length pending))
          (Z.of_nat s) (Z.of_nat r) = Throw e
    | _ => False
    end.
Proof.
  induction n as [|n IH]; intros v s r reduced pending Hst Hfuel Hsize.
  - destruct pending as [|tok pending]; [|simpl in Hfuel; lia].
    simpl. rewrite Nat.add_0_r, Z.ltb_irrefl.
    exists v. destruct Hst. rewrite length_rev, ps_store0. auto.
  - destruct pending as [|tok pending].
    { simpl. rewrite Nat.add_0_r, Z.ltb_irrefl.
      exists v. destruct Hst. rewrite length_rev, ps_store0. auto. }
    destruct Hst as [Hs Hord Hlen Hred Hpend].
    rewrite length_cons in *.
    assert (Htok : v !! r = Some (Some tok))
      by (rewrite <- (Nat.add_0_r r); apply Hpend; reflexivity).
    cbn [compaction_pass ReducePass].
    replace (Z.of_nat r <? Z.of_nat (r + S (length pending))) with true
      by (symmetry; apply Z.ltb_lt; lia).
    rewrite (vec_at_nat _ _ _ Htok). cbn [bindO].
    change 1 with (Z.of_nat 1). change 2 with (Z.of_nat 2).
    rewrite !sz_add_nat by lia.
    destruct (operator_at precedence tok) as [[name opPrecedence]|] eqn:Hop.
    + destruct reduced as [|lhs reduced].
      { simpl in Hs. subst s. rewrite andb_false_r. reflexivity. }
      destruct pending as [|rhs pending].
      { simpl. replace (r + 1)%nat with (r + 1)%nat by lia.
        rewrite Z.ltb_irrefl. reflexivity. }
      simpl in Hs. subst s. rewrite length_cons in *.
      replace (Z.of_nat (r + 1) <? Z.of_nat (r + S (S (length pending))))
        with true by (symmetry; apply Z.ltb_lt; lia).
      replace (0 <? Z.of_nat (S (length reduced))) with true
        by (symmetry; apply Z.ltb_lt; lia).
      cbn [andb negb]. change (Z.of_nat 1) with 1. rewrite sz_sub_nat by lia.
      assert (Hlhs : v !! length reduced = Some (Some lhs)).
      { apply Hred. simpl. rewrite <- (length_rev reduced).
        apply list_lookup_middle. reflexivity. }
      assert (Hrhs : v !! (r + 1)%nat = Some (Some rhs)) by (apply Hpend; reflexivity).
      rewrite (vec_at_nat _ _ _ Hlhs). cbn [bindO]. rewrite !vec_set_nat.
      rewrite (vec_at_nat _ (r + 1) (Some rhs))
        by (rewrite list_lookup_insert_ne by lia; exact Hrhs).
      cbn [bindO]. rewrite !vec_set_nat, !sz_add_nat by lia.
      set (op := Operator name (Some lhs) (Some rhs) opPrecedence).
      set (v3 := <[length reduced := Some op]>
                   (<[r := None]> (<[(r + 1)%nat := None]>
                      (<[length reduced := None]> v)))).
      assert (Hv3 : length v3 = length v)
        by (unfold v3; rewrite !length_insert; reflexivity).
      assert (Hst3 : pass_state v3 (S (length reduced)) (r + 2) (op :: reduced) pending).
      { split.
        - reflexivity.
        - lia.
        - rewrite Hv3. lia.
        - simpl. apply holds_snoc.
          + unfold v3. simpl in Hred. apply holds_app_l in Hred.
            repeat (apply holds_insert_ge; [|rewrite length_rev; lia]).
            exact Hred.
          + unfold v3. rewrite length_rev. apply list_lookup_insert_eq.
            rewrite !length_insert. lia.
        - intros k x Hk. unfold v3.
          rewrite !list_lookup_insert_ne by lia.
          replace (r + 2 + k)%nat with (r + S (S k))%nat by lia.
          apply Hpend. exact Hk. }
      specialize (IH v3 (S (length reduced)) (r + 2)%nat (op :: reduced) pending
                    Hst3 ltac:(lia) ltac:(lia)).
      replace (r + 2 + length pending)%nat with (r + S (S (length pending)))%nat
        in IH by lia.
      destruct (compaction_pass precedence (op :: reduced) pending) as [l|e| |];
        try exact IH.
      destruct IH as (v' & Hrun & Hholds & Hlen').
      exists v'. rewrite Hrun. split; [reflexivity|]. split; [exact Hholds|].
      congruence.
    + rewrite (sz_add_nat s 1) by lia.
      set (v1 := if negb (Z.of_nat s =? Z.of_nat r)
                 then vec_set (vec_set v (Z.of_nat r) None) (Z.of_nat s) (Some tok)
                 else v).
      assert (Hv1 : length v1 = length v).
      { unfold v1. destruct (negb _); [|reflexivity].
        rewrite !vec_set_nat, !length_insert. reflexivity. }
      assert (Hst1 : pass_state v1 (s + 1) (r + 1) (tok :: reduced) pending).
      { split.
        - simpl. lia.
        - lia.
        - rewrite Hv1. lia.
        - simpl. apply holds_snoc.
          + unfold v1. destruct (negb _); [|exact Hred].
            rewrite !vec_set_nat.
            repeat (apply holds_insert_ge; [|rewrite length_rev; lia]).
            exact Hred.
          + rewrite length_rev, Hs. unfold v1.
            destruct (Z.of_nat s =? Z.of_nat r) eqn:E; simpl.
            * apply Z.eqb_eq in E. assert (s = r) as -> by lia. exact Htok.
            * rewrite !vec_set_nat. apply list_lookup_insert_eq.
              rewrite length_insert. lia.
        - intros k x Hk. unfold v1.
          replace (r + 1 + k)%nat with (r + S k)%nat by lia.
          destruct (negb _); [|apply Hpend; exact Hk].
          rewrite !vec_set_nat, !list_lookup_insert_ne by lia.
          apply Hpend. exact Hk. }
      specialize (IH v1 (s + 1)%nat (r + 1)%nat (tok :: reduced) pending
                    Hst1 ltac:(lia) ltac:(lia)).
      replace (r + 1 + length pending)%nat with (r + S (length pending))%nat
        in IH by lia.
      fold v1.
      destruct (compaction_pass precedence (tok :: reduced) pending) as [l|e| |];
        try exact IH.
      destruct IH as (v' & Hrun & Hholds & Hlen').
      exists v'. rewrite Hrun. split; [reflexivity|]. split; [exact Hholds|].
      congruence.
Qed.

Lemma pass_state_start v l : holds v l -> pass_state v 0 0 [] l.
Proof.
  intros Hv. split; simpl; auto.
  - apply holds_length, Hv.
  - intros k x Hk. discriminate.
Qed.

Lemma ReducePass_from_start precedence v l :
  holds v l -> Z.of_nat (length l) < 2 ^ SIZE_WIDTH ->
  match compaction_pass precedence [] l with
  | Ok l' =>
      exists v',
        ReducePass (Z.to_nat (Z.of_nat (length l))) precedence v
          (Z.of_nat (length l)) 0 0 = Ok (v', Z.of_nat (length l'))
        /\ holds v' l' /\ length v' = length v
  | Throw e =>
      ReducePass (Z.to_nat (Z.of_nat (length l))) precedence v
        (Z.of_nat (length l)) 0 0 = Throw e
  | _ => False
  end.
Proof.
  intros Hv Hsize. rewrite Nat2Z.id.
  apply (ReducePass_refines precedence (length l) v 0 0 [] l
           (pass_state_start v l Hv)); [lia|exact Hsize].
Qed.

(** The three passes of [Reduce] compute the three folds of the
    description, on every token sequence. *)
Lemma Reduce_refines (tokens : list FuncElem) :
  Z.of_nat (length tokens) < 2 ^ SIZE_WIDTH ->
  match three_passes tokens with
  | Ok l =>
      exists v,
        Reduce (Some <$> tokens) = Ok (v, Z.of_nat (length l)) /\ holds v l
  | Throw e => Reduce (Some <$> tokens) = Throw e
  | _ => False
  end.
Proof.
  intros Hsize. unfold three_passes, Reduce. rewrite length_fmap.
  assert (Hv0 : holds (Some <$> tokens) tokens)
    by (intros k x Hk; rewrite list_lookup_fmap, Hk; reflexivity).
  pose proof (ReducePass_from_start 2 _ _ Hv0 Hsize) as H2.
  destruct (compaction_pass 2 [] tokens) as [l2|e| |]; simpl;
    [|rewrite H2; reflexivity|exact H2|exact H2].
  destruct H2 as (v2 & -> & Hv2 & Hlen2). simpl.
  assert (Hsize2 : Z.of_nat (length l2) < 2 ^ SIZE_WIDTH).
  { apply holds_length in Hv2. rewrite Hlen2, length_fmap in Hv2. lia. }
  pose proof (ReducePass_from_start 1 _ _ Hv2 Hsize2) as H1.
  destruct (compaction_pass 1 [] l2) as [l1|e| |]; simpl;
    [|rewrite H1; reflexivity|exact H1|exact H1].
  destruct H1 as (v1 & -> & Hv1 & Hlen1). simpl.
  assert (Hsize1 : Z.of_nat (length l1) < 2 ^ SIZE_WIDTH).
  { apply holds_length in Hv1. rewrite Hlen1, Hlen2, length_fmap in Hv1. lia. }
  pose proof (ReducePass_from_start 0 _ _ Hv1 Hsize1) as H0.
  destruct (compaction_pass 0 [] l1) as [l0|e| |]; simpl;
    [|rewrite H0; reflexivity|exact H0|exact H0].
  destruct H0 as (v0 & -> & Hv0' & _). exists v0. auto.
Qed.

(** *** Operators of one tier *)

Lemma operator_at_operand q e : is_operand e = true -> operator_at q e = None.
Proof. destruct e; simpl; auto; discriminate. Qed.

Lemma operator_at_same p name lhs rhs :
  operator_at p (Operator name lhs rhs p) = Some (name, p).
Proof. simpl. rewrite Z.eqb_refl. reflexivity. Qed.

Lemma operator_at_other q p name lhs rhs :
  p <> q -> operator_at q (Operator name lhs rhs p) = None.
Proof. intros Hne. simpl. apply Z.eqb_neq in Hne. rewrite Hne. reflexivity. Qed.

Lemma compaction_pass_chain p tail : forall lhs reduced,
  compaction_pass p (lhs :: reduced) (chain p tail) =
    Ok (rev reduced ++ [fold_chain p lhs tail]).
Proof.
  induction tail as [|[name rhs] tail IH]; intros lhs reduced; [reflexivity|].
  cbn [chain flat_map app fst snd compaction_pass].
  rewrite operator_at_same. apply IH.
Qed.

Lemma compaction_pass_untouched q tokens : forall reduced,
  Forall (fun e => operator_at q e = None) tokens ->
  compaction_pass q reduced tokens = Ok (rev reduced ++ tokens).
Proof.
  induction tokens as [|tok tokens IH]; intros reduced Hall.
  - simpl. rewrite app_nil_r. reflexivity.
  - inversion Hall as [|? ? Htok Hrest]; subst. simpl. rewrite Htok, IH by exact Hrest.
    simpl. rewrite <- app_assoc. reflexivity.
Qed.

Lemma chain_untouched q p first tail :
  p <> q -> is_operand first = true ->
  Forall (fun step => is_operand step.2 = true) tail ->
  Forall (fun e => operator_at q e = None) (first :: chain p tail).
Proof.
  intros Hne Hfirst Htail. constructor; [apply operator_at_operand, Hfirst|].
  induction Htail as [|[name rhs] tail Hrhs _ IH]; [constructor|].
  cbn [chain flat_map app fst snd]. constructor; [exact (operator_at_other _ _ _ _ _ Hne)|].
  constructor; [apply operator_at_operand, Hrhs|exact IH].
Qed.

Lemma fold_chain_untouched q p first tail :
  p <> q -> is_operand first = true ->
  operator_at q (fold_chain p first tail) = None.
Proof.
  intros Hne Hfirst. destruct tail as [|step tail _] using rev_ind.
  - apply operator_at_operand, Hfirst.
  - unfold fold_chain. rewrite fold_left_app. cbn [fold_left].
    exact (operator_at_other _ _ _ _ _ Hne).
Qed.

Lemma three_passes_chain p first tail :
  p = 0 \/ p = 1 \/ p = 2 ->
  is_operand first = true ->
  Forall (fun step => is_operand step.2 = true) tail ->
  three_passes (first :: chain p tail) = Ok [fold_chain p first tail].
Proof.
  intros Hp Hfirst Htail. unfold three_passes.
  assert (Hfold : forall q, p = q ->
            compaction_pass q [] (first :: chain p tail) = Ok [fold_chain p first tail]).
  { intros q <-. simpl. rewrite (operator_at_operand _ _ Hfirst).
    apply compaction_pass_chain. }
  assert (Hskip : forall q, p <> q ->
            compaction_pass q [] (first :: chain p tail) = Ok (first :: chain p tail)).
  { intros q Hne. apply compaction_pass_untouched, chain_untouched; auto. }
  assert (Hdone : forall q, p <> q ->
            compaction_pass q [] [fold_chain p first tail] = Ok [fold_chain p first tail]).
  { intros q Hne. simpl. rewrite fold_chain_untouched by auto. reflexivity. }
  destruct Hp as [-> | [-> | ->]].
  - rewrite Hskip by lia. cbn [bindO]. rewrite Hskip by lia. cbn [bindO].
    apply Hfold. reflexivity.
  - rewrite Hskip by lia. cbn [bindO]. rewrite Hfold by reflexivity. cbn [bindO].
    apply Hdone. lia.
  - rewrite Hfold by reflexivity. cbn [bindO]. rewrite Hdone by lia. cbn [bindO].
    apply Hdone. lia.
Qed.

(** On operators of one tier [Reduce] leaves the left-nested tree alone in
    the first cell. *)
Lemma Reduce_chain p first tail :
  p = 0 \/ p = 1 \/ p = 2 ->
  is_operand first = true ->
  Forall (fun step => is_operand step.2 = true) tail ->
  Z.of_nat (length (first :: chain p tail)) < 2 ^ SIZE_WIDTH ->
  exists v,
    Reduce (Some <$> first :: chain p tail) = Ok (v, 1)
    /\ vec_at v 0 = Ok (Some (fold_chain p first tail)).
Proof.
  intros Hp Hfirst Htail Hsize.
  pose proof (Reduce_refines _ Hsize) as Href.
  rewrite three_passes_chain in Href by assumption.
  destruct Href as (v & Hrun & Hv). exists v. split; [exact Hrun|].
  apply (vec_at_nat v 0). apply Hv. reflexivity.
Qed.

(** The operands of [Reduce_chain] are not [Operator] nodes.  A parenthesised
    operand is one, with its [precedence] still set: the pass of its tier
    reads it as an operator to fold.  At the front of the vector there is
    nothing to its left, later on it takes its neighbours as parameters. *)
Lemma Reduce_rereads_parenthesised (st : FunctionParser) :
  (Parse "(2^3)^2" st).1 = Throw (FuncParseExcept FuncParseExcept.EmptyFunction 0)
  /\ (Parse "(1+2)+3" st).1 = Throw (FuncParseExcept FuncParseExcept.EmptyFunction 0)
  /\ (Parse "1+(2*3)+4" st).1 = Throw (FuncParseExcept FuncParseExcept.UnknownError 0)
  /\ (Parse "2^(3^2)" st).1 = Ok tt.
Proof. repeat apply conj; vm_compute; reflexivity. Qed.

(** ** The counter never runs out

    [ParseFuel] is enough for every text: [Parse] returns, throws, or
    takes a step without defined behaviour, and the outcome [OutOfFuel] of
    the model is never its result. *)

Ltac fuel_done := solve [unfold in_fuel; simpl; discriminate].

Lemma in_fuel_bindO {A B} (m : Outcome A) (k : A -> Outcome B) :
  in_fuel m -> (forall a, m = Ok a -> in_fuel (k a)) -> in_fuel (bindO m k).
Proof.
  intros Hm Hk. destruct m; simpl; try fuel_done; [|contradiction].
  apply Hk. reflexivity.
Qed.

Lemma in_fuel_bindM {A B} (m : Member A) (k : A -> Member B) st :
  in_fuel (m st).1 ->
  (forall a st', m st = (Ok a, st') -> in_fuel (k a st').1) ->
  in_fuel (bindM m k st).1.
Proof.
  intros Hm Hk. unfold bindM. destruct (m st) as [[a| | |] st']; simpl in *;
    try fuel_done; [|contradiction].
  apply Hk. reflexivity.
Qed.

Lemma in_fuel_char_at func j : in_fuel (char_at func j).
Proof.
  unfold char_at, in_fuel. destruct (j <? 0); [fuel_done|].
  destruct (func !! _); [fuel_done|]. destruct (j =? _); fuel_done.
Qed.

Lemma in_fuel_ptr_add func j : in_fuel (ptr_add func j).
Proof. unfold ptr_add, in_fuel. destruct (_ && _); fuel_done. Qed.

Lemma in_fuel_vec_at {A} (v : list A) k : in_fuel (vec_at v k).
Proof.
  unfold vec_at, in_fuel. destruct (k <? 0); [fuel_done|].
  destruct (v !! _); fuel_done.
Qed.

Lemma in_fuel_CountBetweenBraces_loop n func offset : forall braceCntr j,
  in_fuel (CountBetweenBraces_loop n func offset braceCntr j).
Proof.
  induction n as [|n IH]; intros braceCntr j; cbn [CountBetweenBraces_loop];
    [fuel_done|].
  apply in_fuel_bindO; [apply in_fuel_char_at|]. intros ch _.
  destruct (char_eqb "(" ch); [apply IH|].
  destruct (char_eqb ")" ch); [|apply IH]. cbv zeta.
  destruct (0 =? sz_sub braceCntr 1); [fuel_done|apply IH].
Qed.

Lemma in_fuel_ScanNumber func offset : in_fuel (ScanNumber func offset).
Proof.
  unfold ScanNumber.
  apply in_fuel_bindO; [apply in_fuel_char_at|]. intros first _.
  apply in_fuel_bindO; [apply in_fuel_ptr_add|]. intros rest _.
  destruct (ScanNumber_whole _ _ _ _) as [[num offset'] digitPresent].
  apply in_fuel_bindO; [apply in_fuel_char_at|]. intros ch _.
  apply in_fuel_bindO.
  - destruct (char_eqb ch "."); [|fuel_done].
    apply in_fuel_bindO; [apply in_fuel_ptr_add|]. fuel_done.
  - intros [[num' offset''] digitPresent'] _.
    destruct (negb _); fuel_done.
Qed.

Lemma in_fuel_ScanOperator func offset : in_fuel (ScanOperator func offset).
Proof.
  unfold ScanOperator.
  apply in_fuel_bindO; [apply in_fuel_char_at|]. intros ch _.
  repeat (destruct (char_eqb ch _); [fuel_done|]). fuel_done.
Qed.

Lemma in_fuel_ScanIndex rest : forall index errorOffset,
  in_fuel (ScanIndex rest index errorOffset).
Proof.
  induction rest as [|ch rest IH]; intros index errorOffset; cbn [ScanIndex];
    [fuel_done|].
  destruct (negb _); [fuel_done|]. destruct (_ <=? _); [apply IH|fuel_done].
Qed.

Lemma in_fuel_ScanVariable name offset st :
  in_fuel (ScanVariable name offset st).1.
Proof.
  unfold ScanVariable.
  destruct (String.eqb _ "i"); [fuel_done|].
  destruct (String.eqb _ "c"); [fuel_done|].
  destruct (char_eqb _ "z"); [|fuel_done].
  destruct (_ || _); [fuel_done|].
  apply in_fuel_bindM; [apply in_fuel_ScanIndex|]. fuel_done.
Qed.

Lemma in_fuel_GetFunctionNameApplyPrecision name offset st :
  in_fuel (GetFunctionNameApplyPrecision name offset st).1.
Proof.
  pose proof (GetFunctionNameApplyPrecision_step name offset st) as Hstep.
  destruct (GetFunctionNameApplyPrecision name offset st) as [[n|e| |] st'];
    simpl; try fuel_done; contradiction.
Qed.

Lemma in_fuel_ReducePass n precedence : forall v tokenCount storeIdx readIdx,
  0 <= readIdx -> tokenCount < 2 ^ SIZE_WIDTH - 2 ->
  tokenCount - readIdx <= Z.of_nat n ->
  in_fuel (ReducePass n precedence v tokenCount storeIdx readIdx).
Proof.
  induction n as [|n IH]; intros v tokenCount storeIdx readIdx Hread Hsize Hfuel.
  - simpl. replace (readIdx <? tokenCount) with false; [fuel_done|].
    symmetry. apply Z.ltb_ge. lia.
  - cbn [ReducePass]. destruct (readIdx <? tokenCount) eqn:E; [|fuel_done].
    apply Z.ltb_lt in E.
    apply in_fuel_bindO; [apply in_fuel_vec_at|]. intros [e|] _; [|fuel_done].
    assert (H1 : sz_add readIdx 1 = readIdx + 1)
      by (unfold sz_add; apply size_t_small; lia).
    assert (H2 : sz_add readIdx 2 = readIdx + 2)
      by (unfold sz_add; apply size_t_small; lia).
    destruct (operator_at precedence e) as [[name opPrecedence]|].
    + destruct (negb _); [fuel_done|].
      apply in_fuel_bindO; [apply in_fuel_vec_at|]. intros lhs _.
      apply in_fuel_bindO; [apply in_fuel_vec_at|]. intros rhs _.
      rewrite H2. apply IH; lia.
    + rewrite H1. apply IH; lia.
Qed.

Lemma ReducePass_count n precedence : forall v tokenCount storeIdx readIdx v' count,
  0 <= storeIdx <= readIdx -> readIdx <= tokenCount ->
  tokenCount < 2 ^ SIZE_WIDTH - 2 ->
  ReducePass n precedence v tokenCount storeIdx readIdx = Ok (v', count) ->
  0 <= count <= tokenCount.
Proof.
  induction n as [|n IH]; intros v tokenCount storeIdx readIdx v' count Hs Hr Hsize.
  - cbn [ReducePass]. destruct (readIdx <? tokenCount); [discriminate|].
    intros [= _ <-]. lia.
  - cbn [ReducePass]. destruct (readIdx <? tokenCount) eqn:E;
      [|intros [= _ <-]; lia].
    apply Z.ltb_lt in E.
    destruct (vec_at v readIdx) as [[e|]| | |]; cbn [bindO]; try discriminate.
    assert (H1 : sz_add readIdx 1 = readIdx + 1)
      by (unfold sz_add; apply size_t_small; lia).
    assert (H2 : sz_add readIdx 2 = readIdx + 2)
      by (unfold sz_add; apply size_t_small; lia).
    assert (H3 : sz_add storeIdx 1 = storeIdx + 1)
      by (unfold sz_add; apply size_t_small; lia).
    destruct (operator_at precedence e) as [[name opPrecedence]|].
    + rewrite H1, H2.
      destruct (readIdx + 1 <? tokenCount) eqn:E1; [|discriminate].
      apply Z.ltb_lt in E1. destruct (0 <? storeIdx); [|discriminate].
      cbn [andb negb].
      destruct (vec_at v (sz_sub storeIdx 1)) as [lhs| | |]; cbn [bindO];
        try discriminate.
      destruct (vec_at _ (readIdx + 1)) as [rhs| | |]; cbn [bindO];
        try discriminate.
      apply IH; lia.
    + rewrite H1, H3. apply IH; lia.
Qed.

Lemma in_fuel_Reduce tokenized :
  Z.of_nat (length tokenized) < 2 ^ SIZE_WIDTH - 2 -> in_fuel (Reduce tokenized).
Proof.
  intros Hsize. unfold Reduce. cbv zeta.
  apply in_fuel_bindO; [apply in_fuel_ReducePass; lia|].
  intros [v2 c2] H2. apply ReducePass_count in H2; [|lia..].
  apply in_fuel_bindO; [apply in_fuel_ReducePass; lia|].
  intros [v1 c1] H1. apply ReducePass_count in H1; [|lia..].
  apply in_fuel_ReducePass; lia.
Qed.

(** *** Every scan moves the cursor forward *)

Lemma char_at_Ok func j ch :
  char_at func j = Ok ch -> 0 <= j <= Z.of_nat (length func).
Proof.
  unfold char_at. destruct (j <? 0) eqn:E; [discriminate|]. apply Z.ltb_ge in E.
  destruct (func !! Z.to_nat j) eqn:Hlook.
  - apply lookup_lt_Some in Hlook. lia.
  - destruct (j =? _) eqn:Heq; [|discriminate]. apply Z.eqb_eq in Heq. lia.
Qed.

Lemma char_at_Ok_lt func j ch :
  char_at func j = Ok ch -> ch <> NUL -> 0 <= j < Z.of_nat (length func).
Proof.
  unfold char_at. destruct (j <? 0) eqn:E; [discriminate|]. apply Z.ltb_ge in E.
  destruct (func !! Z.to_nat j) eqn:Hlook.
  - apply lookup_lt_Some in Hlook. lia.
  - destruct (j =? _); [|discriminate]. intros [= <-] Hne. contradiction.
Qed.

Lemma char_eqb_eq a b : char_eqb a b = true -> a = b.
Proof. apply Ascii.eqb_eq. Qed.

Lemma CountBetweenBraces_loop_Ok n func offset : forall braceCntr j bracedLength,
  Z.of_nat (length func) < 2 ^ SIZE_WIDTH - 2 ->
  0 <= offset <= j ->
  CountBetweenBraces_loop n func offset braceCntr j = Ok bracedLength ->
  j - offset <= bracedLength < j - offset + Z.of_nat n
  /\ offset + bracedLength < Z.of_nat (length func).
Proof.
  induction n as [|n IH]; intros braceCntr j bracedLength Hsize Hj;
    cbn [CountBetweenBraces_loop]; [discriminate|].
  destruct (char_at func j) as [ch| | |] eqn:Hch; cbn [bindO]; try discriminate.
  pose proof (char_at_Ok _ _ _ Hch) as Hrange.
  assert (Hnext : sz_add j 1 = j + 1) by (unfold sz_add; apply size_t_small; lia).
  rewrite Hnext.
  destruct (char_eqb "(" ch).
  { intros Hrun. apply IH in Hrun; lia. }
  destruct (char_eqb ")" ch) eqn:Hclose.
  - cbv zeta. destruct (0 =? sz_sub braceCntr 1).
    + intros [= <-]. apply char_eqb_eq in Hclose. subst ch.
      apply char_at_Ok_lt in Hch; [|discriminate].
      unfold sz_sub. rewrite size_t_small by lia. lia.
    + intros Hrun. apply IH in Hrun; lia.
  - intros Hrun. apply IH in Hrun; lia.
Qed.

Lemma CountBetweenBraces_Ok func offset length bracedLength :
  Z.of_nat (List.length func) < 2 ^ SIZE_WIDTH - 2 ->
  0 <= offset -> 0 <= length -> offset + length + 1 < 2 ^ SIZE_WIDTH ->
  CountBetweenBraces func offset length = Ok bracedLength ->
  1 <= bracedLength < length
  /\ offset + bracedLength < Z.of_nat (List.length func).
Proof.
  intros Hsize Hoffset Hlength Hend. unfold CountBetweenBraces, sz_add.
  rewrite !size_t_small by lia. intros Hrun.
  apply CountBetweenBraces_loop_Ok in Hrun; [|lia..]. lia.
Qed.

Lemma ScanNumber_whole_progress rest : forall num offset digitPresent,
  0 <= offset -> offset + Z.of_nat (length rest) < 2 ^ SIZE_WIDTH ->
  let '(_, offset', digitPresent') := ScanNumber_whole rest num offset digitPresent in
  offset <= offset' <= offset + Z.of_nat (length rest)
  /\ (digitPresent' = true -> digitPresent = true \/ offset < offset').
Proof.
  induction rest as [|ch rest IH]; intros num offset digitPresent Hoffset Hsize;
    cbn [ScanNumber_whole]; [simpl; split; [lia|auto]|].
  rewrite length_cons, Nat2Z.inj_succ in *.
  destruct (IsDigit ch); [|split; [lia|auto]].
  assert (Hnext : sz_add offset 1 = offset + 1)
    by (unfold sz_add; apply size_t_small; lia).
  rewrite Hnext.
  specialize (IH (10 * num + double_of_Z (digit_value ch))%float (offset + 1) true).
  destruct (ScanNumber_whole rest _ _ _) as [[num' offset'] digitPresent'].
  destruct IH as [IH1 IH2]; [lia..|]. split; [lia|]. intros _. right. lia.
Qed.

Lemma ScanNumber_fraction_progress rest : forall num fractionalDiv offset digitPresent,
  0 <= offset -> offset + 1 + Z.of_nat (length rest) < 2 ^ SIZE_WIDTH ->
  let '(_, offset', _) :=
    ScanNumber_fraction rest num fractionalDiv offset digitPresent in
  offset + 1 <= offset' <= offset + 1 + Z.of_nat (length rest).
Proof.
  induction rest as [|ch rest IH];
    intros num fractionalDiv offset digitPresent Hoffset Hsize;
    cbn [ScanNumber_fraction]; cbv zeta;
    (assert (Hnext : sz_add offset 1 = offset + 1)
       by (unfold sz_add; apply size_t_small; lia)); rewrite Hnext;
    [simpl; lia|].
  rewrite length_cons, Nat2Z.inj_succ in *.
  destruct (IsDigit ch); [|lia].
  specialize (IH (num + double_of_Z (digit_value ch) / (fractionalDiv / 10))%float
                (fractionalDiv / 10)%float (offset + 1) true).
  destruct (ScanNumber_fraction rest _ _ _ _) as [[num' offset'] digitPresent'].
  specialize (IH ltac:(lia) ltac:(lia)). lia.
Qed.

Lemma ptr_add_Ok func j rest :
  ptr_add func j = Ok rest ->
  0 <= j <= Z.of_nat (length func)
  /\ Z.of_nat (length rest) = Z.of_nat (length func) - j.
Proof.
  unfold ptr_add. destruct (_ && _) eqn:E; [|discriminate]. intros [= <-].
  apply andb_true_iff in E as [H0 H1]. apply Z.leb_le in H0, H1.
  rewrite length_drop. lia.
Qed.

Lemma ScanNumber_progress func offset num offset' :
  Z.of_nat (length func) < 2 ^ SIZE_WIDTH - 2 ->
  ScanNumber func offset = Ok (num, offset') ->
  offset < offset' <= Z.of_nat (length func).
Proof.
  intros Hsize. unfold ScanNumber. cbv zeta.
  destruct (char_at func offset) as [first| | |] eqn:Hfirst; cbn [bindO];
    try discriminate.
  pose proof (char_at_Ok _ _ _ Hfirst) as Hrange.
  set (offset1 := if char_eqb first "-" then sz_add offset 1 else offset).
  assert (Hoffset1 : offset <= offset1 <= offset + 1).
  { unfold offset1. destruct (char_eqb first "-"); [|lia].
    unfold sz_add. rewrite size_t_small by lia. lia. }
  destruct (ptr_add func offset1) as [rest| | |] eqn:Hrest; cbn [bindO];
    try discriminate.
  apply ptr_add_Ok in Hrest as [Hr1 Hr2].
  pose proof (ScanNumber_whole_progress rest 0%float offset1 false) as Hwhole.
  destruct (ScanNumber_whole rest _ _ _) as [[num1 offset2] digitPresent1].
  specialize (Hwhole ltac:(lia) ltac:(lia)). destruct Hwhole as [Hw1 Hw2].
  destruct (char_at func offset2) as [ch| | |] eqn:Hch; cbn [bindO];
    try discriminate.
  destruct (char_eqb ch ".") eqn:Hdot.
  - apply char_eqb_eq in Hdot. subst ch.
    apply char_at_Ok_lt in Hch; [|discriminate].
    assert (Hnext : sz_add offset2 1 = offset2 + 1)
      by (unfold sz_add; apply size_t_small; lia).
    rewrite Hnext.
    destruct (ptr_add func (offset2 + 1)) as [rest'| | |] eqn:Hrest'; cbn [bindO];
      try discriminate.
    apply ptr_add_Ok in Hrest' as [Hr1' Hr2'].
    pose proof (ScanNumber_fraction_progress rest' num1 1%float offset2
                  digitPresent1) as Hfrac.
    destruct (ScanNumber_fraction rest' _ _ _ _) as [[num2 offset3] digitPresent2].
    specialize (Hfrac ltac:(lia) ltac:(lia)).
    destruct (negb digitPresent2); [discriminate|]. intros [= _ <-]. lia.
  - cbn [bindO]. destruct digitPresent1; [|discriminate]. cbn [negb].
    intros [= _ <-]. destruct Hw2 as [Hw2|Hw2]; [reflexivity|discriminate|lia].
Qed.

Lemma ScanOperator_progress func offset token offset' :
  Z.of_nat (length func) < 2 ^ SIZE_WIDTH - 2 ->
  ScanOperator func offset = Ok (token, offset') ->
  offset' = offset + 1 /\ 0 <= offset < Z.of_nat (length func).
Proof.
  intros Hsize. unfold ScanOperator.
  destruct (char_at func offset) as [ch| | |] eqn:Hch; cbn [bindO];
    try discriminate.
  pose proof (char_at_Ok _ _ _ Hch) as Hrange.
  assert (Hnext : sz_add offset 1 = offset + 1)
    by (unfold sz_add; apply size_t_small; lia).
  rewrite Hnext.
  assert (Hlt : ch <> NUL -> 0 <= offset < Z.of_nat (length func))
    by (apply char_at_Ok_lt, Hch).
  repeat match goal with
         | |- (if char_eqb ch ?c then _ else _) = _ -> _ =>
             let E := fresh "E" in
             destruct (char_eqb ch c) eqn:E;
             [apply char_eqb_eq in E; subst ch; intros [= _ <-];
              split; [reflexivity|apply Hlt; discriminate]|]
         end.
  discriminate.
Qed.

Lemma ScanVariable_Ok_nonempty name offset st funcElem st' :
  ScanVariable name offset st = (Ok funcElem, st') -> name <> [].
Proof.
  intros Hrun ->. unfold ScanVariable in Hrun.
  change (String.eqb (string_of_list_ascii []) "i") with false in Hrun.
  change (String.eqb (string_of_list_ascii []) "c") with false in Hrun.
  change (char_eqb (name_at [] 0) "z") with false in Hrun.
  cbv iota in Hrun. discriminate.
Qed.

Lemma bindM_Ok_inv {A B} (m : Member A) (k : A -> Member B) st b st' :
  bindM m k st = (Ok b, st') ->
  exists a st1, m st = (Ok a, st1) /\ k a st1 = (Ok b, st').
Proof.
  unfold bindM. destruct (m st) as [[a| | |] st1]; try discriminate.
  intros Hk. exists a, st1. auto.
Qed.

Lemma liftM_Ok_inv {A} (m : Outcome A) st a st' :
  liftM m st = (Ok a, st') -> m = Ok a /\ st' = st.
Proof. intros [= -> ->]. auto. Qed.

Section Fuel.
Variable func : list ascii.
Hypothesis Hfunc : Z.of_nat (length func) < 2 ^ 62.

Lemma size_t_func z : 0 <= z <= 2 * Z.of_nat (length func) + 4 -> size_t z = z.
Proof. intros Hz. apply size_t_small. change (2 ^ SIZE_WIDTH) with (4 * 2 ^ 62). lia. Qed.

Lemma ScanEvaluated_progress fuel :
  forall offset length st funcElem offset' st',
    0 <= length <= Z.of_nat (List.length func) ->
    ScanEvaluated fuel func offset length st = (Ok (funcElem, offset'), st') ->
    offset < offset' <= Z.of_nat (List.length func).
Proof.
  assert (Hsize : Z.of_nat (List.length func) < 2 ^ SIZE_WIDTH - 2)
    by (change (2 ^ SIZE_WIDTH) with (4 * 2 ^ 62); lia).
  induction fuel as [|fuel IH]; intros offset length st funcElem offset' st' Hlength;
    [discriminate|].
  rewrite ScanEvaluated_S. unfold ScanEvaluated_body.
  intros (ch & st1 & [Hch ->]%liftM_Ok_inv & Hrun)%bindM_Ok_inv.
  pose proof (char_at_Ok _ _ _ Hch) as Hoffset.
  destruct (char_eqb "(" ch) eqn:Hparen.
  - apply char_eqb_eq in Hparen. subst ch.
    apply char_at_Ok_lt in Hch; [|discriminate].
    unfold sz_add at 1 2 in Hrun. rewrite (size_t_func (offset + 1)) in Hrun by lia.
    apply bindM_Ok_inv in Hrun as (bracedLength & st2 & [Hbraces ->]%liftM_Ok_inv & Hrun).
    apply CountBetweenBraces_Ok in Hbraces;
      [|lia|lia|lia|change (2 ^ SIZE_WIDTH) with (4 * 2 ^ 62); lia].
    apply bindM_Ok_inv in Hrun as (inner & st3 & _ & [= _ <- _]).
    unfold sz_add.
    rewrite (size_t_func (offset + 1)), (size_t_func (bracedLength + 1)) by lia.
    rewrite size_t_func by lia. lia.
  - destruct (IsLetter ch).
    + apply bindM_Ok_inv in Hrun as (start & st2 & [Hstart ->]%liftM_Ok_inv & Hrun).
      apply ptr_add_Ok in Hstart as [_ Hstartlen].
      pose proof (CountNameLength_bounds start (length - offset)) as Hname.
      fold (sz_sub length offset) in Hname.
      set (nameLength := CountNameLength start (sz_sub length offset)) in *.
      unfold sz_add in Hrun. rewrite (size_t_func (offset + nameLength)) in Hrun by lia.
      apply bindM_Ok_inv in Hrun as (next & st3 & [Hnext ->]%liftM_Ok_inv & Hrun).
      destruct (char_eqb next "(").
      * apply bindM_Ok_inv in Hrun as (n & st4 & _ & Hrun).
        apply bindM_Ok_inv in Hrun as ([param offset2] & st5 & Hinner & [= _ <- _]).
        apply IH in Hinner; [|exact Hlength]. lia.
      * apply bindM_Ok_inv in Hrun as (elem & st4 & Hvar & [= _ <- _]).
        apply ScanVariable_Ok_nonempty in Hvar.
        assert (nameLength <> 0) by (intros Hzero; rewrite Hzero in Hvar; apply Hvar; reflexivity).
        lia.
    + destruct (IsNumberPart ch); [|discriminate].
      apply bindM_Ok_inv in Hrun as ([num offset2] & st2 & [Hnum ->]%liftM_Ok_inv & [= _ <- _]).
      apply ScanNumber_progress in Hnum; [lia|exact Hsize].
Qed.

Lemma Tokenize_length fuel :
  forall offset length i scanEvaluated tokenized st tokens scanEvaluated' st',
    0 <= offset -> 0 <= length ->
    offset + length <= Z.of_nat (List.length func) -> 0 <= i ->
    Tokenize fuel func offset length i scanEvaluated tokenized st =
      (Ok (tokens, scanEvaluated'), st') ->
    Z.of_nat (List.length tokens) <=
      Z.of_nat (List.length tokenized) + Z.max 0 (offset + length - i).
Proof.
  assert (Hsize : Z.of_nat (List.length func) < 2 ^ SIZE_WIDTH - 2)
    by (change (2 ^ SIZE_WIDTH) with (4 * 2 ^ 62); lia).
  induction fuel as [|fuel IH];
    intros offset length i scanEvaluated tokenized st tokens scanEvaluated' st'
      Hoffset Hlength Hend Hi; [discriminate|].
  rewrite Tokenize_S. unfold Tokenize_body, sz_add, sz_sub.
  rewrite (size_t_func (offset + length)), (size_t_func (length + offset)) by lia.
  destruct (i <? offset + length) eqn:E; [|intros [= <- _ _]; lia].
  apply Z.ltb_lt in E. rewrite size_t_func by lia.
  intros ([token i'] & st1 & Hscan & Hrun)%bindM_Ok_inv.
  assert (Hi' : i < i' <= Z.of_nat (List.length func)).
  { destruct scanEvaluated.
    - apply ScanEvaluated_progress in Hscan; lia.
    - apply liftM_Ok_inv in Hscan as [Hscan _].
      apply ScanOperator_progress in Hscan; [lia|exact Hsize]. }
  apply IH in Hrun; [|lia..]. rewrite length_app in Hrun. simpl in Hrun. lia.
Qed.

Lemma in_fuel_liftM {A} (m : Outcome A) st : in_fuel m -> in_fuel (liftM m st).1.
Proof. intros Hm. exact Hm. Qed.

Lemma parser_in_fuel fuel :
  (forall offset length st,
      0 <= offset -> 0 <= length ->
      offset + length <= Z.of_nat (List.length func) ->
      4 * length + 2 <= Z.of_nat fuel ->
      in_fuel (ParsePart fuel func offset length st).1)
  /\ (forall offset length st,
        1 <= length <= Z.of_nat (List.length func) ->
        4 * length <= Z.of_nat fuel
        \/ (char_at func offset = Ok "("%char /\ 4 * length - 1 <= Z.of_nat fuel) ->
        in_fuel (ScanEvaluated fuel func offset length st).1)
  /\ (forall offset length i scanEvaluated tokenized st,
        0 <= offset -> 0 <= length ->
        offset + length <= Z.of_nat (List.length func) -> 0 <= i ->
        1 <= Z.of_nat fuel -> 4 * (offset + length - i) + 1 <= Z.of_nat fuel ->
        in_fuel (Tokenize fuel func offset length i scanEvaluated tokenized st).1).
Proof.
  assert (Hsize : Z.of_nat (List.length func) < 2 ^ SIZE_WIDTH - 2)
    by (change (2 ^ SIZE_WIDTH) with (4 * 2 ^ 62); lia).
  induction fuel as [|fuel (IHP & IHS & IHT)].
  { split; [|split]; intros; lia. }
  rewrite Nat2Z.inj_succ. split; [|split].
  - intros offset length st Hoffset Hlength Hend Hfuel.
    rewrite ParsePart_S. unfold ParsePart_body.
    destruct (length =? 0); [fuel_done|].
    apply in_fuel_bindM; [apply IHT; lia|].
    intros [tokens scanEvaluated] st1 Htokens.
    destruct scanEvaluated; [fuel_done|].
    destruct (bool_decide _); [fuel_done|].
    apply Tokenize_length in Htokens; [|lia..]. simpl in Htokens.
    apply in_fuel_bindM; [apply in_fuel_liftM, in_fuel_Reduce; lia|].
    intros [v count] st2 _. destruct (negb _); [fuel_done|].
    apply in_fuel_liftM, in_fuel_vec_at.
  - intros offset length st Hlength Hfuel.
    rewrite ScanEvaluated_S. unfold ScanEvaluated_body.
    apply in_fuel_bindM; [apply in_fuel_liftM, in_fuel_char_at|].
    intros ch st1 [Hch ->]%liftM_Ok_inv.
    destruct (char_eqb "(" ch) eqn:Hparen.
    + apply char_eqb_eq in Hparen. subst ch.
      apply char_at_Ok_lt in Hch; [|discriminate].
      unfold sz_add at 1 2 3. rewrite (size_t_func (offset + 1)) by lia.
      apply in_fuel_bindM;
        [apply in_fuel_liftM, in_fuel_CountBetweenBraces_loop|].
      intros bracedLength st2 [Hbraces ->]%liftM_Ok_inv.
      apply CountBetweenBraces_Ok in Hbraces;
        [|lia|lia|lia|change (2 ^ SIZE_WIDTH) with (4 * 2 ^ 62); lia].
      apply in_fuel_bindM; [apply IHP; lia|]. intros; fuel_done.
    + assert (Hfuel' : 4 * length <= Z.succ (Z.of_nat fuel)).
      { destruct Hfuel as [Hfuel|[Hopen _]]; [exact Hfuel|].
        rewrite Hch in Hopen. injection Hopen as ->. discriminate. }
      destruct (IsLetter ch).
      * apply in_fuel_bindM; [apply in_fuel_liftM, in_fuel_ptr_add|].
        intros start st2 _.
        apply in_fuel_bindM; [apply in_fuel_liftM, in_fuel_char_at|].
        intros next st3 [Hnext ->]%liftM_Ok_inv.
        destruct (char_eqb next "(") eqn:Hnextparen.
        -- apply char_eqb_eq in Hnextparen. subst next.
           apply in_fuel_bindM; [apply in_fuel_GetFunctionNameApplyPrecision|].
           intros n st4 _.
           apply in_fuel_bindM; [apply IHS; [exact Hlength|right; split; [exact Hnext|lia]]|].
           intros [param offset2] st5 _. fuel_done.
        -- apply in_fuel_bindM; [apply in_fuel_ScanVariable|]. intros; fuel_done.
      * destruct (IsNumberPart ch); [|fuel_done].
        apply in_fuel_bindM; [apply in_fuel_liftM, in_fuel_ScanNumber|].
        intros [num offset2] st2 _. fuel_done.
  - intros offset length i scanEvaluated tokenized st Hoffset Hlength Hend Hi
      Hone Hfuel.
    rewrite Tokenize_S. unfold Tokenize_body, sz_add, sz_sub.
    rewrite (size_t_func (offset + length)), (size_t_func (length + offset)) by lia.
    destruct (i <? offset + length) eqn:E; [|fuel_done].
    apply Z.ltb_lt in E. rewrite size_t_func by lia.
    apply in_fuel_bindM.
    + destruct scanEvaluated; [apply IHS; lia|apply in_fuel_liftM, in_fuel_ScanOperator].
    + intros [token i'] st1 Hscan.
      assert (Hi' : i < i' <= Z.of_nat (List.length func)).
      { destruct scanEvaluated.
        - apply ScanEvaluated_progress in Hscan; lia.
        - apply liftM_Ok_inv in Hscan as [Hscan _].
          apply ScanOperator_progress in Hscan; [lia|exact Hsize]. }
      apply IHT; lia.
Qed.

End Fuel.

Lemma StripWhitespace_length function :
  (length (StripWhitespace function) <= String.length function)%nat.
Proof.
  induction function as [|ch function IH]; simpl; [lia|].
  destruct (char_eqb ch NUL); [simpl; lia|].
  destruct (negb (isspace ch)); simpl; lia.
Qed.

(** X1: [Parse] comes to an end on every text shorter than [2^62]
    characters: each turn of the token loop moves the offset forward, so
    the counter of the model, four steps for a character, never runs out. *)
Lemma Parse_in_fuel (function : string) (st : FunctionParser) :
  Z.of_nat (String.length function) < 2 ^ 62 ->
  (Parse function st).1 <> OutOfFuel.
Proof.
  intros Hsize. pose proof (StripWhitespace_length function) as Hstrip.
  rewrite Parse_unfold. cbv zeta.
  set (input := StripWhitespace function) in *.
  assert (Hinput : Z.of_nat (length input) < 2 ^ 62) by lia.
  pose proof (proj1 (parser_in_fuel input Hinput (ParseFuel input)) 0
                (Z.of_nat (length input)) FunctionParser_new) as Hrun.
  destruct (ParsePart _ _ _ _ _) as [[output| | |] st1]; simpl in *;
    try discriminate.
  exfalso. apply Hrun; [lia|lia|lia| |reflexivity].
  unfold ParseFuel. lia.
Qed.

Lemma Parse_in_fuel_witness : (Parse "sin(z)*(c+2)" FunctionParser_new).1 <> OutOfFuel.
Proof. apply Parse_in_fuel. vm_compute. reflexivity. Defined.

(** ** Precision capability (C4) *)

(** *** Functions in the tree and the precision *)

(** A token that goes with the precision of [st] goes with the precision of
    every later state of the scan. *)
Lemma tracked_extends func st st' token :
  session_extends func st st' -> tracked st token -> tracked st' token.
Proof.
  intros [_ _ _ [Hsame|Hsingle] _] Htoken e He Huses; [|exact Hsingle].
  rewrite Hsame. eapply Htoken; eauto.
Qed.

Lemma tracked_None st : tracked st None.
Proof. intros e [=]. Qed.

Lemma vec_at_Forall {A} (P : A -> Prop) (v : list A) k x :
  Forall P v -> vec_at v k = Ok x -> P x.
Proof.
  unfold vec_at. destruct (k <? 0); [discriminate|].
  destruct (v !! Z.to_nat k) eqn:Hk; [|discriminate].
  intros Hall [= <-]. eapply Forall_lookup_1; eauto.
Qed.

Lemma vec_set_Forall {A} (P : A -> Prop) (v : list A) k x :
  Forall P v -> P x -> Forall P (vec_set v k x).
Proof. intros Hall Hx. apply Forall_insert; assumption. Qed.

Lemma operator_at_Some precedence e name opPrecedence :
  operator_at precedence e = Some (name, opPrecedence) ->
  exists params0 params1, e = Operator name params0 params1 opPrecedence.
Proof.
  destruct e as [| | |name' p0 p1 prec]; simpl; try discriminate.
  destruct (prec =? precedence); [|discriminate]. intros [= <- <-]. eauto.
Qed.

(** A pass of the reducer builds its operators from tokens of the vector, so
    it keeps the tokens in line with the precision. *)
Lemma ReducePass_tracked st n precedence :
  forall v tokenCount storeIdx readIdx v' count,
    Forall (tracked st) v ->
    ReducePass n precedence v tokenCount storeIdx readIdx = Ok (v', count) ->
    Forall (tracked st) v'.
Proof.
  induction n as [|n IH]; intros v tokenCount storeIdx readIdx v' count Hall;
    cbn [ReducePass].
  - destruct (readIdx <? tokenCount); [discriminate|]. intros [= <- _]. exact Hall.
  - destruct (readIdx <? tokenCount); [|intros [= <- _]; exact Hall].
    destruct (vec_at v readIdx) as [[e|]| | |] eqn:Htok; cbn [bindO];
      try discriminate.
    pose proof (vec_at_Forall _ _ _ _ Hall Htok) as He.
    destruct (operator_at precedence e) as [[name opPrecedence]|] eqn:Hop.
    + destruct (negb _); [discriminate|].
      destruct (vec_at v (sz_sub storeIdx 1)) as [lhs| | |] eqn:Hlhs; cbn [bindO];
        try discriminate.
      pose proof (vec_at_Forall _ _ _ _ Hall Hlhs) as Hl.
      destruct (vec_at _ (sz_add readIdx 1)) as [rhs| | |] eqn:Hrhs; cbn [bindO];
        try discriminate.
      assert (Hr : tracked st rhs).
      { eapply vec_at_Forall; [|exact Hrhs].
        apply vec_set_Forall; [exact Hall|apply tracked_None]. }
      apply IH. repeat apply vec_set_Forall; try exact Hall; try apply tracked_None.
      intros op [= <-] Huses. simpl in Huses.
      apply orb_true_iff in Huses as [Huses|Huses].
      * destruct lhs as [lhs|]; [|discriminate]. eapply Hl; eauto.
      * destruct rhs as [rhs|]; [|discriminate]. eapply Hr; eauto.
    + apply IH. destruct (negb _); [|exact Hall].
      repeat apply vec_set_Forall; try exact Hall; try apply tracked_None.
      exact He.
Qed.

Lemma Reduce_tracked st v v' count :
  Forall (tracked st) v -> Reduce v = Ok (v', count) -> Forall (tracked st) v'.
Proof.
  intros Hall. unfold Reduce. cbv zeta.
  destruct (ReducePass _ 2 _ _ _ _) as [[v2 c2]| | |] eqn:H2; cbn [bindO];
    try discriminate.
  apply (ReducePass_tracked st) in H2; [|exact Hall].
  destruct (ReducePass _ 1 _ _ _ _) as [[v1 c1]| | |] eqn:H1; cbn [bindO];
    try discriminate.
  apply (ReducePass_tracked st) in H1; [|exact H2].
  intros H0. apply (ReducePass_tracked st) in H0; [exact H0|exact H1].
Qed.

(** Variables, constants and bare operators have no function in them. *)
Lemma ScanVariable_plain name offset st funcElem st' :
  ScanVariable name offset st = (Ok funcElem, st') ->
  uses_full_precision funcElem = false.
Proof.
  unfold ScanVariable.
  destruct (String.eqb _ "i"); [intros [= <- _]; reflexivity|].
  destruct (String.eqb _ "c"); [intros [= <- _]; reflexivity|].
  destruct (char_eqb _ "z"); [|discriminate].
  destruct (_ || _); [discriminate|].
  intros (index & st1 & _ & [= <- _])%bindM_Ok_inv. reflexivity.
Qed.

Lemma ScanOperator_plain func offset token offset' :
  ScanOperator func offset = Ok (token, offset') ->
  forall st, tracked st token.
Proof.
  unfold ScanOperator.
  destruct (char_at func offset) as [ch| | |]; cbn [bindO]; try discriminate.
  repeat (destruct (char_eqb ch _);
          [intros [= <- _] st e [= <-]; discriminate|]).
  discriminate.
Qed.

(** Every token the parser returns is in line with the precision of the
    state it returns: a [Function] node is built only after
    [GetFunctionNameApplyPrecision] has resolved its name. *)
Lemma tracked_parser func fuel :
  (forall offset length st output st',
      ParsePart fuel func offset length st = (Ok output, st') ->
      tracked st' output)
  /\ (forall offset length st token offset' st',
        ScanEvaluated fuel func offset length st = (Ok (token, offset'), st') ->
        tracked st' token)
  /\ (forall offset length i scanEvaluated tokenized st tokens scanEvaluated' st',
        Tokenize fuel func offset length i scanEvaluated tokenized st =
          (Ok (tokens, scanEvaluated'), st') ->
        Forall (tracked st) tokenized -> Forall (tracked st') tokens).
Proof.
  induction fuel as [|fuel (IHP & IHS & IHT)]; [split; [|split]; discriminate|].
  split; [|split].
  - intros offset length st output st'. rewrite ParsePart_S. unfold ParsePart_body.
    destruct (length =? 0); [discriminate|].
    intros ([tokens scanEvaluated] & st1 & Htokens & Hrun)%bindM_Ok_inv.
    apply IHT in Htokens; [|constructor].
    destruct scanEvaluated; [discriminate|].
    destruct (bool_decide _); [discriminate|].
    apply bindM_Ok_inv in Hrun as ([v count] & st2 & [Hreduce ->]%liftM_Ok_inv & Hrun).
    apply (Reduce_tracked st1) in Hreduce; [|exact Htokens].
    destruct (negb _); [discriminate|].
    apply liftM_Ok_inv in Hrun as [Hout ->].
    eapply vec_at_Forall; eauto.
  - intros offset length st token offset' st'.
    rewrite ScanEvaluated_S. unfold ScanEvaluated_body.
    intros (ch & st1 & [_ ->]%liftM_Ok_inv & Hrun)%bindM_Ok_inv.
    destruct (char_eqb "(" ch).
    { apply bindM_Ok_inv in Hrun as (bracedLength & st2 & [_ ->]%liftM_Ok_inv & Hrun).
      apply bindM_Ok_inv in Hrun as (inner & st3 & Hinner & [= <- _ <-]).
      eapply IHP, Hinner. }
    destruct (IsLetter ch).
    + apply bindM_Ok_inv in Hrun as (start & st2 & [_ ->]%liftM_Ok_inv & Hrun).
      apply bindM_Ok_inv in Hrun as (next & st3 & [_ ->]%liftM_Ok_inv & Hrun).
      destruct (char_eqb next "(").
      * apply bindM_Ok_inv in Hrun as (n & st4 & Hname & Hrun).
        apply bindM_Ok_inv in Hrun as ([param offset2] & st5 & Hinner & [= <- _ <-]).
        pose proof (proj1 (proj2 (preserves_parser func fuel)) _ _ _ _ _ Hinner)
          as Hext.
        apply IHS in Hinner.
        pose proof (GetFunctionNameApplyPrecision_step
                      (string_of_list_ascii
                         (take (Z.to_nat (CountNameLength start (sz_sub length offset)))
                            start))
                      (sz_add offset (CountNameLength start (sz_sub length offset)))
                      st) as Hstep.
        rewrite Hname in Hstep. destruct Hstep as (_ & _ & Hst4).
        intros e [= <-] Huses. simpl in Huses.
        apply orb_true_iff in Huses as [Huses|Huses].
        -- rewrite Huses in Hst4.
           assert (Hsingle : m_supportedPrecision st4 = Single).
           { rewrite Hst4. destruct (m_supportedPrecision st) eqn:Hp; simpl; auto. }
           destruct Hext as [_ _ _ [Hsame|Hdown] _]; congruence.
        -- destruct param as [param|]; [|discriminate]. eapply Hinner; eauto.
      * apply bindM_Ok_inv in Hrun as (elem & st4 & Hvar & [= <- _ <-]).
        apply ScanVariable_plain in Hvar. intros e [= <-] Huses. congruence.
    + destruct (IsNumberPart ch); [|discriminate].
      apply bindM_Ok_inv in Hrun as ([num offset2] & st2 & _ & [= <- _ <-]).
      intros e [= <-]. discriminate.
  - intros offset length i scanEvaluated tokenized st tokens scanEvaluated' st'.
    rewrite Tokenize_S. unfold Tokenize_body.
    destruct (i <? sz_add offset length); [|intros [= <- _ <-] Hall; exact Hall].
    intros ([token i'] & st1 & Hscan & Hrun)%bindM_Ok_inv Hall.
    eapply IHT; [exact Hrun|]. apply Forall_app. split.
    + destruct scanEvaluated.
      * pose proof (proj1 (proj2 (preserves_parser func fuel)) _ _ _ _ _ Hscan)
          as Hext.
        eapply Forall_impl; [exact Hall|]. intros tok. apply (tracked_extends func), Hext.
      * apply liftM_Ok_inv in Hscan as [_ ->]. exact Hall.
    + constructor; [|constructor]. destruct scanEvaluated.
      * eapply IHS, Hscan.
      * apply liftM_Ok_inv in Hscan as [Hscan _].
        eapply ScanOperator_plain, Hscan.
Qed.

(** The stored root of a successful parse is in line with the stored
    precision. *)
Lemma Parse_tracked function st st' root :
  Parse function st = (Ok tt, st') ->
  PseudoCode st' = Some root ->
  uses_full_precision root = true ->
  SupportedPrecision st' = Single.
Proof.
  rewrite Parse_unfold. cbv zeta.
  destruct (ParsePart _ _ _ _ _) as [[output| | |] st1] eqn:Hrun; try discriminate.
  apply (proj1 (tracked_parser _ _)) in Hrun.
  intros [= <-]. unfold PseudoCode, SupportedPrecision. simpl.
  intros Hroot Huses. eapply Hrun; eauto.
Qed.

(** C4, counterexample: [ang] is not one of the functions that leave the
    precision alone; parsing [ang(z)] succeeds and ends at [Single]. *)
Lemma Parse_ang_downgrades :
  Parse "ang(z)" FunctionParser_new =
    (Ok tt,
     mkFunctionParser {[ 0 ]} Single "ang(z)"
       (Some (Function FunctionName.ang (Some (Variable' 0)))))
  /\ SupportedPrecision (Parse "ang(z)" FunctionParser_new).2 <> Extended.
Proof. split; [vm_compute; reflexivity|vm_compute; discriminate]. Qed.

(** C4, amended: every parse starts from [Extended]; a function name
    resolved during the parse leaves the precision as it is when it is
    [pos], [re] or [im] and sets it to [Single] otherwise ([ang] included);
    nothing else writes the precision, so it ends at [Extended] or [Single],
    at [Extended] whenever the cleaned text mentions none of the other ten
    names, and at [Single] whenever the stored tree has a function other
    than [pos], [re], [im].  [sin(z)] ends at [Single], [re(z)+im(c)] at
    [Extended]. *)
Theorem SupportedPrecision_tracking (function : string) (st st' : FunctionParser)
    (r : Outcome unit) (HParse : Parse function st = (r, st')) :
  SupportedPrecision (Clear st).2 = Extended
  /\ (SupportedPrecision st' = Extended \/ SupportedPrecision st' = Single)
  /\ (mentions_full_precision (StripWhitespace function) = false ->
      SupportedPrecision st' = Extended)
  /\ (forall root,
        r = Ok tt -> PseudoCode st' = Some root ->
        uses_full_precision root = true -> SupportedPrecision st' = Single)
  /\ (forall name offset s n s',
        GetFunctionNameApplyPrecision name offset s = (Ok n, s') ->
        SupportedPrecision s' =
          if needs_full_precision n then Single else SupportedPrecision s)
  /\ (forall fuel func offset length s output s',
        ParsePart fuel func offset length s = (output, s') ->
        SupportedPrecision s = Single -> SupportedPrecision s' = Single)
  /\ SupportedPrecision (Parse "sin(z)" st).2 = Single
  /\ SupportedPrecision (Parse "re(z)+im(c)" st).2 = Extended.
Proof.
  split; [reflexivity|].
  assert (Hend : (SupportedPrecision st' = Extended \/ SupportedPrecision st' = Single)
                 /\ (mentions_full_precision (StripWhitespace function) = false ->
                     SupportedPrecision st' = Extended)).
  { rewrite Parse_unfold in HParse. cbv zeta in HParse.
    destruct (ParsePart _ _ _ _ _) as [out st1] eqn:E.
    destruct (preserves_ParsePart _ _ _ _ _ _ _ E) as [_ _ _ Hs Hq].
    assert (Hst : SupportedPrecision st' = SupportedPrecision st1)
      by (destruct out; injection HParse as _ <-; reflexivity).
    rewrite Hst. unfold SupportedPrecision. simpl in *. split; [exact Hs|].
    intros Hquiet. apply Hq, Hquiet. }
  destruct Hend as [Hrange Hquiet].
  split; [exact Hrange|]. split; [exact Hquiet|]. split.
  { intros root ->. exact (Parse_tracked function st st' root HParse). }
  split.
  - intros name offset s n s' Hcall.
    pose proof (GetFunctionNameApplyPrecision_step name offset s) as Hstep.
    rewrite Hcall in Hstep. destruct Hstep as (_ & _ & ->).
    unfold SupportedPrecision.
    destruct (needs_full_precision n); [|reflexivity].
    destruct (m_supportedPrecision s) eqn:Hp; simpl; auto.
  - split.
    + intros fuel func offset length s output s' Hrun Hsingle.
      destruct (preserves_ParsePart _ _ _ _ _ _ _ Hrun) as [_ _ _ [Hs|Hs] _];
        unfold SupportedPrecision in *; congruence.
    + split; vm_compute; reflexivity.
Qed.

Lemma SupportedPrecision_tracking_witness :
  Parse "pos(z)*re(z)-im(c)" FunctionParser_new =
    (Ok tt,
     mkFunctionParser {[ 0; -1 ]} Extended "pos(z)*re(z)-im(c)"
       (binary OperatorName.sub 0
          (binary OperatorName.mul 1
             (Some (Function FunctionName.pos (Some (Variable' 0))))
             (Some (Function FunctionName.re (Some (Variable' 0)))))
          (Some (Function FunctionName.im (Some (Variable' (-1)))))))
  /\ mentions_full_precision (StripWhitespace "pos(z)*re(z)-im(c)") = false
  /\ SupportedPrecision (Parse "pos(z)*re(z)-im(c)" FunctionParser_new).2 = Extended.
Proof.
  split; [vm_compute; reflexivity|]. split; [vm_compute; reflexivity|].
  destruct (SupportedPrecision_tracking "pos(z)*re(z)-im(c)" FunctionParser_new
              (Parse "pos(z)*re(z)-im(c)" FunctionParser_new).2
              (Parse "pos(z)*re(z)-im(c)" FunctionParser_new).1)
    as (_ & _ & Hquiet & _).
  - apply surjective_pairing.
  - apply Hquiet. vm_compute; reflexivity.
Defined.

(** ** Associativity and precedence (C5) *)

(** C5, counterexample: with [pow] computed as [exp(y * log(x))] in double
    precision, [2^3^2] evaluates to 63.99999999999998 and not to 64; and a
    parenthesised operand that is itself an operator of the tier is not
    folded: [(2^3)^2] and [(1+2)+3] throw EmptyFunction. *)
Lemma pow_of_pow_is_not_64 :
  evaluate exp_log_library "2^3^2" [] = Ok (complex 0x1.ffffffffffffdp+5 0)
  /\ evaluate exp_log_library "2^3^2" [] <> Ok (complex 64 0)
  /\ (Parse "(2^3)^2" FunctionParser_new).1
     = Throw (FuncParseExcept FuncParseExcept.EmptyFunction 0)
  /\ (Parse "(1+2)+3" FunctionParser_new).1
     = Throw (FuncParseExcept FuncParseExcept.EmptyFunction 0).
Proof.
  split; [vm_compute; reflexivity|]. split.
  - intros Hvalue. apply (f_equal (returns_real 64)) in Hvalue.
    vm_compute in Hvalue. discriminate Hvalue.
  - destruct (Reduce_rereads_parenthesised FunctionParser_new)
      as (Hpow & Hadd & _).
    split; [exact Hpow|exact Hadd].
Qed.

(** C5, amended: the three passes of the reducer, tiers 2, 1, 0, compute
    the three left-to-right folds of the description on every token
    sequence, and a sequence of operators of one tier (pow included) whose
    operands are no operator nodes ends as the left-nested tree.  [2^3^2]
    parses to pow(pow(2, 3), 2) and evaluates to what [std::pow] returns
    for the inner power first, [pow(pow(2, 3), 2)]; [1+2*3] parses to
    add(1, mul(2, 3)) and evaluates to 7. *)
Theorem pow_folds_to_the_left (lib : StdComplex) (st : FunctionParser) :
  Parse "2^3^2" st =
    (Ok tt,
     mkFunctionParser ∅ Extended "2^3^2"
       (binary OperatorName.pow 2
          (binary OperatorName.pow 2 (const 2) (const 3)) (const 2)))
  /\ evaluate lib "2^3^2" [] =
       Ok (std_pow lib (std_pow lib (complex 2 0) (complex 3 0)) (complex 2 0))
  /\ Parse "1+2*3" st =
       (Ok tt,
        mkFunctionParser ∅ Extended "1+2*3"
          (binary OperatorName.add 0 (const 1)
             (binary OperatorName.mul 1 (const 2) (const 3))))
  /\ evaluate lib "1+2*3" [] = Ok (complex 7 0)
  /\ (forall tokens : list FuncElem,
        Z.of_nat (length tokens) < 2 ^ SIZE_WIDTH ->
        match three_passes tokens with
        | Ok l =>
            exists v,
              Reduce (Some <$> tokens) = Ok (v, Z.of_nat (length l)) /\ holds v l
        | Throw e => Reduce (Some <$> tokens) = Throw e
        | _ => False
        end)
  /\ (forall p first tail,
        p = 0 \/ p = 1 \/ p = 2 ->
        is_operand first = true ->
        Forall (fun step => is_operand step.2 = true) tail ->
        Z.of_nat (length (first :: chain p tail)) < 2 ^ SIZE_WIDTH ->
        exists v,
          Reduce (Some <$> first :: chain p tail) = Ok (v, 1)
          /\ vec_at v 0 = Ok (Some (fold_chain p first tail))).
Proof.
  split; [vm_compute; reflexivity|]. split; [vm_compute; reflexivity|].
  split; [vm_compute; reflexivity|]. split; [vm_compute; reflexivity|].
  split; [exact Reduce_refines|exact Reduce_chain].
Qed.

Lemma pow_folds_to_the_left_witness :
  exists v,
    Reduce (Some <$> Constant (complex 2 0)
              :: chain 2 [(OperatorName.pow, Constant (complex 3 0));
                          (OperatorName.pow, Variable' 0)])
      = Ok (v, 1)
    /\ vec_at v 0 =
         Ok (Some (Operator OperatorName.pow
                     (Some (Operator OperatorName.pow
                              (Some (Constant (complex 2 0)))
                              (Some (Constant (complex 3 0))) 2))
                     (Some (Variable' 0)) 2)).
Proof.
  destruct (pow_folds_to_the_left exp_log_library FunctionParser_new)
    as (_ & _ & _ & _ & _ & Hchain).
  apply (Hchain 2 (Constant (complex 2 0))
           [(OperatorName.pow, Constant (complex 3 0));
            (OperatorName.pow, Variable' 0)]);
    [right; right; reflexivity|reflexivity
    |repeat constructor|vm_compute; reflexivity].
Defined.

(** * Further properties of the code *)

(** ** The tree of an accepted text *)

(** *** The reducer keeps the operands whole *)

Lemma sound_mono used used' e : used ⊆ used' -> sound used e -> sound used' e.
Proof. intros Hsub [Hv Ht]. split; [etrans; eassumption|exact Ht]. Qed.

Lemma alternating_mono used used' l : forall operand,
  used ⊆ used' -> alternating used operand l -> alternating used' operand l.
Proof.
  induction l as [|x l IH]; intros operand Hsub; simpl; [auto|].
  intros (Hx & Hc & Hl). eauto using sound_mono.
Qed.

Lemma alternating_app used l1 : forall operand l2,
  alternating used operand (l1 ++ l2) <->
  alternating used operand l1
  /\ alternating used (if Nat.even (length l1) then operand else negb operand) l2.
Proof.
  induction l1 as [|x l1 IH]; intros operand l2.
  - simpl. tauto.
  - cbn [app alternating length]. rewrite IH, Nat.even_succ, <- Nat.negb_even.
    destruct (Nat.even (length l1)); simpl; rewrite ?negb_involutive; tauto.
Qed.

Lemma compaction_pass_alternating used precedence pending : forall reduced l,
  compaction_pass precedence reduced pending = Ok l ->
  alternating used true (rev reduced ++ pending) ->
  alternating used true l.
Proof.
  induction pending as [pending IH] using (induction_ltof1 _ (@length _)).
  unfold ltof in IH. intros reduced l.
  destruct pending as [|tok pending]; cbn [compaction_pass].
  { intros [= <-]. rewrite app_nil_r. auto. }
  destruct (operator_at precedence tok) as [[name opPrecedence]|] eqn:Hop.
  - destruct reduced as [|lhs reduced]; [discriminate|].
    destruct pending as [|rhs pending]; [discriminate|].
    intros Hrun Hall. apply (IH pending ltac:(simpl; lia) _ _ Hrun). clear IH Hrun.
    apply operator_at_Some in Hop as (p0 & p1 & ->).
    cbn [rev] in *. rewrite <- app_assoc in *. cbn [app] in *.
    apply alternating_app in Hall as [Hreduced Hrest].
    apply alternating_app. split; [exact Hreduced|].
    cbn [alternating] in *. rewrite negb_involutive in Hrest.
    destruct Hrest as ([Hlv Hlt] & Hlc & [Htv Htt] & _ & [Hrv Hrt] & Hrc & Hrest).
    split; [|split; [|exact Hrest]].
    + split; [simpl; apply union_least; assumption|].
      simpl in Htt |- *. apply andb_true_iff in Htt as [Htt _].
      apply andb_true_iff in Htt as [Htt _]. rewrite Htt, Hlt, Hrt. reflexivity.
    + intros Hoperand. simpl. rewrite Hlc, Hrc by exact Hoperand. reflexivity.
  - intros Hrun Hall. apply (IH pending ltac:(simpl; lia) _ _ Hrun).
    cbn [rev]. rewrite <- app_assoc. exact Hall.
Qed.

Lemma three_passes_alternating used tokens l :
  three_passes tokens = Ok l ->
  alternating used true tokens -> alternating used true l.
Proof.
  unfold three_passes. intros Hrun Hall.
  destruct (compaction_pass 2 [] tokens) as [l2| | |] eqn:H2; try discriminate.
  apply (compaction_pass_alternating used) in H2; [|exact Hall].
  cbn [bindO] in Hrun.
  destruct (compaction_pass 1 [] l2) as [l1| | |] eqn:H1; try discriminate.
  apply (compaction_pass_alternating used) in H1; [|exact H2].
  cbn [bindO] in Hrun.
  apply (compaction_pass_alternating used) in Hrun; [exact Hrun|exact H1].
Qed.

(** The root that [ParsePart] returns after the three passes. *)
Lemma Reduce_root used tokens v output :
  Z.of_nat (length tokens) < 2 ^ SIZE_WIDTH ->
  alternating used true tokens ->
  Reduce (Some <$> tokens) = Ok (v, 1) ->
  vec_at v 0 = Ok output ->
  exists root, output = Some root /\ sound used root /\ complete root = true.
Proof.
  intros Hsize Hall Hrun Hroot.
  pose proof (Reduce_refines tokens Hsize) as Href.
  destruct (three_passes tokens) as [l| | |] eqn:Hpasses; try contradiction.
  - destruct Href as (v0 & Hrun0 & Hholds).
    rewrite Hrun in Hrun0. injection Hrun0 as <- Hlen.
    destruct l as [|root [|? ?]]; simpl in Hlen; try lia.
    apply (three_passes_alternating used) in Hpasses; [|exact Hall].
    destruct Hpasses as (Hsound & Hcomplete & _).
    exists root. split; [|auto].
    pose proof (vec_at_nat v 0 (Some root) (Hholds 0%nat root eq_refl)) as Hat.
    change (Z.of_nat 0) with 0 in Hat. congruence.
  - congruence.
Qed.

(** *** What the scanners put in the vector *)

Lemma ScanVariable_sound name offset st funcElem st' :
  ScanVariable name offset st = (Ok funcElem, st') ->
  sound (m_usedVariables st') funcElem /\ complete funcElem = true
  /\ m_usedVariables st ⊆ m_usedVariables st'.
Proof.
  unfold ScanVariable.
  destruct (String.eqb _ "i").
  { intros [= <- <-]. repeat split; simpl; [apply empty_subseteq|reflexivity]. }
  destruct (String.eqb _ "c").
  { intros [= <- <-]. repeat split; simpl; [apply union_subseteq_l|apply union_subseteq_r]. }
  destruct (char_eqb _ "z"); [|discriminate].
  destruct (_ || _); [discriminate|].
  intros (index & st1 & [_ ->]%liftM_Ok_inv & [= <- <-])%bindM_Ok_inv.
  repeat split; simpl; [apply union_subseteq_l|apply union_subseteq_r].
Qed.

Lemma ScanOperator_sound func offset token offset' used :
  ScanOperator func offset = Ok (token, offset') ->
  exists e, token = Some e /\ sound used e.
Proof.
  unfold ScanOperator.
  destruct (char_at func offset) as [ch| | |]; cbn [bindO]; try discriminate.
  repeat (destruct (char_eqb ch _);
          [intros [= <- _]; eexists; split; [reflexivity|];
           split; [apply empty_subseteq|reflexivity]|]).
  discriminate.
Qed.

Lemma GetFunctionNameApplyPrecision_usedVariables name offset st r st' :
  GetFunctionNameApplyPrecision name offset st = (r, st') ->
  m_usedVariables st' = m_usedVariables st.
Proof.
  unfold GetFunctionNameApplyPrecision.
  destruct (find_name _ _ _) as [i|]; [|intros [= _ <-]; reflexivity].
  destruct (FunctionName.of_index i) as [n|]; [|intros [= _ <-]; reflexivity].
  intros [= _ <-]. destruct (negb _); [|reflexivity]. destruct n; reflexivity.
Qed.

Section WellFormed.
Variable func : list ascii.
Hypothesis Hfunc : Z.of_nat (length func) < 2 ^ 62.

(** Every operand the parser returns is whole, and its variables are among
    the used ones. *)
Lemma parser_well_formed fuel :
  (forall offset length st output st',
      0 <= offset -> 0 <= length ->
      offset + length <= Z.of_nat (List.length func) ->
      ParsePart fuel func offset length st = (Ok output, st') ->
      exists root, output = Some root
        /\ sound (m_usedVariables st') root /\ complete root = true)
  /\ (forall offset length st token offset' st',
        0 <= length <= Z.of_nat (List.length func) ->
        ScanEvaluated fuel func offset length st = (Ok (token, offset'), st') ->
        exists e, token = Some e
          /\ sound (m_usedVariables st') e /\ complete e = true)
  /\ (forall offset length i scanEvaluated tokenized st tokens scanEvaluated' st' l,
        0 <= offset -> 0 <= length ->
        offset + length <= Z.of_nat (List.length func) -> 0 <= i ->
        Tokenize fuel func offset length i scanEvaluated tokenized st =
          (Ok (tokens, scanEvaluated'), st') ->
        tokenized = Some <$> l ->
        alternating (m_usedVariables st) true l ->
        scanEvaluated = Nat.even (List.length l) ->
        exists l', tokens = Some <$> l'
          /\ alternating (m_usedVariables st') true l').
Proof.
  assert (Hsize : Z.of_nat (List.length func) < 2 ^ SIZE_WIDTH - 2)
    by (change (2 ^ SIZE_WIDTH) with (4 * 2 ^ 62); lia).
  induction fuel as [|fuel (IHP & IHS & IHT)]; [split; [|split]; discriminate|].
  split; [|split].
  - intros offset length st output st' Hoffset Hlength Hend.
    rewrite ParsePart_S. unfold ParsePart_body.
    destruct (length =? 0); [discriminate|].
    intros ([tokens scanEvaluated] & st1 & Htokens & Hrun)%bindM_Ok_inv.
    pose proof (Tokenize_length func Hfunc _ _ _ _ _ _ _ _ _ _
                  Hoffset Hlength Hend Hoffset Htokens) as Hcount.
    simpl in Hcount.
    apply (IHT _ _ _ _ _ _ _ _ _ []) in Htokens as (l & -> & Hall);
      [|lia|lia|lia|lia|reflexivity|exact I|reflexivity].
    destruct scanEvaluated; [discriminate|].
    destruct (bool_decide _); [discriminate|].
    apply bindM_Ok_inv in Hrun as ([v count] & st2 & [Hreduce ->]%liftM_Ok_inv & Hrun).
    destruct (1 =? count) eqn:Hone; [|discriminate]. apply Z.eqb_eq in Hone as <-.
    apply liftM_Ok_inv in Hrun as [Hroot ->].
    rewrite length_fmap in Hcount.
    eapply Reduce_root; eauto.
    change (2 ^ SIZE_WIDTH) with (4 * 2 ^ 62). lia.
  - intros offset length st token offset' st' Hlength.
    rewrite ScanEvaluated_S. unfold ScanEvaluated_body.
    intros (ch & st1 & [Hch ->]%liftM_Ok_inv & Hrun)%bindM_Ok_inv.
    pose proof (char_at_Ok _ _ _ Hch) as Hoffset.
    destruct (char_eqb "(" ch) eqn:Hparen.
    { apply char_eqb_eq in Hparen. subst ch.
      apply char_at_Ok_lt in Hch; [|discriminate].
      unfold sz_add at 1 2 in Hrun. rewrite (size_t_func func Hfunc (offset + 1)) in Hrun by lia.
      apply bindM_Ok_inv in Hrun as (bracedLength & st2 & [Hbraces ->]%liftM_Ok_inv & Hrun).
      apply CountBetweenBraces_Ok in Hbraces;
        [|lia|lia|lia|change (2 ^ SIZE_WIDTH) with (4 * 2 ^ 62); lia].
      apply bindM_Ok_inv in Hrun as (inner & st3 & Hinner & [= <- _ <-]).
      apply IHP in Hinner; [exact Hinner|lia..]. }
    destruct (IsLetter ch).
    + apply bindM_Ok_inv in Hrun as (start & st2 & [_ ->]%liftM_Ok_inv & Hrun).
      apply bindM_Ok_inv in Hrun as (next & st3 & [_ ->]%liftM_Ok_inv & Hrun).
      destruct (char_eqb next "(").
      * apply bindM_Ok_inv in Hrun as (n & st4 & Hname & Hrun).
        apply bindM_Ok_inv in Hrun as ([param offset2] & st5 & Hinner & [= <- _ <-]).
        apply IHS in Hinner as (e & -> & Hsound & Hcomplete); [|exact Hlength].
        exists (Function n (Some e)). split; [reflexivity|].
        split; [|exact Hcomplete]. destruct Hsound as [Hv Ht]. split; assumption.
      * apply bindM_Ok_inv in Hrun as (elem & st4 & Hvar & [= <- _ <-]).
        apply ScanVariable_sound in Hvar as (Hsound & Hcomplete & _). eauto.
    + destruct (IsNumberPart ch); [|discriminate].
      apply bindM_Ok_inv in Hrun as ([num offset2] & st2 & _ & [= <- _ <-]).
      eexists. split; [reflexivity|]. split; [|reflexivity].
      split; [apply empty_subseteq|reflexivity].
  - intros offset length i scanEvaluated tokenized st tokens scanEvaluated' st' l
      Hoffset Hlength Hend Hi.
    rewrite Tokenize_S. unfold Tokenize_body, sz_add, sz_sub.
    rewrite (size_t_func func Hfunc (offset + length)),
      (size_t_func func Hfunc (length + offset)) by lia.
    destruct (i <? offset + length) eqn:E.
    2:{ intros [= <- _ <-] -> Hall _. eauto. }
    apply Z.ltb_lt in E. rewrite (size_t_func func Hfunc) by lia.
    intros ([token i'] & st1 & Hscan & Hrun)%bindM_Ok_inv -> Hall ->.
    assert (Hi' : i < i' <= Z.of_nat (List.length func)).
    { destruct (Nat.even (List.length l)).
      - apply (ScanEvaluated_progress func Hfunc) in Hscan; lia.
      - apply liftM_Ok_inv in Hscan as [Hscan _].
        apply ScanOperator_progress in Hscan; [lia|exact Hsize]. }
    assert (Htoken : exists e, token = Some e
              /\ alternating (m_usedVariables st1) true (l ++ [e])).
    { destruct (Nat.even (List.length l)) eqn:Hparity.
      - pose proof (proj1 (proj2 (preserves_parser func fuel)) _ _ _ _ _ Hscan)
          as [_ _ Hsub _ _].
        apply IHS in Hscan as (e & -> & Hsound & Hcomplete); [|lia].
        exists e. split; [reflexivity|]. apply alternating_app.
        split; [eapply alternating_mono; eauto|].
        rewrite Hparity. simpl. auto.
      - apply liftM_Ok_inv in Hscan as [Hscan ->].
        apply (ScanOperator_sound _ _ _ _ (m_usedVariables st)) in Hscan
          as (e & -> & Hsound).
        exists e. split; [reflexivity|]. apply alternating_app.
        split; [exact Hall|]. rewrite Hparity. simpl. split; [exact Hsound|].
        split; [discriminate|exact I]. }
    destruct Htoken as (e & -> & Hall').
    apply (IHT _ _ _ _ _ _ _ _ _ (l ++ [e])) in Hrun; [exact Hrun|lia..| | |].
    + rewrite fmap_app. reflexivity.
    + exact Hall'.
    + rewrite length_app, Nat.add_1_r, Nat.even_succ, <- Nat.negb_even. reflexivity.
Qed.
End WellFormed.

(** The root of a successful [Parse]. *)
Lemma Parse_root function st st' :
  Z.of_nat (String.length function) < 2 ^ 62 ->
  Parse function st = (Ok tt, st') ->
  exists root,
    PseudoCode st' = Some root
    /\ sound (UsedVariables st') root /\ complete root = true.
Proof.
  intros Hsize. pose proof (StripWhitespace_length function) as Hstrip.
  rewrite Parse_unfold. cbv zeta.
  set (input := StripWhitespace function) in *.
  assert (Hinput : Z.of_nat (length input) < 2 ^ 62) by lia.
  destruct (ParsePart _ _ _ _ _) as [[output| | |] st1] eqn:Hrun; try discriminate.
  apply (proj1 (parser_well_formed input Hinput _)) in Hrun
    as (root & -> & Hsound & Hc); [|lia..].
  intros [= <-]. exists root. auto.
Qed.

(** *** The used indices stay in range *)

Lemma keeps_liftM {A} I (m : Outcome A) : keeps I (liftM m).
Proof. intros st r st' [= _ <-] HI. exact HI. Qed.

Lemma keeps_retM {A} I (a : A) : keeps I (retM a).
Proof. intros st r st' [= _ <-] HI. exact HI. Qed.

Lemma keeps_throwM {A} I e : keeps I (@throwM A e).
Proof. apply keeps_liftM. Qed.

Lemma keeps_bindM {A B} I (m : Member A) (k : A -> Member B) :
  keeps I m -> (forall a, keeps I (k a)) -> keeps I (bindM m k).
Proof.
  intros Hm Hk st r st'. unfold bindM.
  destruct (m st) as [[a| | |] st1] eqn:E; intros Hrun HI;
    try (injection Hrun as _ <-; exact (Hm _ _ _ E HI)).
  exact (Hk a _ _ _ Hrun (Hm _ _ _ E HI)).
Qed.

Lemma decimal_from_bound digits : forall index,
  forallb IsDigit digits = true -> 0 <= index ->
  index * 10 ^ Z.of_nat (length digits) <= decimal_from index digits
    < (index + 1) * 10 ^ Z.of_nat (length digits).
Proof.
  unfold decimal_from.
  induction digits as [|ch digits IH]; intros index Hdigits Hindex;
    cbn [fold_left forallb length] in *.
  - change (10 ^ Z.of_nat 0) with 1. lia.
  - apply andb_true_iff in Hdigits as [Hch Hdigits]. apply IsDigit_range in Hch.
    specialize (IH (index * 10 + digit_value ch) Hdigits ltac:(lia)).
    rewrite Nat2Z.inj_succ, Z.pow_succ_r by lia.
    assert (Hpow : 0 < 10 ^ Z.of_nat (length digits)) by (apply Z.pow_pos_nonneg; lia).
    nia.
Qed.

Lemma index_in_range_insert index st :
  -1 <= index < 10 ^ 9 -> index_in_range st ->
  index_in_range (set_usedVariables (fun s => {[ index ]} ∪ s) st).
Proof.
  intros Hindex Hst x. simpl. rewrite elem_of_union, elem_of_singleton.
  intros [->|Hx]; [exact Hindex|exact (Hst x Hx)].
Qed.

Lemma keeps_ScanVariable name offset : keeps index_in_range (ScanVariable name offset).
Proof.
  unfold ScanVariable.
  destruct (String.eqb _ "i"); [apply keeps_retM|].
  destruct (String.eqb _ "c").
  { intros st r st' [= _ <-]. apply index_in_range_insert. lia. }
  destruct (char_eqb _ "z"); [|apply keeps_throwM].
  destruct (_ || _) eqn:Hcheck; [apply keeps_throwM|].
  apply orb_false_iff in Hcheck as [_ Hlen]. apply Z.ltb_ge in Hlen.
  unfold name_length in Hlen.
  assert (Hpow : 10 ^ Z.of_nat (length (drop 1 name)) <= 10 ^ 9).
  { rewrite length_drop. apply Z.pow_le_mono_r; lia. }
  intros st r st'. unfold bindM, liftM.
  rewrite ScanIndex_result by lia.
  destruct (forallb IsDigit (drop 1 name)) eqn:Hdigits; [|intros [= _ <-]; auto].
  intros [= _ <-]. apply index_in_range_insert.
  pose proof (decimal_from_bound _ 0 Hdigits ltac:(lia)). lia.
Qed.

Lemma keeps_GetFunctionNameApplyPrecision name offset :
  keeps index_in_range (GetFunctionNameApplyPrecision name offset).
Proof.
  intros st r st' Hrun HI x.
  rewrite (GetFunctionNameApplyPrecision_usedVariables _ _ _ _ _ Hrun). apply HI.
Qed.

Ltac keeps_step :=
  match goal with
  | |- keeps _ (if ?b then _ else _) => destruct b
  | |- keeps _ (let '(_, _) := ?r in _) => destruct r
  | |- keeps _ (retM _) => apply keeps_retM
  | |- keeps _ (throwM _) => apply keeps_throwM
  | |- keeps _ (liftM _) => apply keeps_liftM
  | |- keeps _ (bindM _ _) => apply keeps_bindM; [|intros ?]
  | |- keeps _ (ScanVariable _ _) => apply keeps_ScanVariable
  | |- keeps _ (GetFunctionNameApplyPrecision _ _) =>
      apply keeps_GetFunctionNameApplyPrecision
  | H : _ |- _ => apply H
  end.

Lemma keeps_parser func fuel :
  (forall offset length, keeps index_in_range (ParsePart fuel func offset length))
  /\ (forall offset length, keeps index_in_range (ScanEvaluated fuel func offset length))
  /\ (forall offset length i scanEvaluated tokenized,
        keeps index_in_range
          (Tokenize fuel func offset length i scanEvaluated tokenized)).
Proof.
  induction fuel as [|fuel (IHP & IHS & IHT)].
  - split; [|split]; intros; apply keeps_liftM.
  - split; [|split]; intros; simpl.
    + unfold ParsePart_body. repeat keeps_step.
    + unfold ScanEvaluated_body. repeat keeps_step.
    + unfold Tokenize_body. repeat keeps_step.
Qed.

(** *** The evaluator on a parsed tree *)

Section EvaluatorProperties.
Context {NumberT : Type} `{NumberType NumberT}.

Lemma operator_functions_lookup name :
  operator_functions !! OperatorName.to_index name = Some (apply_operator name).
Proof. destruct name; reflexivity. Qed.

Lemma function_functions_lookup name :
  function_functions !! FunctionName.to_index name = Some (apply_function name).
Proof. destruct name; reflexivity. Qed.

Lemma bindO_Ok_inv {A B} (m : Outcome A) (k : A -> Outcome B) b :
  bindO m k = Ok b -> exists a, m = Ok a /\ k a = Ok b.
Proof. destruct m; try discriminate. eauto. Qed.

(** A conversion that returns has checked the whole tree, and the tree it
    returns evaluates to the value of the parsed tree in every store that
    has the slots of [m_variables]. *)
Lemma ConvertElem_interprets (m_variables : gmap Z NumberT) funcElem :
  forall tree,
    ConvertElem m_variables funcElem = Ok tree ->
    forall env : gmap Z NumberT,
      dom m_variables ⊆ dom env ->
      exists value,
        Elem_Eval env tree = Ok value /\ interpret env funcElem = Some value.
Proof.
  induction funcElem as [index|value|name param IH|name params0 params1 precedence IH0 IH1]
    using FuncElem_children_ind; intros tree; cbn [ConvertElem].
  - destruct (m_variables !! index) as [slot|] eqn:Hslot; [|discriminate].
    intros [= <-] env Hdom.
    assert (Hin : index ∈ dom env) by (apply Hdom, elem_of_dom; eauto).
    apply elem_of_dom in Hin as [value Hvalue].
    exists value. simpl. rewrite Hvalue. auto.
  - intros [= <-] env _. eexists. split; reflexivity.
  - rewrite function_functions_lookup.
    intros (sub & Hsub & [= <-])%bindO_Ok_inv env Hdom.
    destruct param as [child|]; [|discriminate].
    destruct (IH child eq_refl sub Hsub env Hdom) as (p & Hp & Hchild).
    exists (apply_function name p). cbn [Elem_Eval interpret].
    rewrite Hp, Hchild. auto.
  - rewrite operator_functions_lookup.
    intros (sub0 & Hsub0 & (sub1 & Hsub1 & [= <-])%bindO_Ok_inv)%bindO_Ok_inv env Hdom.
    destruct params0 as [child0|]; [|discriminate].
    destruct params1 as [child1|]; [|discriminate].
    destruct (IH0 child0 eq_refl sub0 Hsub0 env Hdom) as (lhs & Hlhs & Hchild0).
    destruct (IH1 child1 eq_refl sub1 Hsub1 env Hdom) as (rhs & Hrhs & Hchild1).
    exists (apply_operator name lhs rhs). cbn [Elem_Eval interpret bindO].
    rewrite Hlhs, Hrhs, Hchild0, Hchild1. auto.
Qed.

(** A whole tree whose variables all have a slot is converted. *)
Lemma ConvertElem_complete (m_variables : gmap Z NumberT) funcElem :
  complete funcElem = true ->
  variables funcElem ⊆ dom m_variables ->
  exists tree, ConvertElem m_variables funcElem = Ok tree.
Proof.
  induction funcElem as [index|value|name param IH|name params0 params1 precedence IH0 IH1]
    using FuncElem_children_ind; cbn [ConvertElem complete variables].
  - intros _ Hdom.
    assert (Hin : index ∈ dom m_variables) by (apply Hdom, elem_of_singleton; reflexivity).
    apply elem_of_dom in Hin as [slot ->]. eauto.
  - eauto.
  - rewrite function_functions_lookup.
    destruct param as [child|]; [|discriminate]. intros Hc Hv.
    destruct (IH child eq_refl Hc Hv) as (sub & ->). simpl. eauto.
  - rewrite operator_functions_lookup.
    destruct params0 as [child0|]; [|discriminate].
    destruct params1 as [child1|]; [|rewrite andb_false_r; discriminate].
    intros [Hc0 Hc1]%andb_true_iff Hv.
    destruct (IH0 child0 eq_refl Hc0) as (sub0 & ->); [etrans; [apply union_subseteq_l|exact Hv]|].
    destruct (IH1 child1 eq_refl Hc1) as (sub1 & ->); [etrans; [apply union_subseteq_r|exact Hv]|].
    simpl. eauto.
Qed.

(** X2: the only exception of the conversion is InvalidVariableIndex, at
    offset 0, for a [Variable] node whose index has no slot in the store;
    the two UnknownSymbol throws behind the function tables are never
    reached. *)
Theorem ConvertElem_throws_missing_variable (m_variables : gmap Z NumberT)
    (funcElem : FuncElem) (e : FuncParseExcept.t)
    (Hthrow : ConvertElem m_variables funcElem = Throw e) :
  e = FuncParseExcept FuncParseExcept.InvalidVariableIndex 0
  /\ exists index, index ∈ variables funcElem /\ m_variables !! index = None.
Proof.
  revert Hthrow.
  induction funcElem as [index|value|name param IH|name params0 params1 precedence IH0 IH1]
    using FuncElem_children_ind; cbn [ConvertElem variables].
  - destruct (m_variables !! index) eqn:Hslot; [discriminate|].
    intros [= <-]. split; [reflexivity|]. exists index.
    split; [apply elem_of_singleton; reflexivity|exact Hslot].
  - discriminate.
  - rewrite function_functions_lookup.
    destruct param as [child|]; [|discriminate].
    destruct (ConvertElem m_variables child) as [sub|e'| |] eqn:Hchild;
      cbn [bindO]; try discriminate.
    intros [= <-]. exact (IH child eq_refl Hchild).
  - rewrite operator_functions_lookup.
    destruct params0 as [child0|]; [|discriminate].
    destruct (ConvertElem m_variables child0) as [sub0|e0| |] eqn:Hchild0;
      cbn [bindO]; try discriminate.
    + destruct params1 as [child1|]; [|discriminate].
      destruct (ConvertElem m_variables child1) as [sub1|e1| |] eqn:Hchild1;
        cbn [bindO]; try discriminate.
      intros [= <-]. destruct (IH1 child1 eq_refl Hchild1) as (He & index & Hin & Hnone).
      split; [exact He|]. exists index.
      split; [apply elem_of_union_r, Hin|exact Hnone].
    + intros [= <-]. destruct (IH0 child0 eq_refl Hchild0) as (He & index & Hin & Hnone).
      split; [exact He|]. exists index.
      split; [apply elem_of_union_l, Hin|exact Hnone].
Qed.

Lemma assign_all_variables bindings : forall ev : FunctionEvaluator NumberT,
  m_funcTree (assign_all bindings ev) = m_funcTree ev
  /\ m_variables (assign_all bindings ev) =
       foldl (fun m b => <[b.1 := b.2]> m) (m_variables ev) bindings.
Proof.
  unfold assign_all.
  induction bindings as [|b bindings IH]; intros ev; simpl; [auto|].
  destruct (IH (assign b.1 b.2 ev)) as [-> ->]. auto.
Qed.

Lemma dom_foldl_insert bindings : forall m : gmap Z NumberT,
  dom m ⊆ dom (foldl (fun m b => <[b.1 := b.2]> m) m bindings).
Proof.
  induction bindings as [|b bindings IH]; intros m; simpl; [reflexivity|].
  etrans; [|apply IH]. rewrite dom_insert. apply union_subseteq_r.
Qed.
End EvaluatorProperties.

(** X3: a text that [Parse] accepts leaves a whole tree: the root is not
    null, and no [param] of a [Function] node and no [params] entry of an
    [Operator] node below it is null. *)
Theorem Parse_stores_whole_tree (function : string) (st st' : FunctionParser)
    (Hsize : Z.of_nat (String.length function) < 2 ^ 62)
    (HParse : Parse function st = (Ok tt, st')) :
  exists root, PseudoCode st' = Some root /\ complete root = true.
Proof.
  destruct (Parse_root _ _ _ Hsize HParse) as (root & Hroot & _ & Hc).
  exists root. auto.
Qed.

Lemma Parse_stores_whole_tree_witness :
  exists root,
    PseudoCode (Parse "sin(z3)*c-2" FunctionParser_new).2 = Some root
    /\ complete root = true.
Proof.
  apply (Parse_stores_whole_tree "sin(z3)*c-2" FunctionParser_new);
    vm_compute; reflexivity.
Defined.

(** X4: in the tree of an accepted text every [Operator] node carries the
    precedence of its name: 0 for add and sub, 1 for mul and div, 2 for
    pow. *)
Theorem Parse_operator_precedence (function : string) (st st' : FunctionParser)
    (root : FuncElem)
    (Hsize : Z.of_nat (String.length function) < 2 ^ 62)
    (HParse : Parse function st = (Ok tt, st'))
    (Hroot : PseudoCode st' = Some root) :
  tiered root = true.
Proof.
  destruct (Parse_root _ _ _ Hsize HParse) as (root' & Hroot' & [_ Ht] & _).
  congruence.
Qed.

Lemma Parse_operator_precedence_witness :
  tiered (Operator OperatorName.add
            (Some (Operator OperatorName.pow
                     (Some (Constant (complex 2 0))) (Some (Variable' 0)) 2))
            (Some (Operator OperatorName.div
                     (Some (Variable' 0)) (Some (Variable' (-1))) 1)) 0) = true.
Proof.
  apply (Parse_operator_precedence "2^z+z/c" FunctionParser_new
           (Parse "2^z+z/c" FunctionParser_new).2);
    vm_compute; reflexivity.
Defined.

(** X5: whatever the outcome of [Parse], the indices in [UsedVariables] are
    -1 (for [c]) or between 0 and 999999999: the [int] index never
    overflows. *)
Theorem UsedVariables_in_range (function : string) (st st' : FunctionParser)
    (r : Outcome unit) (HParse : Parse function st = (r, st')) :
  forall index, index ∈ UsedVariables st' -> -1 <= index < 10 ^ 9.
Proof.
  rewrite Parse_unfold in HParse. cbv zeta in HParse.
  destruct (ParsePart _ _ _ _ _) as [out st1] eqn:Hrun.
  assert (Hst1 : index_in_range st1).
  { apply (proj1 (keeps_parser _ _) _ _ _ _ _ Hrun).
    intros index Hin. apply elem_of_empty in Hin as []. }
  assert (Hused : UsedVariables st' = m_usedVariables st1)
    by (destruct out; injection HParse as _ <-; reflexivity).
  unfold index_in_range in Hst1. rewrite Hused. exact Hst1.
Qed.

Lemma UsedVariables_in_range_witness :
  Parse "z999999999*c+" FunctionParser_new =
    (Throw (FuncParseExcept FuncParseExcept.DanglingOperator 12),
     mkFunctionParser {[ 999999999; -1 ]} Extended "" None)
  /\ forall index,
       index ∈ UsedVariables (mkFunctionParser {[ 999999999; -1 ]} Extended "" None) ->
       -1 <= index < 10 ^ 9.
Proof.
  split; [vm_compute; reflexivity|].
  apply (UsedVariables_in_range "z999999999*c+" FunctionParser_new _
           (Throw (FuncParseExcept FuncParseExcept.DanglingOperator 12))).
  vm_compute; reflexivity.
Defined.

Section EvaluatorTheorems.
Context {NumberT : Type} `{NumberType NumberT}.

(** X6: an evaluator that was constructed returns, at every call and after
    any writes into [Variables()], the value of the parsed tree read with
    the current content of the store: the operator and function tables
    apply the function of the node's name, a variable node sees the last
    value written to its index, and an index never written holds
    [NumberType()]. *)
Theorem call_interprets (parser : FunctionParser) (ev : FunctionEvaluator NumberT)
    (bindings : list (Z * NumberT))
    (Hnew : FunctionEvaluator_new parser = Ok ev) :
  exists root value,
    PseudoCode parser = Some root
    /\ call (assign_all bindings ev) = Ok value
    /\ interpret
         (foldl (fun m b => <[b.1 := b.2]> m)
            (gset_to_gmap nt_init (UsedVariables parser)) bindings)
         root = Some value.
Proof.
  unfold FunctionEvaluator_new in Hnew.
  destruct (PseudoCode parser) as [root|]; [|discriminate].
  apply bindO_Ok_inv in Hnew as (tree & Hconvert & [= <-]).
  destruct (assign_all_variables bindings
              (mkFunctionEvaluator tree (gset_to_gmap nt_init (UsedVariables parser))))
    as [Htree Hstore].
  destruct (ConvertElem_interprets _ _ _ Hconvert _ (dom_foldl_insert bindings _))
    as (value & Heval & Hvalue).
  exists root, value. split; [reflexivity|]. split; [|exact Hvalue].
  unfold call. rewrite Htree, Hstore. exact Heval.
Qed.

(** X7: a text that [Parse] accepts can always be evaluated: the
    constructor of the evaluator returns (no InvalidVariableIndex, no null
    child), its store has exactly the used variables, and every call
    returns a value, whatever was written into the store before. *)
Theorem Parse_then_evaluate (function : string) (st parser : FunctionParser)
    (bindings : list (Z * NumberT))
    (Hsize : Z.of_nat (String.length function) < 2 ^ 62)
    (HParse : Parse function st = (Ok tt, parser)) :
  exists ev value,
    FunctionEvaluator_new parser = Ok ev
    /\ dom (m_variables ev) = UsedVariables parser
    /\ call (assign_all bindings ev) = Ok value.
Proof.
  destruct (Parse_root _ _ _ Hsize HParse) as (root & Hroot & [Hv _] & Hc).
  set (store := gset_to_gmap nt_init (UsedVariables parser) : gmap Z NumberT).
  assert (Hdom : dom store = UsedVariables parser) by apply dom_gset_to_gmap.
  destruct (ConvertElem_complete store root Hc) as (tree & Hconvert);
    [rewrite Hdom; exact Hv|].
  assert (Hnew : FunctionEvaluator_new parser = Ok (mkFunctionEvaluator tree store)).
  { unfold FunctionEvaluator_new. rewrite Hroot. fold store. rewrite Hconvert.
    reflexivity. }
  destruct (assign_all_variables bindings (mkFunctionEvaluator tree store))
    as [Htree Hstore].
  destruct (ConvertElem_interprets _ _ _ Hconvert _ (dom_foldl_insert bindings store))
    as (value & Heval & _).
  exists (mkFunctionEvaluator tree store), value.
  split; [exact Hnew|]. split; [exact Hdom|].
  unfold call. rewrite Htree, Hstore. exact Heval.
Qed.
End EvaluatorTheorems.

Lemma call_interprets_witness :
  exists root value,
    PseudoCode (Parse "z*z+c" FunctionParser_new).2 = Some root
    /\ call (assign_all [(0, complex 0.5 0)]
               (mkFunctionEvaluator
                  (EvalOperator
                     (EvalOperator (EvalVariable 0) (EvalVariable 0) complex_mul)
                     (EvalVariable (-1)) complex_add)
                  (gset_to_gmap (complex 0 0) {[ 0; -1 ]}))) = Ok value
    /\ interpret (H := complex_double small_power_library)
         (foldl (fun m b => <[b.1 := b.2]> m)
            (gset_to_gmap (nt_init (NumberType := complex_double small_power_library))
               (UsedVariables (Parse "z*z+c" FunctionParser_new).2))
            [(0, complex 0.5 0)])
         root = Some value.
Proof.
  apply (call_interprets (H := complex_double small_power_library)
           (Parse "z*z+c" FunctionParser_new).2).
  vm_compute. reflexivity.
Defined.

Lemma Parse_then_evaluate_witness :
  exists ev value,
    FunctionEvaluator_new (H := complex_double small_power_library)
      (Parse "z*z+c" FunctionParser_new).2 = Ok ev
    /\ dom (m_variables ev) = UsedVariables (Parse "z*z+c" FunctionParser_new).2
    /\ call (assign_all [(0, complex 0.5 0)] ev) = Ok value.
Proof.
  apply (Parse_then_evaluate (H := complex_double small_power_library)
           "z*z+c" FunctionParser_new);
    vm_compute; reflexivity.
Defined.

Lemma ConvertElem_throws_missing_variable_witness :
  FuncParseExcept FuncParseExcept.InvalidVariableIndex 0
  = FuncParseExcept FuncParseExcept.InvalidVariableIndex 0
  /\ exists index,
       index ∈ variables
         (Operator OperatorName.add (Some (Variable' 0)) (Some (Variable' 1)) 0)
       /\ gset_to_gmap (complex 0 0) ({[ 0 ]} : gset Z) !! index = None.
Proof.
  apply (ConvertElem_throws_missing_variable
           (H := complex_double small_power_library)
           (gset_to_gmap (complex 0 0) {[ 0 ]})
           (Operator OperatorName.add (Some (Variable' 0)) (Some (Variable' 1)) 0)).
  vm_compute. reflexivity.
Defined.

(** ** Blank texts and function calls *)

(** *** Blank input *)

Lemma StripWhitespace_blank function :
  forallb isspace (list_ascii_of_string function) = true ->
  StripWhitespace function = [].
Proof.
  induction function as [|ch function IH]; simpl; [reflexivity|].
  intros [Hch Hrest]%andb_true_iff. rewrite Hch. simpl.
  destruct (char_eqb ch NUL); [reflexivity|]. apply IH, Hrest.
Qed.

(** X8: a text of white space only (the empty text included) is rejected
    with NoInput at offset 0, and the session is left cleared. *)
Theorem Parse_blank_input (function : string) (st : FunctionParser)
    (Hblank : forallb isspace (list_ascii_of_string function) = true) :
  Parse function st =
    (Throw (FuncParseExcept FuncParseExcept.NoInput 0), FunctionParser_new).
Proof.
  rewrite Parse_unfold, (StripWhitespace_blank _ Hblank). reflexivity.
Qed.

Lemma Parse_blank_input_witness :
  Parse (String " " (String "009" (String "010" " ")))
    (mkFunctionParser {[ 3 ]} Single "sin(z3)" (Some (Variable' 3))) =
    (Throw (FuncParseExcept FuncParseExcept.NoInput 0), FunctionParser_new).
Proof. apply Parse_blank_input. vm_compute. reflexivity. Defined.

(** *** A name followed by a parenthesis *)

Lemma ScanEvaluated_leading_call fuel name rest length st :
  IsLetter (name_at name 0) = true ->
  forallb IsNamePart name = true ->
  Z.of_nat (List.length name) <= length < 2 ^ SIZE_WIDTH ->
  ScanEvaluated (S fuel) (name ++ "("%char :: rest) 0 length st =
    bindM (GetFunctionNameApplyPrecision (string_of_list_ascii name) (name_length name))
      (fun n =>
         bindM (ScanEvaluated fuel (name ++ "("%char :: rest) (name_length name) length)
           (fun r => let '(param, offset) := r in
                     retM (Some (Function n param), offset))) st.
Proof.
  intros Hletter Hname Hlength.
  assert (Hhead : char_at (name ++ "("%char :: rest) 0 = Ok (name_at name 0))
    by (destruct name; [discriminate|reflexivity]).
  rewrite ScanEvaluated_S. unfold ScanEvaluated_body.
  rewrite Hhead, bindM_liftM_Ok.
  rewrite (IsLetter_not_paren _ Hletter), Hletter.
  rewrite ptr_add_0, bindM_liftM_Ok.
  unfold sz_sub. rewrite Z.sub_0_r, (size_t_small length) by lia.
  unfold CountNameLength. rewrite CountNameLength_from_run by (auto; lia).
  rewrite Z.add_0_l, Nat2Z.id, take_app_length.
  unfold sz_add. rewrite Z.add_0_l, (size_t_small (Z.of_nat _)) by lia.
  rewrite char_at_app_r, bindM_liftM_Ok. reflexivity.
Qed.

(** A first operand that is not scanned ends [ParsePart], and [Parse]. *)
Lemma ParsePart_first_operand fuel func length st r st1 :
  0 < length < 2 ^ SIZE_WIDTH ->
  ScanEvaluated fuel func 0 length st = (r, st1) ->
  match r with
  | Ok _ => True
  | Throw e => ParsePart (S (S fuel)) func 0 length st = (Throw e, st1)
  | Undefined => ParsePart (S (S fuel)) func 0 length st = (Undefined, st1)
  | OutOfFuel => ParsePart (S (S fuel)) func 0 length st = (OutOfFuel, st1)
  end.
Proof.
  intros Hlength Hscan.
  destruct r as [x|e| |]; [exact I|..];
    rewrite ParsePart_S; unfold ParsePart_body;
    (replace (length =? 0) with false by (symmetry; apply Z.eqb_neq; lia));
    unfold bindM at 1; rewrite Tokenize_first_operand by exact Hlength;
    unfold bindM at 1; rewrite Hscan; reflexivity.
Qed.

Lemma Parse_first_operand (function : string) (text : list ascii) (ch : ascii)
    (st : FunctionParser) r st1 :
  StripWhitespace function = ch :: text ->
  Z.of_nat (length (ch :: text)) < 2 ^ SIZE_WIDTH ->
  ScanEvaluated (S (S (S (ParseFuel text - 1)))) (ch :: text) 0
    (Z.of_nat (length (ch :: text))) FunctionParser_new = (r, st1) ->
  match r with
  | Ok _ => True
  | Throw e => Parse function st = (Throw e, st1)
  | Undefined => Parse function st = (Undefined, st1)
  | OutOfFuel => Parse function st = (OutOfFuel, st1)
  end.
Proof.
  intros Hinput Hsize Hscan.
  apply ParsePart_first_operand in Hscan; [|rewrite length_cons in *; lia].
  destruct r as [x|e| |]; [exact I|..];
    rewrite Parse_unfold, Hinput; cbv zeta; rewrite ParseFuel_cons, Hscan;
    reflexivity.
Qed.

(** X9: a name followed by [(] that is not one of the thirteen function
    names (the loop over [g_FunctionNames] finds no equal entry) is
    rejected with UnknownSymbol at the offset of the parenthesis; the
    comparison is exact, so [Sin] or [sinus] are unknown. *)
Theorem Parse_unknown_function (function : string) (name rest : list ascii)
    (st : FunctionParser)
    (Hinput : StripWhitespace function = name ++ "("%char :: rest)
    (Hsize : Z.of_nat (length (name ++ "("%char :: rest)) < 2 ^ SIZE_WIDTH)
    (Hletter : IsLetter (name_at name 0) = true)
    (Hname : forallb IsNamePart name = true)
    (Hunknown : find_name g_FunctionNames (string_of_list_ascii name) 0 = None) :
  Parse function st =
    (Throw (FuncParseExcept FuncParseExcept.UnknownSymbol (Z.of_nat (length name))),
     FunctionParser_new).
Proof.
  destruct name as [|ch name]; [discriminate|].
  change ((ch :: name) ++ "("%char :: rest) with (ch :: name ++ "("%char :: rest) in *.
  apply (Parse_first_operand function _ _ st
           (Throw (FuncParseExcept FuncParseExcept.UnknownSymbol
                     (name_length (ch :: name)))) _ Hinput Hsize).
  change (ch :: name ++ "("%char :: rest) with ((ch :: name) ++ "("%char :: rest).
  rewrite ScanEvaluated_leading_call;
    [|exact Hletter|exact Hname|split; [rewrite length_app; lia|exact Hsize]].
  unfold bindM at 1, GetFunctionNameApplyPrecision. rewrite Hunknown. reflexivity.
Qed.

Lemma Parse_unknown_function_witness :
  Parse "Sin (z) + 1" FunctionParser_new =
    (Throw (FuncParseExcept FuncParseExcept.UnknownSymbol 3), FunctionParser_new).
Proof.
  apply (Parse_unknown_function "Sin (z) + 1" (c_str "Sin") (c_str "z)+1"));
    vm_compute; reflexivity.
Defined.

(** *** A call that is not closed *)





(** ** The brace matcher *)

Lemma depth_after_snoc depth text ch :
  depth_after depth (text ++ [ch]) =
    if char_eqb "(" ch then depth_after depth text + 1
    else if char_eqb ")" ch then depth_after depth text - 1
    else depth_after depth text.
Proof. unfold depth_after. rewrite fold_left_app. reflexivity. Qed.

Lemma depth_after_le text : forall depth,
  depth_after depth text <= depth + Z.of_nat (length text).
Proof.
  unfold depth_after.
  induction text as [|ch text IH]; intros depth; simpl; [lia|].
  etrans; [apply IH|]. destruct (char_eqb "(" ch); [lia|].
  destruct (char_eqb ")" ch); lia.
Qed.

Lemma never_closes_snoc text ch :
  never_closes text -> 0 <= depth_after 0 (text ++ [ch]) ->
  never_closes (text ++ [ch]).
Proof.
  intros Htext Hlast k. destruct (decide (k <= length text)%nat) as [Hk|Hk].
  - rewrite take_app_le by exact Hk. apply Htext.
  - rewrite take_ge by (rewrite length_app; simpl; lia). exact Hlast.
Qed.

(** The characters the loop has read when it is at [j]. *)
Lemma seen_snoc (func : list ascii) offset j (ch : ascii) :
  0 <= offset < j ->
  func !! Z.to_nat j = Some ch ->
  take (Z.to_nat (j + 1 - offset - 1)) (drop (Z.to_nat (offset + 1)) func) =
    take (Z.to_nat (j - offset - 1)) (drop (Z.to_nat (offset + 1)) func) ++ [ch].
Proof.
  intros Hj Hch.
  replace (Z.to_nat (j + 1 - offset - 1)) with (S (Z.to_nat (j - offset - 1))) by lia.
  apply take_S_r. rewrite lookup_drop, <- Hch. f_equal. lia.
Qed.

Lemma CountBetweenBraces_loop_sound n func offset : forall braceCntr j bracedLength,
  Z.of_nat (length func) < 2 ^ SIZE_WIDTH - 2 ->
  0 <= offset < j -> j <= Z.of_nat (length func) ->
  let seen := take (Z.to_nat (j - offset - 1)) (drop (Z.to_nat (offset + 1)) func) in
  braceCntr = 1 + depth_after 0 seen ->
  never_closes seen ->
  CountBetweenBraces_loop n func offset braceCntr j = Ok bracedLength ->
  let inside :=
    take (Z.to_nat (bracedLength - 1)) (drop (Z.to_nat (offset + 1)) func) in
  char_at func (offset + bracedLength) = Ok ")"%char
  /\ depth_after 0 inside = 0 /\ never_closes inside.
Proof.
  induction n as [|n IH]; intros braceCntr j bracedLength Hsize Hj Hend seen
    Hcntr Hseen; [discriminate|].
  cbn [CountBetweenBraces_loop].
  destruct (char_at func j) as [ch| | |] eqn:Hch; cbn [bindO]; try discriminate.
  assert (Hnext : sz_add j 1 = j + 1) by (unfold sz_add; apply size_t_small; lia).
  rewrite Hnext.
  pose proof (Hseen (length seen)) as Hdepth. rewrite take_ge in Hdepth by lia.
  pose proof (depth_after_le seen 0) as Hle.
  assert (Hlen : (length seen <= length func)%nat)
    by (subst seen; rewrite length_take, length_drop; lia).
  assert (Hread : ch <> NUL -> func !! Z.to_nat j = Some ch).
  { intros Hnul. unfold char_at in Hch.
    destruct (j <? 0); [discriminate|].
    destruct (func !! Z.to_nat j); [congruence|].
    destruct (j =? _); congruence. }
  assert (Hstop : forall cntr,
             CountBetweenBraces_loop n func offset cntr (j + 1) = Ok bracedLength ->
             func !! Z.to_nat j = Some ch).
  { intros cntr Hrun. unfold char_at in Hch.
    destruct (j <? 0); [discriminate|].
    destruct (func !! Z.to_nat j) eqn:Hfunc; [congruence|].
    apply lookup_ge_None in Hfunc.
    apply CountBetweenBraces_loop_Ok in Hrun; [lia|exact Hsize|lia]. }
  destruct (char_eqb "(" ch) eqn:Hopen.
  - intros Hrun. pose proof (Hstop _ Hrun) as Hfunc.
    pose proof (seen_snoc func offset j ch Hj Hfunc) as Hsnoc. fold seen in Hsnoc.
    apply IH in Hrun; [exact Hrun|exact Hsize|lia| | |].
    + apply lookup_lt_Some in Hfunc. lia.
    + rewrite Hsnoc, depth_after_snoc, Hopen.
      unfold sz_add. rewrite size_t_small by lia. lia.
    + rewrite Hsnoc. apply never_closes_snoc; [exact Hseen|].
      rewrite depth_after_snoc, Hopen. lia.
  - destruct (char_eqb ")" ch) eqn:Hclose.
    + assert (Hsub : sz_sub braceCntr 1 = depth_after 0 seen)
        by (unfold sz_sub; rewrite size_t_small by lia; lia).
      rewrite Hsub.
      destruct (0 =? depth_after 0 seen) eqn:Hzero.
      * apply Z.eqb_eq in Hzero.
        assert (Hback : sz_sub j offset = j - offset)
          by (unfold sz_sub; apply size_t_small; lia).
        rewrite Hback. intros [= <-]. cbv zeta.
        replace (offset + (j - offset)) with j by lia.
        apply char_eqb_eq in Hclose. subst ch.
        split; [exact Hch|]. fold seen. split; [symmetry; exact Hzero|exact Hseen].
      * apply Z.eqb_neq in Hzero.
        intros Hrun. pose proof (Hstop _ Hrun) as Hfunc.
        pose proof (seen_snoc func offset j ch Hj Hfunc) as Hsnoc. fold seen in Hsnoc.
        apply IH in Hrun; [exact Hrun|exact Hsize|lia| | |].
        -- apply lookup_lt_Some in Hfunc. lia.
        -- rewrite Hsnoc, depth_after_snoc, Hopen, Hclose. lia.
        -- rewrite Hsnoc. apply never_closes_snoc; [exact Hseen|].
           rewrite depth_after_snoc, Hopen, Hclose. lia.
    + intros Hrun. pose proof (Hstop _ Hrun) as Hfunc.
      pose proof (seen_snoc func offset j ch Hj Hfunc) as Hsnoc. fold seen in Hsnoc.
      apply IH in Hrun; [exact Hrun|exact Hsize|lia| | |].
      * apply lookup_lt_Some in Hfunc. lia.
      * rewrite Hsnoc, depth_after_snoc, Hopen, Hclose. exact Hcntr.
      * rewrite Hsnoc. apply never_closes_snoc; [exact Hseen|].
        rewrite depth_after_snoc, Hopen, Hclose. exact Hdepth.
Qed.

(** X11: when the brace matcher returns [bracedLength], the character at
    [offset + bracedLength] is a closing parenthesis inside the range, and
    the characters from [offset + 1] up to it are balanced: as many [(] as
    [)], and no [)] before its [(].  The character at [offset] itself is
    not looked at. *)
Theorem CountBetweenBraces_balanced (func : list ascii)
    (offset length bracedLength : Z)
    (Hsize : Z.of_nat (List.length func) < 2 ^ SIZE_WIDTH - 2)
    (Hoffset : 0 <= offset) (Hlength : 0 <= length)
    (Hend : offset + length + 1 < 2 ^ SIZE_WIDTH)
    (Hrun : CountBetweenBraces func offset length = Ok bracedLength) :
  let inside :=
    take (Z.to_nat (bracedLength - 1)) (drop (Z.to_nat (offset + 1)) func) in
  1 <= bracedLength < length
  /\ char_at func (offset + bracedLength) = Ok ")"%char
  /\ depth_after 0 inside = 0
  /\ never_closes inside.
Proof.
  pose proof (CountBetweenBraces_Ok _ _ _ _ Hsize Hoffset Hlength Hend Hrun)
    as [Hbraced Hinside].
  cbv zeta. split; [exact Hbraced|].
  unfold CountBetweenBraces in Hrun.
  assert (Hstart : sz_add offset 1 = offset + 1)
    by (unfold sz_add; apply size_t_small; lia).
  rewrite Hstart in Hrun.
  apply CountBetweenBraces_loop_sound in Hrun; [exact Hrun|exact Hsize|lia|lia| |].
  - replace (offset + 1 - offset - 1) with 0 by lia. reflexivity.
  - replace (offset + 1 - offset - 1) with 0 by lia. intros k.
    change (Z.to_nat 0) with 0%nat. rewrite take_0, take_nil. reflexivity.
Qed.

Lemma CountBetweenBraces_balanced_witness :
  CountBetweenBraces (c_str "((a)(b))+(c)") 0 12 = Ok 7
  /\ char_at (c_str "((a)(b))+(c)") (0 + 7) = Ok ")"%char
  /\ depth_after 0 (c_str "(a)(b)") = 0.
Proof.
  split; [vm_compute; reflexivity|].
  destruct (CountBetweenBraces_balanced (c_str "((a)(b))+(c)") 0 12 7)
    as (_ & Hclose & Hdepth & _); try (vm_compute; reflexivity); try lia.
  split; [exact Hclose|exact Hdepth].
Defined.

(** ** Messages and printed trees *)

(** *** Decimal digits *)

Lemma digit_char_value d :
  0 <= d <= 9 -> IsDigit (digit_char d) = true /\ digit_value (digit_char d) = d.
Proof.
  intros Hd.
  assert (Hcases : d = 0 \/ d = 1 \/ d = 2 \/ d = 3 \/ d = 4 \/ d = 5 \/ d = 6
                   \/ d = 7 \/ d = 8 \/ d = 9) by lia.
  repeat (destruct Hcases as [->|Hcases]; [split; reflexivity|]).
  subst d. split; reflexivity.
Qed.

Lemma decimal_from_app digits more : forall index,
  decimal_from index (digits ++ more) =
    decimal_from (decimal_from index digits) more.
Proof. intros index. unfold decimal_from. apply fold_left_app. Qed.

(** The digits that [decimal_digits] puts before [text]: they are digits,
    the first is not [0] unless the value is 0, their decimal value is
    [value], and a value below [10^k] has at most [k] of them. *)
Lemma decimal_digits_spec n : forall value text,
  (1 <= n)%nat -> 0 <= value < 10 ^ Z.of_nat n ->
  exists digits,
    decimal_digits n value text = digits ++ text
    /\ forallb IsDigit digits = true
    /\ decimal_from 0 digits = value
    /\ digits <> []
    /\ (0 < value -> char_eqb (name_at digits 0) "0" = false)
    /\ (forall k, (1 <= k)%nat -> value < 10 ^ Z.of_nat k -> (length digits <= k)%nat).
Proof.
  induction n as [|n IH]; intros value text Hn Hvalue; [lia|].
  cbn [decimal_digits].
  assert (Hmod : 0 <= value mod 10 <= 9)
    by (clear; pose proof (Z.mod_pos_bound value 10); lia).
  destruct (digit_char_value _ Hmod) as [Hdigit Hdv].
  destruct (value <? 10) eqn:Hsmall.
  - apply Z.ltb_lt in Hsmall. rewrite Z.mod_small in * by lia.
    exists [digit_char value]. repeat split.
    + simpl. rewrite Hdigit. reflexivity.
    + unfold decimal_from. simpl. exact Hdv.
    + discriminate.
    + intros Hpos. unfold name_at. simpl.
      assert (Hcases : value = 1 \/ value = 2 \/ value = 3 \/ value = 4 \/ value = 5
                       \/ value = 6 \/ value = 7 \/ value = 8 \/ value = 9) by lia.
      repeat (destruct Hcases as [->|Hcases]; [reflexivity|]). subst. reflexivity.
    + intros k Hk _. simpl. lia.
  - apply Z.ltb_ge in Hsmall.
    rewrite Nat2Z.inj_succ, Z.pow_succ_r in Hvalue by lia.
    destruct (IH (value / 10) (digit_char (value mod 10) :: text))
      as (digits & Hrun & Hall & Hval & Hnonempty & Hhead & Hlen).
    { destruct n; [change (10 ^ Z.of_nat 0) with 1 in Hvalue|]; lia. }
    { split; [apply Z.div_pos; lia|apply Z.div_lt_upper_bound; lia]. }
    exists (digits ++ [digit_char (value mod 10)]). repeat split.
    + rewrite Hrun, <- app_assoc. reflexivity.
    + rewrite forallb_app, Hall. simpl. rewrite Hdigit. reflexivity.
    + rewrite decimal_from_app, Hval. unfold decimal_from. simpl. rewrite Hdv.
      pose proof (Z.div_mod value 10). lia.
    + destruct digits; discriminate.
    + intros _. destruct digits as [|d digits]; [contradiction|].
      apply Hhead. apply Z.div_str_pos. lia.
    + intros k Hk Hbound. rewrite length_app. simpl.
      destruct k as [|[|k]]; [lia|change (10 ^ Z.of_nat 1) with 10 in Hbound; lia|].
      assert (length digits <= S k)%nat; [|lia].
      apply Hlen; [lia|].
      rewrite Nat2Z.inj_succ, Z.pow_succ_r in Hbound by lia.
      apply Z.div_lt_upper_bound; lia.
Qed.

Lemma print_decimal_spec value :
  0 <= value < 2 ^ SIZE_WIDTH ->
  forallb IsDigit (print_decimal value) = true
  /\ decimal_from 0 (print_decimal value) = value
  /\ print_decimal value <> []
  /\ (0 < value -> char_eqb (name_at (print_decimal value) 0) "0" = false)
  /\ (forall k, (1 <= k)%nat -> value < 10 ^ Z.of_nat k ->
                (length (print_decimal value) <= k)%nat).
Proof.
  intros Hvalue. unfold print_decimal.
  destruct (decimal_digits_spec 20 value []) as (digits & -> & H); [lia| |].
  { split; [lia|]. eapply Z.lt_trans; [apply Hvalue|]. reflexivity. }
  rewrite app_nil_r. exact H.
Qed.

(** *** The message of an exception *)

Lemma list_ascii_of_string_inj (s t : string) :
  list_ascii_of_string s = list_ascii_of_string t -> s = t.
Proof.
  intros Heq. rewrite <- (string_of_list_ascii_of_string s),
    <- (string_of_list_ascii_of_string t), Heq. reflexivity.
Qed.

Lemma print_decimal_inj a b :
  0 <= a < 2 ^ SIZE_WIDTH -> 0 <= b < 2 ^ SIZE_WIDTH ->
  string_of_list_ascii (print_decimal a) = string_of_list_ascii (print_decimal b) ->
  a = b.
Proof.
  intros Ha Hb Heq.
  apply (f_equal list_ascii_of_string) in Heq.
  rewrite !list_ascii_of_string_of_list_ascii in Heq.
  destruct (print_decimal_spec a Ha) as (_ & <- & _).
  destruct (print_decimal_spec b Hb) as (_ & <- & _).
  rewrite Heq. reflexivity.
Qed.

(** X12: the message of an exception tells the error apart: two exceptions
    with the same message have the same kind, and the same offset unless
    the kind is one of the three whose message has no position.  The
    position in the message is the offset plus one. *)
Theorem what_determines_error (e1 e2 : FuncParseExcept.t)
    (Hoffset1 : 0 <= FuncParseExcept.m_errorOffset e1 < 2 ^ SIZE_WIDTH - 1)
    (Hoffset2 : 0 <= FuncParseExcept.m_errorOffset e2 < 2 ^ SIZE_WIDTH - 1)
    (Hwhat : what e1 = what e2) :
  FuncParseExcept.m_foundError e1 = FuncParseExcept.m_foundError e2
  /\ (without_position (FuncParseExcept.m_foundError e1) = false ->
      FuncParseExcept.m_errorOffset e1 = FuncParseExcept.m_errorOffset e2).
Proof.
  destruct e1 as [error1 offset1], e2 as [error2 offset2]. simpl in Hoffset1, Hoffset2.
  assert (Hinj : sz_add offset1 1 = sz_add offset2 1 -> offset1 = offset2).
  { unfold sz_add. rewrite !size_t_small by lia. lia. }
  assert (Hrange1 : 0 <= sz_add offset1 1 < 2 ^ SIZE_WIDTH) by apply size_t_range.
  assert (Hrange2 : 0 <= sz_add offset2 1 < 2 ^ SIZE_WIDTH) by apply size_t_range.
  unfold what in Hwhat.
  destruct error1, error2;
    cbv beta iota zeta delta [append FuncParseExcept.m_foundError
      FuncParseExcept.m_errorOffset lookup list_lookup s_ErrorNameTable
      ErrorType_index] in Hwhat;
    try discriminate Hwhat;
    (split; [reflexivity|]); cbn; intros Hpos; try discriminate Hpos;
    apply Hinj, print_decimal_inj; try assumption;
    repeat (injection Hwhat as Hwhat); exact Hwhat.
Qed.

Lemma what_determines_error_witness :
  what (FuncParseExcept FuncParseExcept.OperatorExpected 4)
    = "Operator expected at position 5"%string
  /\ what (FuncParseExcept FuncParseExcept.EmptyFunction 0) = "Empty function"%string
  /\ FuncParseExcept.OperatorExpected = FuncParseExcept.OperatorExpected
  /\ (without_position FuncParseExcept.OperatorExpected = false -> 4 = 2 + 2).
Proof.
  split; [vm_compute; reflexivity|]. split; [vm_compute; reflexivity|].
  apply (what_determines_error
           (FuncParseExcept FuncParseExcept.OperatorExpected 4)
           (FuncParseExcept FuncParseExcept.OperatorExpected (2 + 2)));
    [unfold SIZE_WIDTH; simpl; lia|unfold SIZE_WIDTH; simpl; lia|vm_compute; reflexivity].
Defined.

(** *** A text that is one name *)

Lemma ScanVariable_operand name offset st funcElem st' :
  ScanVariable name offset st = (Ok funcElem, st') -> is_operand funcElem = true.
Proof.
  unfold ScanVariable.
  destruct (String.eqb _ "i"); [intros [= <- _]; reflexivity|].
  destruct (String.eqb _ "c"); [intros [= <- _]; reflexivity|].
  destruct (char_eqb _ "z"); [|discriminate].
  destruct (_ || _); [discriminate|].
  intros (index & st1 & _ & [= <- _])%bindM_Ok_inv. reflexivity.
Qed.

Lemma Reduce_single_operand e :
  is_operand e = true -> Reduce [Some e] = Ok ([Some e], 1).
Proof. destruct e; [reflexivity|reflexivity|reflexivity|discriminate]. Qed.

(** [Parse] on a text that is a single name not followed by anything. *)
Lemma Parse_single_name (function : string) (name : list ascii)
    (st : FunctionParser) funcElem st1 :
  StripWhitespace function = name ->
  Z.of_nat (length name) < 2 ^ SIZE_WIDTH ->
  IsLetter (name_at name 0) = true ->
  forallb IsNamePart name = true ->
  ScanVariable name (name_length name) FunctionParser_new = (Ok funcElem, st1) ->
  Parse function st =
    (Ok tt,
     mkFunctionParser (m_usedVariables st1) (m_supportedPrecision st1)
       (string_of_list_ascii name) (Some funcElem)).
Proof.
  intros Hinput Hsize Hletter Hname Hvar.
  destruct name as [|ch name]; [discriminate|].
  rewrite Parse_unfold, Hinput. cbv zeta.
  rewrite ParseFuel_cons, ParsePart_S. unfold ParsePart_body.
  replace (_ =? 0) with false
    by (symmetry; apply Z.eqb_neq; rewrite length_cons; lia).
  unfold bindM at 1. rewrite Tokenize_first_operand by (rewrite length_cons in *; lia).
  unfold bindM at 1.
  pose proof (ScanEvaluated_leading_name (S (S (ParseFuel name - 1)))
                (ch :: name) [] (Z.of_nat (length (ch :: name)))
                FunctionParser_new) as Hscan.
  rewrite app_nil_r in Hscan. rewrite Hscan; clear Hscan;
    [|exact Hletter|exact Hname|reflexivity|reflexivity|lia].
  unfold bindM at 1. rewrite Hvar.
  unfold retM at 1. cbv iota beta. unfold name_length.
  rewrite Tokenize_at_end by lia. cbv iota beta.
  change ([] ++ [Some funcElem]) with [Some funcElem].
  rewrite bool_decide_eq_false_2 by discriminate.
  rewrite (Reduce_single_operand _ (ScanVariable_operand _ _ _ _ _ Hvar)).
  reflexivity.
Qed.

Section PrinterProperties.
Variable print_double : float -> string.

(** X13: what [Print] writes for a variable node that [Parse] can produce
    (index -1, or 0 to 999999999) is read back by [Parse] as that node:
    [c] for -1, [z] for 0, [z] and the decimal digits of the index
    otherwise. *)
Theorem Parse_Print_variable (index : Z) (st : FunctionParser)
    (Hindex : -1 <= index < 10 ^ 9) :
  Parse (Print print_double (Variable' index)) st =
    (Ok tt,
     mkFunctionParser {[ index ]} Extended (Print print_double (Variable' index))
       (Some (Variable' index))).
Proof.
  destruct (decide (index = -1)) as [->|Hc]; [vm_compute; reflexivity|].
  destruct (decide (index = 0)) as [->|Hz]; [vm_compute; reflexivity|].
  cbn [Print].
  replace (index <? 0) with false by (symmetry; apply Z.ltb_ge; lia).
  replace (0 <? index) with true by (symmetry; apply Z.ltb_lt; lia).
  destruct (print_decimal_spec index) as (Hdigits & Hvalue & _ & Hhead & Hlen).
  { split; [lia|]. eapply Z.lt_trans; [apply Hindex|]. reflexivity. }
  specialize (Hhead ltac:(lia)). specialize (Hlen 9%nat ltac:(lia) ltac:(lia)).
  set (digits := print_decimal index) in *.
  assert (Hname : forallb IsNamePart ("z"%char :: digits) = true)
    by (simpl; apply forallb_IsDigit_IsNamePart, Hdigits).
  change (String "z" (string_of_list_ascii digits))
    with (string_of_list_ascii ("z"%char :: digits)).
  erewrite Parse_single_name;
    [|apply StripWhitespace_name, Hname
     |rewrite length_cons; change (2 ^ SIZE_WIDTH) with 18446744073709551616; lia
     |reflexivity|exact Hname
     |rewrite (ScanVariable_z _ _ _ Hdigits); unfold z_suffix_accepted;
      rewrite Hhead; replace (_ <=? 9) with true by (symmetry; apply Z.leb_le; lia);
      reflexivity].
  rewrite Hvalue. unfold set_usedVariables. simpl. rewrite union_empty_r_L.
  reflexivity.
Qed.

Lemma StripWhitespace_app_name (name : list ascii) (rest : string) :
  forallb IsNamePart name = true ->
  StripWhitespace (string_of_list_ascii name ++ rest) = name ++ StripWhitespace rest.
Proof.
  induction name as [|ch name IH]; simpl; [reflexivity|].
  intros [Hch Hname]%andb_true_iff.
  destruct (IsNamePart_kept _ Hch) as [-> ->]. simpl. rewrite IH by exact Hname.
  reflexivity.
Qed.

(** X14: what [Print] writes for an operator node is not a text that [Parse]
    accepts: it starts with [add(], [sub(], [mul(], [div(] or [pow(], which
    [Parse] reads as the call of an unknown function, UnknownSymbol at
    offset 3, whatever the children are. *)
Theorem Parse_Print_operator (name : OperatorName.t)
    (params0 params1 : option FuncElem) (precedence : Z) (st : FunctionParser)
    (Hsize : Z.of_nat
               (String.length (Print print_double
                                 (Operator name params0 params1 precedence)))
             < 2 ^ 62) :
  Parse (Print print_double (Operator name params0 params1 precedence)) st =
    (Throw (FuncParseExcept FuncParseExcept.UnknownSymbol 3), FunctionParser_new).
Proof.
  pose proof (StripWhitespace_length
                (Print print_double (Operator name params0 params1 precedence)))
    as Hstrip.
  cbn [Print] in *.
  set (tail := (_ ++ "," ++ _ ++ ")")%string) in *.
  assert (Hshape : exists text,
             forallb IsNamePart text = true /\ IsLetter (name_at text 0) = true
             /\ length text = 3%nat
             /\ find_name g_FunctionNames (string_of_list_ascii text) 0 = None
             /\ match opNames !! OperatorName.to_index name with
                | Some text => text
                | None => EmptyString
                end = string_of_list_ascii text).
  { destruct name;
      [exists (c_str "add")|exists (c_str "sub")|exists (c_str "mul")
      |exists (c_str "div")|exists (c_str "pow")];
      repeat split. }
  destruct Hshape as (text & Hname & Hletter & Hlen & Hunknown & Heq).
  rewrite Heq in *.
  assert (Hinput : StripWhitespace (string_of_list_ascii text ++ "(" ++ tail)
                   = text ++ "("%char :: StripWhitespace tail).
  { rewrite StripWhitespace_app_name by exact Hname. reflexivity. }
  rewrite Hinput in Hstrip.
  destruct text as [|ch text]; [discriminate|].
  change ((ch :: text) ++ "("%char :: StripWhitespace tail)
    with (ch :: text ++ "("%char :: StripWhitespace tail) in *.
  assert (Hbound : Z.of_nat (length (ch :: text ++ "("%char :: StripWhitespace tail))
                   < 2 ^ SIZE_WIDTH).
  { apply Nat2Z.inj_le in Hstrip. eapply Z.le_lt_trans; [exact Hstrip|].
    eapply Z.lt_trans; [exact Hsize|]. reflexivity. }
  apply (Parse_first_operand _ _ _ st
           (Throw (FuncParseExcept FuncParseExcept.UnknownSymbol 3)) _ Hinput Hbound).
  change (ch :: text ++ "("%char :: StripWhitespace tail)
    with ((ch :: text) ++ "("%char :: StripWhitespace tail) in *.
  rewrite ScanEvaluated_leading_call;
    [|exact Hletter|exact Hname|split; [rewrite length_app; lia|exact Hbound]].
  unfold bindM at 1, GetFunctionNameApplyPrecision. rewrite Hunknown.
  unfold name_length. rewrite Hlen. reflexivity.
Qed.
End PrinterProperties.

Lemma Parse_Print_variable_witness :
  Print (fun _ => "0"%string) (Variable' 120) = "z120"%string
  /\ Parse "z120" FunctionParser_new =
       (Ok tt, mkFunctionParser {[ 120 ]} Extended "z120" (Some (Variable' 120))).
Proof.
  split; [vm_compute; reflexivity|].
  apply (Parse_Print_variable (fun _ => "0"%string) 120 FunctionParser_new). lia.
Defined.

Lemma Parse_Print_operator_witness :
  Print (fun _ => "0"%string)
    (Operator OperatorName.add (Some (Variable' 0))
       (Some (Constant (complex 0 0))) 0) = "add(z,(0,0))"%string
  /\ Parse "add(z,(0,0))" FunctionParser_new =
       (Throw (FuncParseExcept FuncParseExcept.UnknownSymbol 3), FunctionParser_new).
Proof.
  split; [vm_compute; reflexivity|].
  apply (Parse_Print_operator (fun _ => "0"%string) OperatorName.add
           (Some (Variable' 0)) (Some (Constant (complex 0 0))) 0 FunctionParser_new).
  vm_compute. reflexivity.
Defined.

(** *** The stored text *)

Lemma StripWhitespace_idempotent function :
  StripWhitespace (string_of_list_ascii (StripWhitespace function)) =
    StripWhitespace function.
Proof.
  induction function as [|ch function IH]; simpl; [reflexivity|].
  destruct (char_eqb ch NUL) eqn:Hnul; [reflexivity|].
  destruct (isspace ch) eqn:Hspace; simpl; [exact IH|].
  rewrite Hnul, Hspace. simpl. rewrite IH. reflexivity.
Qed.

(** X15: after a successful [Parse] the stored text is the input without its
    white space, and parsing the stored text again, from any session,
    gives the same session back: the same root, used variables, precision
    and stored text. *)
Theorem Parse_stored_text (function : string) (st st' : FunctionParser)
    (HParse : Parse function st = (Ok tt, st')) :
  m_inputFunc st' = string_of_list_ascii (StripWhitespace function)
  /\ forall st'', Parse (m_inputFunc st') st'' = (Ok tt, st').
Proof.
  rewrite Parse_unfold in HParse. cbv zeta in HParse.
  destruct (ParsePart _ _ _ _ _) as [[output| | |] st1] eqn:Hrun; try discriminate.
  injection HParse as <-. split; [reflexivity|]. intros st''.
  rewrite Parse_unfold. cbv zeta. cbn [m_inputFunc].
  rewrite StripWhitespace_idempotent, Hrun. reflexivity.
Qed.

Lemma Parse_stored_text_witness :
  m_inputFunc (Parse " z * z + c " FunctionParser_new).2 = "z*z+c"%string
  /\ Parse "z*z+c" (mkFunctionParser {[ 7 ]} Single "sin(z7)" None) =
       Parse " z * z + c " FunctionParser_new.
Proof.
  destruct (Parse_stored_text " z * z + c " FunctionParser_new
              (Parse " z * z + c " FunctionParser_new).2) as [Htext Hagain];
    [vm_compute; reflexivity|].
  split; [exact Htext|].
  exact (Hagain (mkFunctionParser {[ 7 ]} Single "sin(z7)" None)).
Defined.

(** ** Names behind an operator *)

(** *** A name behind the first operator *)

Lemma ScanEvaluated_scans_name fuel func offset length st ch next :
  char_at func offset = Ok ch ->
  IsLetter ch = true ->
  char_at func (sz_add offset (name_length (scanned_name func offset length)))
    = Ok next ->
  char_eqb next "(" = false ->
  ScanEvaluated (S fuel) func offset length st =
    bindM
      (ScanVariable (scanned_name func offset length)
         (sz_add offset (name_length (scanned_name func offset length))))
      (fun funcElem =>
         retM (Some funcElem,
               sz_add offset (name_length (scanned_name func offset length)))) st.
Proof.
  intros Hch Hletter Hnext Hparen.
  pose proof (scanned_name_length func offset length) as Hlen.
  rewrite ScanEvaluated_S. unfold ScanEvaluated_body.
  rewrite Hch, bindM_liftM_Ok, (IsLetter_not_paren _ Hletter), Hletter.
  rewrite (char_at_ptr_add _ _ _ Hch), bindM_liftM_Ok.
  fold (scanned_name func offset length). rewrite <- Hlen.
  rewrite Hnext, bindM_liftM_Ok, Hparen. reflexivity.
Qed.

Lemma Tokenize_step fuel func length i scanEvaluated tokenized st :
  0 <= i < length -> length < 2 ^ SIZE_WIDTH ->
  Tokenize (S fuel) func 0 length i scanEvaluated tokenized st =
    bindM (if scanEvaluated : bool
           then ScanEvaluated fuel func i (length - i)
           else liftM (ScanOperator func i))
      (fun r => let '(token, i) := r in
                Tokenize fuel func 0 length i (negb scanEvaluated)
                  (tokenized ++ [token])) st.
Proof.
  intros Hi Hlength. rewrite Tokenize_S. unfold Tokenize_body, sz_add, sz_sub.
  rewrite Z.add_0_l, Z.add_0_r, (size_t_small length) by lia.
  rewrite (size_t_small (length - i)) by lia.
  replace (i <? length) with true by (symmetry; apply Z.ltb_lt; lia).
  reflexivity.
Qed.

Lemma CountNameLength_from_capped name : forall i bound,
  forallb IsNamePart name = true ->
  0 <= i <= bound -> bound - i <= Z.of_nat (length name) ->
  bound < 2 ^ SIZE_WIDTH ->
  CountNameLength_from name i bound = bound.
Proof.
  induction name as [|ch name IH]; intros i bound Hname Hi Hbound Hsize.
  - simpl in *. destruct (i <? bound) eqn:E; [apply Z.ltb_lt in E; lia|reflexivity].
  - cbn [CountNameLength_from]. cbn [forallb] in Hname.
    apply andb_true_iff in Hname as [Hch Hname].
    destruct (i <? bound) eqn:E; [|reflexivity]. apply Z.ltb_lt in E.
    rewrite Hch. unfold sz_add. rewrite size_t_small by lia.
    rewrite length_cons in Hbound. apply IH; auto; lia.
Qed.

Lemma is_operator_char_scan op :
  is_operator_char op = true ->
  IsNamePart op = false /\ char_eqb op "(" = false
  /\ exists node, forall func offset,
       char_at func offset = Ok op ->
       ScanOperator func offset = Ok (Some node, sz_add offset 1).
Proof.
  unfold is_operator_char. intros Hop.
  repeat (apply orb_true_iff in Hop as [Hop|Hop]);
    apply char_eqb_eq in Hop; subst op;
    (split; [reflexivity|]); (split; [reflexivity|]);
    eexists; intros func offset Hch; unfold ScanOperator; rewrite Hch;
    reflexivity.
Qed.

Lemma ScanOperator_other func offset ch :
  char_at func offset = Ok ch -> is_operator_char ch = false ->
  ScanOperator func offset =
    Throw (FuncParseExcept FuncParseExcept.OperatorExpected
             (sz_sub (sz_add offset 1) 1)).
Proof.
  intros Hch Hnot. unfold ScanOperator. rewrite Hch. cbn [bindO].
  unfold is_operator_char in Hnot.
  repeat (apply orb_false_iff in Hnot as [Hnot ?]).
  repeat match goal with H : char_eqb ch _ = false |- _ => rewrite H; clear H end.
  reflexivity.
Qed.

Lemma ScanOperator_name_part func offset ch :
  char_at func offset = Ok ch -> IsNamePart ch = true ->
  ScanOperator func offset =
    Throw (FuncParseExcept FuncParseExcept.OperatorExpected
             (sz_sub (sz_add offset 1) 1)).
Proof.
  intros Hch Hpart. apply (ScanOperator_other _ _ ch Hch).
  destruct (is_operator_char ch) eqn:Hop; [|reflexivity].
  apply is_operator_char_scan in Hop as [Hop _]. congruence.
Qed.

Lemma forallb_take {A} (f : A -> bool) (l : list A) : forall n,
  forallb f l = true -> forallb f (take n l) = true.
Proof.
  induction l as [|x l IH]; intros [|n]; simpl; auto.
  intros [Hx Hl]%andb_true_iff. rewrite Hx. simpl. auto.
Qed.

Lemma forallb_lookup {A} (f : A -> bool) (l : list A) : forall i x,
  forallb f l = true -> l !! i = Some x -> f x = true.
Proof.
  induction l as [|y l IH]; intros [|i] x; simpl; try discriminate.
  - intros [Hy _]%andb_true_iff [= <-]. exact Hy.
  - intros [_ Hl]%andb_true_iff. apply IH, Hl.
Qed.

Lemma ScanVariable_accepts name offset st :
  is_variable_name name = true ->
  exists funcElem st', ScanVariable name offset st = (Ok funcElem, st').
Proof.
  unfold is_variable_name, ScanVariable.
  destruct (String.eqb _ "i"); [eauto|].
  destruct (String.eqb _ "c"); [eauto|]. simpl.
  destruct (char_eqb (name_at name 0) "z"); [|discriminate]. simpl.
  destruct (_ || _) eqn:Hcheck; [discriminate|]. simpl. intros Hdigits.
  unfold bindM, liftM. rewrite ScanIndex_result, Hdigits; [eauto|lia|].
  apply orb_false_iff in Hcheck as [_ Hlen]. apply Z.ltb_ge in Hlen.
  unfold name_length in Hlen. rewrite length_drop.
  apply Z.le_trans with (1 * 10 ^ 9); [|lia].
  apply Z.mul_le_mono_nonneg_l; [lia|]. apply Z.pow_le_mono_r; lia.
Qed.

(** X16: an indexed variable right behind a one-letter operand and an
    operator is never accepted ([c+z1], [z*z12]).  [ScanEvaluated] counts
    the name with [length - offset], where [length] is already the number
    of characters left: at offset 2 that is the number of digits less one.
    With one digit the name is empty (UnexpectedSymbol at offset 3); with
    more, the name stops two digits early, and the scan fails on the name
    (UnexpectedSymbol at offset 2) or on the digit behind it
    (OperatorExpected). *)
Theorem Parse_truncates_second_name (function : string) (first op : ascii)
    (digits : list ascii) (st : FunctionParser) :
  let m := Z.of_nat (length digits) in
  StripWhitespace function = first :: op :: "z"%char :: digits ->
  m + 3 < 2 ^ SIZE_WIDTH -> 1 <= m ->
  IsLetter first = true ->
  is_variable_name [first] = true ->
  is_operator_char op = true ->
  forallb IsDigit digits = true ->
  (Parse function st).1 =
    Throw
      (if m =? 1 then FuncParseExcept FuncParseExcept.UnexpectedSymbol 3
       else if z_suffix_accepted (take (Z.to_nat (m - 2)) digits)
            then FuncParseExcept FuncParseExcept.OperatorExpected (m + 1)
            else FuncParseExcept FuncParseExcept.UnexpectedSymbol 2).
Proof.
  intros m Hinput Hsize Hm Hletter Hfirst Hop Hdigits.
  set (input := first :: op :: "z"%char :: digits) in *.
  assert (Hlen : Z.of_nat (length input) = m + 3)
    by (subst input m; rewrite !length_cons; lia).
  destruct (is_operator_char_scan op Hop) as (Hop_part & Hop_paren & node & Hscan_op).
  destruct (ScanVariable_accepts [first] (name_length [first]) FunctionParser_new Hfirst)
    as (e1 & st1 & Hvar1).
  assert (Hname : forallb IsNamePart ("z"%char :: digits) = true)
    by (simpl; apply forallb_IsDigit_IsNamePart, Hdigits).
  (* the second name as it is scanned *)
  assert (Hscanned : scanned_name input 2 (m + 3 - 2) =
                     take (Z.to_nat (m - 1)) ("z"%char :: digits)).
  { unfold scanned_name. cbv zeta. change (drop (Z.to_nat 2) input) with ("z"%char :: digits).
    unfold sz_sub, CountNameLength. rewrite size_t_small by lia.
    rewrite CountNameLength_from_capped; [f_equal; lia|exact Hname|lia| |lia].
    rewrite length_cons. lia. }
  assert (Hscanned_len : name_length (scanned_name input 2 (m + 3 - 2)) = m - 1).
  { rewrite Hscanned. unfold name_length. rewrite length_take, length_cons. lia. }
  assert (Hnext : exists next,
             char_at input (m + 1) = Ok next /\ IsNamePart next = true).
  { unfold char_at. replace (m + 1 <? 0) with false by (symmetry; apply Z.ltb_ge; lia).
    destruct (input !! Z.to_nat (m + 1)) as [next|] eqn:Hlook.
    - exists next. split; [reflexivity|].
      replace (Z.to_nat (m + 1)) with (S (S (Z.to_nat (m - 1)))) in Hlook by lia.
      simpl in Hlook. exact (forallb_lookup _ _ _ _ Hname Hlook).
    - apply lookup_ge_None in Hlook. lia. }
  destruct Hnext as (next & Hnext & Hnext_part).
  assert (Hnext_paren : char_eqb next "(" = false).
  { destruct (char_eqb next "(") eqn:E; [|reflexivity].
    apply char_eqb_eq in E. subst next. discriminate. }
  rewrite Parse_unfold, Hinput. cbv zeta. fold input.
  replace (ParseFuel input)
    with (S (S (S (S (S (S (S (4 * length digits + 9))))))))%nat
    by (unfold ParseFuel; subst input; rewrite !length_cons; lia).
  rewrite ParsePart_S. unfold ParsePart_body.
  rewrite Hlen. replace (m + 3 =? 0) with false by (symmetry; apply Z.eqb_neq; lia).
  unfold bindM at 1. rewrite Tokenize_step by lia. cbv iota.
  unfold bindM at 1.
  change input with ([first] ++ op :: "z"%char :: digits) at 1.
  rewrite Z.sub_0_r.
  assert (Hfirst_part : forallb IsNamePart [first] = true)
    by (simpl; unfold IsNamePart; rewrite Hletter; reflexivity).
  rewrite ScanEvaluated_leading_name;
    [|exact Hletter|exact Hfirst_part|exact Hop_part|exact Hop_paren|simpl; lia].
  fold input.
  unfold bindM at 1. rewrite Hvar1. unfold retM at 1. cbv iota beta.
  change (name_length [first]) with 1.
  rewrite Tokenize_step by lia. cbn [negb]. cbv iota.
  unfold bindM at 1, liftM at 1.
  rewrite (Hscan_op input 1 eq_refl).
  change (sz_add 1 1) with 2.
  rewrite Tokenize_step by lia. cbn [negb]. cbv iota.
  unfold bindM at 1.
  rewrite (ScanEvaluated_scans_name _ input 2 (m + 3 - 2) st1 "z" next eq_refl eq_refl);
    [|rewrite Hscanned_len; unfold sz_add; rewrite size_t_small by lia;
      replace (2 + (m - 1)) with (m + 1) by lia; exact Hnext
     |exact Hnext_paren].
  rewrite Hscanned_len, Hscanned.
  unfold sz_add at 1 2. rewrite !(size_t_small (2 + (m - 1))) by lia.
  replace (2 + (m - 1)) with (m + 1) by lia.
  destruct (m =? 1) eqn:Hone.
  - apply Z.eqb_eq in Hone. rewrite Hone. reflexivity.
  - apply Z.eqb_neq in Hone.
    replace (Z.to_nat (m - 1)) with (S (Z.to_nat (m - 2))) by lia.
    cbn [take].
    assert (Htaken : forallb IsDigit (take (Z.to_nat (m - 2)) digits) = true)
      by apply forallb_take, Hdigits.
    unfold bindM at 1. rewrite (ScanVariable_z _ _ _ Htaken).
    destruct (z_suffix_accepted _).
    + unfold retM at 1. cbv iota beta.
      rewrite Tokenize_step by lia. cbn [negb]. cbv iota.
      unfold bindM at 1, liftM at 1.
      rewrite (ScanOperator_name_part _ _ _ Hnext Hnext_part).
      unfold sz_add, sz_sub. rewrite (size_t_small (m + 1 + 1)) by lia.
      rewrite size_t_small by lia.
      replace (m + 1 + 1 - 1) with (m + 1) by lia. reflexivity.
    + unfold name_length, sz_sub. rewrite length_cons, length_take.
      rewrite size_t_small by lia.
      replace (m + 1 - Z.of_nat (S (Z.to_nat (m - 2) `min` length digits))) with 2
        by lia.
      reflexivity.
Qed.

Lemma Parse_truncates_second_name_witness :
  (Parse "c + z12" FunctionParser_new).1 =
    Throw (FuncParseExcept FuncParseExcept.OperatorExpected 3)
  /\ (Parse "z*z7" FunctionParser_new).1 =
       Throw (FuncParseExcept FuncParseExcept.UnexpectedSymbol 3).
Proof.
  split.
  - apply (Parse_truncates_second_name "c + z12" "c" "+" (c_str "12"));
      try (vm_compute; reflexivity); simpl; lia.
  - apply (Parse_truncates_second_name "z*z7" "z" "*" (c_str "7"));
      try (vm_compute; reflexivity); simpl; lia.
Defined.

(** ** Error offsets *)

(** *** Where the exceptions point *)

Lemma throws_within_bindO {A B} bound (m : Outcome A) (k : A -> Outcome B) :
  throws_within bound m -> (forall a, m = Ok a -> throws_within bound (k a)) ->
  throws_within bound (bindO m k).
Proof.
  intros Hm Hk. destruct m as [a|e| |]; simpl.
  - apply Hk. reflexivity.
  - intros e' [= <-]. apply Hm. reflexivity.
  - discriminate.
  - discriminate.
Qed.

Lemma throws_within_bindM {A B} bound (m : Member A) (k : A -> Member B) st :
  throws_within bound (m st).1 ->
  (forall a st', m st = (Ok a, st') -> throws_within bound (k a st').1) ->
  throws_within bound (bindM m k st).1.
Proof.
  intros Hm Hk. unfold bindM. destruct (m st) as [[a|e| |] st'] eqn:E; simpl in *.
  - apply Hk. reflexivity.
  - intros e' [= <-]. apply Hm. reflexivity.
  - discriminate.
  - discriminate.
Qed.

Lemma throws_within_liftM {A} bound (m : Outcome A) st :
  throws_within bound m -> throws_within bound (liftM m st).1.
Proof. intros Hm. exact Hm. Qed.

Lemma char_at_no_throw func j e : char_at func j <> Throw e.
Proof.
  unfold char_at. destruct (j <? 0); [discriminate|].
  destruct (func !! Z.to_nat j); [discriminate|]. destruct (j =? _); discriminate.
Qed.

Lemma ptr_add_no_throw func j e : ptr_add func j <> Throw e.
Proof. unfold ptr_add. destruct (_ && _); discriminate. Qed.

Lemma vec_at_no_throw {A} (v : list A) k e : vec_at v k <> Throw e.
Proof.
  unfold vec_at. destruct (k <? 0); [discriminate|].
  destruct (v !! Z.to_nat k); discriminate.
Qed.

Lemma throws_within_never {A} bound (o : Outcome A) :
  (forall e, o <> Throw e) -> throws_within bound o.
Proof. intros Ho e He. destruct (Ho e He). Qed.

Lemma CountBetweenBraces_loop_Throw n func offset : forall braceCntr j e,
  CountBetweenBraces_loop n func offset braceCntr j = Throw e ->
  e = FuncParseExcept FuncParseExcept.OpenBraces offset.
Proof.
  induction n as [|n IH]; intros braceCntr j e; cbn [CountBetweenBraces_loop].
  { intros [= <-]. reflexivity. }
  destruct (char_at func j) as [ch| | |] eqn:Hch; cbn [bindO]; try discriminate.
  - destruct (char_eqb "(" ch); [apply IH|].
    destruct (char_eqb ")" ch); [|apply IH].
    destruct (0 =? _); [discriminate|apply IH].
  - intros [= <-]. destruct (char_at_no_throw _ _ _ Hch).
Qed.

Lemma ScanNumber_Throw func offset e :
  ScanNumber func offset = Throw e ->
  e = FuncParseExcept FuncParseExcept.UnexpectedSymbol offset.
Proof.
  unfold ScanNumber.
  destruct (char_at func offset) as [first| | |] eqn:Hfirst; cbn [bindO];
    try discriminate; [|intros [= <-]; destruct (char_at_no_throw _ _ _ Hfirst)].
  destruct (ptr_add func _) as [rest| | |] eqn:Hrest; cbn [bindO];
    try discriminate; [|intros [= <-]; destruct (ptr_add_no_throw _ _ _ Hrest)].
  destruct (ScanNumber_whole rest 0 _ false) as [[num offset1] digitPresent].
  destruct (char_at func offset1) as [ch| | |] eqn:Hch; cbn [bindO];
    try discriminate; [|intros [= <-]; destruct (char_at_no_throw _ _ _ Hch)].
  destruct (char_eqb ch ".").
  - destruct (ptr_add func (sz_add offset1 1)) as [rest'| | |] eqn:Hrest'; cbn [bindO];
      try discriminate; [|intros [= <-]; destruct (ptr_add_no_throw _ _ _ Hrest')].
    destruct (ScanNumber_fraction _ _ _ _ _) as [[num2 offset2] digitPresent2].
    destruct (negb digitPresent2); [intros [= <-]; reflexivity|discriminate].
  - cbn [bindO]. destruct (negb digitPresent); [intros [= <-]; reflexivity|discriminate].
Qed.

Lemma ScanOperator_Throw func offset e :
  ScanOperator func offset = Throw e ->
  e = FuncParseExcept FuncParseExcept.OperatorExpected (sz_sub (sz_add offset 1) 1)
  /\ exists ch, char_at func offset = Ok ch.
Proof.
  unfold ScanOperator.
  destruct (char_at func offset) as [ch| | |] eqn:Hch; cbn [bindO];
    try discriminate; [|intros [= <-]; destruct (char_at_no_throw _ _ _ Hch)].
  repeat (destruct (char_eqb ch _); [discriminate|]).
  intros [= <-]. eauto.
Qed.

Lemma ScanIndex_Throw rest : forall index errorOffset e,
  ScanIndex rest index errorOffset = Throw e ->
  e = FuncParseExcept FuncParseExcept.UnexpectedSymbol errorOffset.
Proof.
  induction rest as [|ch rest IH]; intros index errorOffset e; cbn [ScanIndex];
    [discriminate|].
  destruct (negb _); [intros [= <-]; reflexivity|].
  destruct (_ <=? _); [apply IH|discriminate].
Qed.

Lemma ScanVariable_Throw name offset st e st' :
  ScanVariable name offset st = (Throw e, st') ->
  e = FuncParseExcept FuncParseExcept.UnexpectedSymbol
        (sz_sub offset (name_length name))
  \/ e = FuncParseExcept FuncParseExcept.UnexpectedSymbol
           (sz_sub (sz_add offset 1) (name_length name)).
Proof.
  unfold ScanVariable.
  destruct (String.eqb _ "i"); [discriminate|].
  destruct (String.eqb _ "c"); [discriminate|].
  destruct (char_eqb _ "z"); [|intros [= <- _]; auto].
  destruct (_ || _); [intros [= <- _]; auto|].
  unfold bindM, liftM.
  destruct (ScanIndex _ _ _) as [index|e'| |] eqn:Hindex; try discriminate.
  intros [= <- _]. left. eapply ScanIndex_Throw, Hindex.
Qed.

Lemma ReducePass_Throw n precedence : forall v tokenCount storeIdx readIdx e,
  ReducePass n precedence v tokenCount storeIdx readIdx = Throw e ->
  e = FuncParseExcept FuncParseExcept.EmptyFunction 0.
Proof.
  induction n as [|n IH]; intros v tokenCount storeIdx readIdx e; cbn [ReducePass];
    destruct (readIdx <? tokenCount); try discriminate.
  destruct (vec_at v readIdx) as [[tok|]| | |] eqn:Htok; cbn [bindO];
    try discriminate; [|intros [= <-]; destruct (vec_at_no_throw _ _ _ Htok)].
  destruct (operator_at precedence tok) as [[name opPrecedence]|]; [|apply IH].
  destruct (negb _); [intros [= <-]; reflexivity|].
  destruct (vec_at v (sz_sub storeIdx 1)) as [lhs| | |] eqn:Hlhs; cbn [bindO];
    try discriminate; [|intros [= <-]; destruct (vec_at_no_throw _ _ _ Hlhs)].
  destruct (vec_at _ (sz_add readIdx 1)) as [rhs| | |] eqn:Hrhs; cbn [bindO];
    try discriminate; [|intros [= <-]; destruct (vec_at_no_throw _ _ _ Hrhs)].
  apply IH.
Qed.

Lemma Reduce_Throw tokenized e :
  Reduce tokenized = Throw e -> e = FuncParseExcept FuncParseExcept.EmptyFunction 0.
Proof.
  unfold Reduce. cbv zeta.
  destruct (ReducePass _ 2 _ _ _ _) as [[v2 c2]|e2| |] eqn:H2; cbn [bindO];
    try discriminate; [|intros [= <-]; eapply ReducePass_Throw, H2].
  destruct (ReducePass _ 1 _ _ _ _) as [[v1 c1]|e1| |] eqn:H1; cbn [bindO];
    try discriminate; [|intros [= <-]; eapply ReducePass_Throw, H1].
  apply ReducePass_Throw.
Qed.

Section ErrorOffsets.
Variable func : list ascii.
Hypothesis Hfunc : Z.of_nat (length func) < 2 ^ 62.

Lemma error_within_simple kind offset :
  0 <= offset <= (Z.of_nat (List.length func)) -> kind <> FuncParseExcept.InvalidVariableIndex ->
  error_within (Z.of_nat (List.length func)) (FuncParseExcept kind offset).
Proof. intros Hoffset Hkind. split; assumption. Qed.

Lemma parser_throws_within fuel :
  (forall offset length st,
      0 <= offset -> 0 <= length -> offset + length <= (Z.of_nat (List.length func)) ->
      throws_within (Z.of_nat (List.length func)) (ParsePart fuel func offset length st).1)
  /\ (forall offset length st,
        0 <= length <= (Z.of_nat (List.length func)) ->
        throws_within (Z.of_nat (List.length func)) (ScanEvaluated fuel func offset length st).1)
  /\ (forall offset length i scanEvaluated tokenized st,
        0 <= offset -> 0 <= length -> offset + length <= (Z.of_nat (List.length func)) -> 0 <= i ->
        throws_within (Z.of_nat (List.length func))
          (Tokenize fuel func offset length i scanEvaluated tokenized st).1).
Proof.
  assert (Hsize : Z.of_nat (List.length func) < 2 ^ SIZE_WIDTH - 2)
    by (change (2 ^ SIZE_WIDTH) with (4 * 2 ^ 62); lia).
  pose proof (size_t_func func Hfunc) as Hsmall.
  induction fuel as [|fuel (IHP & IHS & IHT)].
  { split; [|split]; intros; discriminate. }
  split; [|split].
  - intros offset length st Hoffset Hlength Hend.
    rewrite ParsePart_S. unfold ParsePart_body.
    destruct (length =? 0) eqn:Hzero.
    { intros e [= <-]. apply error_within_simple; [lia|discriminate]. }
    apply Z.eqb_neq in Hzero.
    apply throws_within_bindM; [apply IHT; lia|].
    intros [tokens scanEvaluated] st1 _.
    destruct scanEvaluated.
    { intros e [= <-]. unfold sz_add, sz_sub.
      rewrite (Hsmall (offset + length)), Hsmall by lia.
      apply error_within_simple; [lia|discriminate]. }
    destruct (bool_decide _).
    { intros e [= <-]. apply error_within_simple; [lia|discriminate]. }
    apply throws_within_bindM.
    { intros e He. apply Reduce_Throw in He as ->.
      apply error_within_simple; [lia|discriminate]. }
    intros [v count] st2 _. destruct (negb _).
    { intros e [= <-]. apply error_within_simple; [lia|discriminate]. }
    apply throws_within_never. intros e. apply vec_at_no_throw.
  - intros offset length st Hlength.
    rewrite ScanEvaluated_S. unfold ScanEvaluated_body.
    apply throws_within_bindM;
      [apply throws_within_never; intros e; apply char_at_no_throw|].
    intros ch st1 [Hch ->]%liftM_Ok_inv.
    pose proof (char_at_Ok _ _ _ Hch) as Hoffset. 
    destruct (char_eqb "(" ch) eqn:Hparen.
    { apply char_eqb_eq in Hparen. subst ch.
      apply char_at_Ok_lt in Hch; [|discriminate]. 
      unfold sz_add at 1 2 3. rewrite (Hsmall (offset + 1)) by lia.
      apply throws_within_bindM.
      { intros e He. apply CountBetweenBraces_loop_Throw in He as ->.
        apply error_within_simple; [lia|discriminate]. }
      intros bracedLength st2 [Hbraces ->]%liftM_Ok_inv.
      apply CountBetweenBraces_Ok in Hbraces;
        [|exact Hsize|lia|lia
         |change (2 ^ SIZE_WIDTH) with (4 * 2 ^ 62); lia].
      apply throws_within_bindM; [apply IHP; lia|]. intros; discriminate. }
    destruct (IsLetter ch) eqn:Hletter.
    + assert (Hlt : offset < (Z.of_nat (List.length func))).
      { apply char_at_Ok_lt in Hch; [exact (proj2 Hch)|].
        intros ->. discriminate. }
      apply throws_within_bindM;
        [apply throws_within_never; intros e; apply ptr_add_no_throw|].
      intros start st2 [Hstart ->]%liftM_Ok_inv.
      apply ptr_add_Ok in Hstart as [_ Hstartlen]. 
      pose proof (CountNameLength_bounds start (length - offset)) as Hname.
      fold (sz_sub length offset) in Hname.
      set (nameLength := CountNameLength start (sz_sub length offset)) in *.
      assert (Hname_len :
                name_length (take (Z.to_nat nameLength) start) = nameLength)
        by (unfold name_length; rewrite length_take; lia).
      unfold sz_add at 1 2 3 4.
      rewrite !(Hsmall (offset + nameLength)) by lia.
      apply throws_within_bindM;
        [apply throws_within_never; intros e; apply char_at_no_throw|].
      intros next st3 [Hnext ->]%liftM_Ok_inv.
      destruct (char_eqb next "(").
      * apply throws_within_bindM.
        { intros e He.
          pose proof (GetFunctionNameApplyPrecision_step
                        (string_of_list_ascii (take (Z.to_nat nameLength) start))
                        (offset + nameLength) st) as Hstep.
          destruct (GetFunctionNameApplyPrecision _ _ _) as [[n|e'| |] st4];
            try discriminate.
          destruct Hstep as (-> & _). simpl in He. injection He as <-.
          apply error_within_simple; [lia|discriminate]. }
        intros n st4 _.
        apply throws_within_bindM; [apply IHS; exact Hlength|].
        intros [param offset2] st5 _. discriminate.
      * apply throws_within_bindM; [|intros; discriminate].
        intros e He.
        destruct (ScanVariable _ _ _) as [r st4] eqn:Hvar. simpl in He. subst r.
        apply ScanVariable_Throw in Hvar. rewrite Hname_len in Hvar.
        unfold sz_add, sz_sub in Hvar.
        rewrite (Hsmall (offset + nameLength + 1)) in Hvar by lia.
        rewrite !Hsmall in Hvar by lia.
        destruct Hvar as [->| ->]; (apply error_within_simple; [lia|discriminate]).
    + destruct (IsNumberPart ch).
      * apply throws_within_bindM; [|intros [num offset2] st2 _; discriminate].
        intros e He. apply ScanNumber_Throw in He as ->.
        apply error_within_simple; [lia|discriminate].
      * intros e [= <-]. apply error_within_simple; [lia|discriminate].
  - intros offset length i scanEvaluated tokenized st Hoffset Hlength Hend Hi.
    rewrite Tokenize_S. unfold Tokenize_body, sz_add, sz_sub.
    rewrite (Hsmall (offset + length)), (Hsmall (length + offset))
      by lia.
    destruct (i <? offset + length) eqn:E; [|discriminate].
    apply Z.ltb_lt in E. rewrite Hsmall by lia.
    apply throws_within_bindM.
    + destruct scanEvaluated; [apply IHS; lia|].
      intros e He. apply ScanOperator_Throw in He as [-> [ch Hch]].
      apply char_at_Ok in Hch. 
      unfold sz_add, sz_sub. rewrite (Hsmall (i + 1)), Hsmall by lia.
      apply error_within_simple; [lia|discriminate].
    + intros [token i'] st1 Hscan.
      assert (Hi' : i < i' <= Z.of_nat (List.length func)).
      { destruct scanEvaluated.
        - apply (ScanEvaluated_progress func Hfunc) in Hscan; lia.
        - apply liftM_Ok_inv in Hscan as [Hscan _].
          apply ScanOperator_progress in Hscan; [lia|exact Hsize]. }
      apply IHT; lia.
Qed.
End ErrorOffsets.

(** X17: an exception of [Parse] points into the text it was given, white
    space left out: its offset is between 0 and the number of characters
    that are not white space (so [what()] names a position from 1 to that
    number plus one), and its kind is never InvalidVariableIndex. *)
Theorem Parse_error_within_text (function : string) (st st' : FunctionParser)
    (e : FuncParseExcept.t)
    (Hsize : Z.of_nat (String.length function) < 2 ^ 62)
    (Hthrow : Parse function st = (Throw e, st')) :
  0 <= FuncParseExcept.m_errorOffset e
    <= Z.of_nat (length (StripWhitespace function))
  /\ FuncParseExcept.m_foundError e <> FuncParseExcept.InvalidVariableIndex.
Proof.
  pose proof (StripWhitespace_length function) as Hstrip.
  rewrite Parse_unfold in Hthrow. cbv zeta in Hthrow.
  set (input := StripWhitespace function) in *.
  assert (Hinput : Z.of_nat (length input) < 2 ^ 62) by lia.
  pose proof (proj1 (parser_throws_within input Hinput (ParseFuel input)) 0
                (Z.of_nat (length input)) FunctionParser_new) as Hrun.
  destruct (ParsePart _ _ _ _ _) as [[output| | |] st1]; try discriminate.
  injection Hthrow as <- _. apply Hrun; [lia|lia|lia|reflexivity].
Qed.

Lemma Parse_error_within_text_witness :
  Parse " ( z + 1 " FunctionParser_new =
    (Throw (FuncParseExcept FuncParseExcept.OpenBraces 1),
     mkFunctionParser ∅ Extended "" None)
  /\ 0 <= 1 <= Z.of_nat (length (StripWhitespace " ( z + 1 "))
  /\ FuncParseExcept.OpenBraces <> FuncParseExcept.InvalidVariableIndex.
Proof.
  split; [vm_compute; reflexivity|].
  apply (Parse_error_within_text " ( z + 1 " FunctionParser_new
           (mkFunctionParser ∅ Extended "" None)
           (FuncParseExcept FuncParseExcept.OpenBraces 1));
    vm_compute; reflexivity.
Defined.

(** *** A minus sign at the start *)

(** X18: a minus sign at the start of the text belongs to a numeric literal:
    unless a digit or a decimal point follows it, the text is rejected
    with UnexpectedSymbol at offset 0, so [-z] and [-(1+z)] are not read as
    negations. *)
Theorem Parse_minus_needs_number (function : string) (rest : list ascii)
    (st : FunctionParser)
    (Hinput : StripWhitespace function = "-"%char :: rest)
    (Hsize : Z.of_nat (length rest) + 1 < 2 ^ SIZE_WIDTH)
    (Hdigit : IsDigit (name_at rest 0) = false)
    (Hpoint : char_eqb (name_at rest 0) "." = false) :
  Parse function st =
    (Throw (FuncParseExcept FuncParseExcept.UnexpectedSymbol 0), FunctionParser_new).
Proof.
  apply (Parse_first_operand function rest "-" st
           (Throw (FuncParseExcept FuncParseExcept.UnexpectedSymbol 0))
           FunctionParser_new Hinput).
  { rewrite length_cons. lia. }
  rewrite ScanEvaluated_S. unfold ScanEvaluated_body.
  rewrite char_at_head, bindM_liftM_Ok. cbv iota.
  change (char_eqb "(" "-") with false. change (IsLetter "-") with false.
  change (IsNumberPart "-") with true. cbv iota.
  unfold bindM at 1, liftM, ScanNumber.
  rewrite char_at_head. cbn [bindO]. change (char_eqb "-" "-") with true. cbv iota.
  change (sz_add 0 1) with 1.
  assert (Hptr : ptr_add ("-"%char :: rest) 1 = Ok rest).
  { unfold ptr_add. rewrite length_cons.
    replace (_ && _) with true; [reflexivity|].
    symmetry. apply andb_true_iff. split; apply Z.leb_le; lia. }
  rewrite Hptr. cbn [bindO].
  assert (Hnext : char_at ("-"%char :: rest) 1 = Ok (name_at rest 0)).
  { change ("-"%char :: rest) with (["-"%char] ++ rest).
    exact (char_at_app_r ["-"%char] rest). }
  assert (Hwhole : ScanNumber_whole rest 0 1 false = (0%float, 1, false)).
  { destruct rest as [|ch rest]; [reflexivity|].
    unfold name_at in Hdigit. simpl in Hdigit. simpl. rewrite Hdigit. reflexivity. }
  rewrite Hwhole, Hnext. cbn [bindO]. rewrite Hpoint. reflexivity.
Qed.

Lemma Parse_minus_needs_number_witness :
  Parse "- z" FunctionParser_new =
    (Throw (FuncParseExcept FuncParseExcept.UnexpectedSymbol 0), FunctionParser_new).
Proof.
  apply (Parse_minus_needs_number "- z" (c_str "z")); vm_compute; reflexivity.
Defined.

(** ** The used variables of an accepted text *)

(** *** Every token ends in the tree *)

Lemma inert_mono q q' e : q' <= q -> inert q e -> inert q' e.
Proof. intros Hle He q'' Hq. apply He. lia. Qed.

Lemma inert_folded q name lhs rhs : inert (q - 1) (Operator name lhs rhs q).
Proof. intros q' Hq. apply operator_at_other. lia. Qed.

Lemma operator_at_precedence q e name p :
  operator_at q e = Some (name, p) -> p = q.
Proof.
  destruct e as [| | |name' p0 p1 prec]; simpl; try discriminate.
  destruct (prec =? q) eqn:E; [|discriminate]. intros [= _ <-].
  apply Z.eqb_eq, E.
Qed.

Lemma stuck_pass q pending : forall reduced l,
  compaction_pass q reduced pending = Ok l ->
  stuck q reduced pending -> tainted (q - 1) l.
Proof.
  induction pending as [pending IH] using (induction_ltof1 _ (@length _)).
  unfold ltof in IH. intros reduced l.
  destruct pending as [|tok pending]; cbn [compaction_pass].
  { intros [= <-] (k & x & Hodd & Hk & Hx). rewrite app_nil_r in Hk.
    exists k, x. split; [exact Hodd|]. split; [exact Hk|].
    apply lookup_lt_Some in Hk. rewrite length_rev in Hk.
    destruct Hx as [[_ Hx]|[Hge _]]; [exact Hx|lia]. }
  destruct (operator_at q tok) as [[name p]|] eqn:Hop.
  - destruct reduced as [|lhs reduced]; [discriminate|].
    destruct pending as [|rhs pending]; [discriminate|].
    intros Hrun (k & x & Hodd & Hk & Hx).
    apply (IH pending ltac:(simpl; lia) _ _ Hrun). clear IH Hrun.
    pose proof (operator_at_precedence _ _ _ _ Hop) as ->.
    unfold stuck. cbn [rev length] in *. rewrite <- app_assoc in Hk. cbn [app] in Hk.
    set (s := length reduced) in *.
    assert (Hs : length (rev reduced) = s) by apply length_rev.
    destruct (decide (k < s)%nat) as [Hlt|Hge].
    { exists k, x. split; [exact Hodd|]. split.
      - rewrite <- app_assoc. rewrite lookup_app_l in Hk |- * by lia. exact Hk.
      - left. split; [lia|]. destruct Hx as [[_ Hx]|[Hle _]]; [exact Hx|lia]. }
    destruct (decide (k <= s + 2)%nat) as [Hnear|Hfar].
    { (* the token is folded into the new node *)
      assert (Hnot : k <> S s).
      { intros ->. rewrite lookup_app_r in Hk by lia.
        replace (S s - length (rev reduced))%nat with 1%nat in Hk by lia.
        injection Hk as <-. destruct Hx as [[Hlt _]|[_ Hx]]; [lia|].
        rewrite Hx in Hop by lia. discriminate. }
      assert (Hsodd : Nat.odd s = true).
      { destruct (decide (k = s)) as [->|]; [exact Hodd|].
        replace k with (S (S s)) in Hodd by lia.
        rewrite !Nat.odd_succ, Nat.even_succ in Hodd. exact Hodd. }
      exists s, (Operator name (Some lhs) (Some rhs) q). split; [exact Hsodd|].
      split.
      - rewrite <- app_assoc. rewrite lookup_app_r by lia.
        rewrite Hs, Nat.sub_diag. reflexivity.
      - left. split; [lia|apply inert_folded]. }
    exists (k - 2)%nat, x. split.
    { destruct k as [|[|k]]; [lia|lia|].
      rewrite !Nat.odd_succ, Nat.even_succ in Hodd.
      replace (S (S k) - 2)%nat with k by lia. exact Hodd. }
    split.
    + rewrite <- app_assoc. rewrite lookup_app_r in Hk |- * by lia.
      rewrite Hs in *.
      replace (k - s)%nat with (S (S (S (k - s - 3)))) in Hk by lia.
      replace (k - 2 - s)%nat with (S (k - s - 3)) by lia.
      exact Hk.
    + right. split; [lia|]. destruct Hx as [[Hlt _]|[_ Hx]]; [lia|exact Hx].
  - intros Hrun (k & x & Hodd & Hk & Hx).
    apply (IH pending ltac:(simpl; lia) _ _ Hrun). clear IH Hrun.
    unfold stuck. exists k, x. split; [exact Hodd|]. split.
    + cbn [rev]. rewrite <- app_assoc. exact Hk.
    + cbn [length]. destruct Hx as [[Hlt Hx]|[Hle Hx]]; [left; split; [lia|exact Hx]|].
      destruct (decide (k = length reduced)) as [->|Hne].
      * left. split; [lia|]. apply (inert_mono q); [lia|exact Hx].
      * right. split; [lia|exact Hx].
Qed.

Lemma tainted_stuck q l : tainted q l -> stuck q [] l.
Proof.
  intros (k & x & Hodd & Hk & Hx). exists k, x. split; [exact Hodd|].
  split; [exact Hk|]. right. split; [simpl; lia|exact Hx].
Qed.

Lemma tainted_length q l : tainted q l -> (2 <= length l)%nat.
Proof.
  intros (k & x & Hodd & Hk & _). apply lookup_lt_Some in Hk.
  destruct k; [discriminate|lia].
Qed.

Lemma clean_app q l1 : forall operand l2,
  clean q operand (l1 ++ l2) <->
  clean q operand l1
  /\ clean q (if Nat.even (length l1) then operand else negb operand) l2.
Proof.
  induction l1 as [|x l1 IH]; intros operand l2.
  - simpl. tauto.
  - cbn [app clean length]. rewrite IH, Nat.even_succ, <- Nat.negb_even.
    destruct (Nat.even (length l1)); simpl; rewrite ?negb_involutive; tauto.
Qed.

Lemma is_fresh_variables q e : is_fresh q e = true -> variables e = ∅.
Proof.
  destruct e as [| | |name [|] [|] p]; try discriminate. intros _.
  simpl. apply union_empty_l_L.
Qed.

Lemma is_fresh_lower q e :
  is_fresh q e = true -> operator_at q e = None -> is_fresh (q - 1) e = true.
Proof.
  destruct e as [| | |name [|] [|] p]; try discriminate. simpl.
  intros [Hlow Hhigh]%andb_true_iff. destruct (p =? q) eqn:E; [discriminate|].
  intros _. apply andb_true_iff. apply Z.eqb_neq in E.
  split; [exact Hlow|apply Z.leb_le; apply Z.leb_le in Hhigh; lia].
Qed.

Lemma all_variables_app l1 l2 :
  all_variables (l1 ++ l2) = all_variables l1 ∪ all_variables l2.
Proof. unfold all_variables. rewrite fmap_app. apply union_list_app_L. Qed.

Lemma all_variables_cons x l : all_variables (x :: l) = variables x ∪ all_variables l.
Proof. reflexivity. Qed.

Lemma clean_pass q pending : forall reduced l,
  compaction_pass q reduced pending = Ok l ->
  clean (q - 1) true (rev reduced) ->
  clean q (Nat.even (length reduced)) pending ->
  clean (q - 1) true l /\ all_variables l = all_variables (rev reduced ++ pending)
  \/ tainted (q - 1) l.
Proof.
  induction pending as [pending IH] using (induction_ltof1 _ (@length _)).
  unfold ltof in IH. intros reduced l.
  destruct pending as [|tok pending]; cbn [compaction_pass].
  { intros [= <-] Hreduced _. left. rewrite app_nil_r. auto. }
  destruct (operator_at q tok) as [[name p]|] eqn:Hop.
  - destruct reduced as [|lhs reduced]; [discriminate|].
    destruct pending as [|rhs pending]; [discriminate|].
    intros Hrun Hreduced Hpending.
    pose proof (operator_at_precedence _ _ _ _ Hop) as ->.
    cbn [rev length] in *.
    destruct (Nat.even (S (length reduced))) eqn:Hparity.
    + (* an operand of tier [q] is taken for an operator *)
      right. apply (stuck_pass _ _ _ _ Hrun). unfold stuck.
      exists (length reduced), (Operator name (Some lhs) (Some rhs) q).
      split; [rewrite Nat.even_succ in Hparity; exact Hparity|]. split.
      * cbn [rev]. rewrite <- app_assoc, lookup_app_r by (rewrite length_rev; lia).
        rewrite length_rev, Nat.sub_diag. reflexivity.
      * left. split; [simpl; lia|apply inert_folded].
    + cbn [clean] in Hpending. destruct Hpending as (Htok & _ & Hrest).
      specialize (Htok eq_refl). cbn [negb] in Hrest.
      apply clean_app in Hreduced as [Hprefix _].
      destruct (IH pending ltac:(simpl; lia) _ _ Hrun) as [[Hclean Hvars]|Htainted];
        [| |left|right; exact Htainted].
      * cbn [rev]. apply clean_app. split; [exact Hprefix|].
        rewrite length_rev. rewrite Nat.even_succ, <- Nat.negb_even in Hparity.
        apply negb_false_iff in Hparity. rewrite Hparity. simpl. auto.
      * cbn [length]. rewrite Hparity. exact Hrest.
      * split; [exact Hclean|]. rewrite Hvars. cbn [rev].
        rewrite <- !app_assoc. cbn [app].
        rewrite !all_variables_app, !all_variables_cons.
        rewrite (is_fresh_variables _ _ Htok). simpl.
        rewrite union_empty_l_L, !assoc_L by apply _. reflexivity.
  - intros Hrun Hreduced Hpending. cbn [clean] in Hpending.
    destruct Hpending as (Htok & Hrest).
    destruct (IH pending ltac:(simpl; lia) _ _ Hrun) as [[Hclean Hvars]|Htainted];
      [| |left|right; exact Htainted].
    + cbn [rev]. apply clean_app. split; [exact Hreduced|].
      rewrite length_rev. destruct (Nat.even (length reduced)); simpl.
      * split; [discriminate|exact I].
      * split; [|exact I]. intros _.
        apply is_fresh_lower; [apply Htok; reflexivity|exact Hop].
    + cbn [length]. rewrite Nat.even_succ, <- Nat.negb_even. exact Hrest.
    + split; [exact Hclean|]. rewrite Hvars. cbn [rev]. rewrite <- app_assoc.
      reflexivity.
Qed.

Lemma clean_below_zero l : clean (-1) true l -> (length l <= 1)%nat.
Proof.
  destruct l as [|x [|y l]]; simpl; try lia.
  intros (_ & Hy & _). specialize (Hy eq_refl).
  destruct y as [| | |name [|] [|] p]; try discriminate. simpl in Hy.
  apply andb_true_iff in Hy as [Hlow Hhigh]. apply Z.leb_le in Hlow, Hhigh. lia.
Qed.

(** The root of three passes over a scanned vector has the variables of
    all its tokens. *)
Lemma three_passes_exact tokens root :
  three_passes tokens = Ok [root] ->
  clean 2 true tokens ->
  variables root = all_variables tokens.
Proof.
  unfold three_passes. intros Hrun Hclean.
  destruct (compaction_pass 2 [] tokens) as [l2| | |] eqn:H2; try discriminate.
  cbn [bindO] in Hrun.
  destruct (compaction_pass 1 [] l2) as [l1| | |] eqn:H1; try discriminate.
  cbn [bindO] in Hrun.
  assert (Hfail : forall q l, tainted q l -> q <= 1 ->
            forall l', compaction_pass q [] l = Ok l' -> tainted (q - 1) l').
  { intros q l Hl _ l' Hl'. eapply stuck_pass; [exact Hl'|apply tainted_stuck, Hl]. }
  assert (Hend : tainted (-1) [root] -> False).
  { intros Ht. apply tainted_length in Ht. simpl in Ht. lia. }
  destruct (clean_pass 2 tokens [] l2 H2 I Hclean) as [[Hc2 Hv2]|Ht2].
  2:{ exfalso. apply Hend.
      apply (Hfail 0 l1); [|lia|exact Hrun]. apply (Hfail 1 l2); [exact Ht2|lia|exact H1]. }
  destruct (clean_pass 1 l2 [] l1 H1 I Hc2) as [[Hc1 Hv1]|Ht1].
  2:{ exfalso. apply Hend. apply (Hfail 0 l1); [exact Ht1|lia|exact Hrun]. }
  destruct (clean_pass 0 l1 [] [root] Hrun I Hc1) as [[_ Hv0]|Ht0].
  2:{ exfalso. apply Hend, Ht0. }
  simpl in Hv0, Hv1, Hv2. rewrite <- Hv2, <- Hv1, <- Hv0.
  unfold all_variables. simpl. rewrite union_empty_r_L. reflexivity.
Qed.

Lemma ScanVariable_exact name offset st funcElem st' :
  ScanVariable name offset st = (Ok funcElem, st') ->
  m_usedVariables st' = m_usedVariables st ∪ variables funcElem.
Proof.
  unfold ScanVariable.
  destruct (String.eqb _ "i").
  { intros [= <- <-]. simpl. rewrite union_empty_r_L. reflexivity. }
  destruct (String.eqb _ "c").
  { intros [= <- <-]. simpl. apply union_comm_L. }
  destruct (char_eqb _ "z"); [|discriminate].
  destruct (_ || _); [discriminate|].
  intros (index & st1 & [_ ->]%liftM_Ok_inv & [= <- <-])%bindM_Ok_inv.
  simpl. apply union_comm_L.
Qed.

Lemma ScanOperator_fresh func offset token offset' :
  ScanOperator func offset = Ok (token, offset') ->
  exists e, token = Some e /\ is_fresh 2 e = true.
Proof.
  unfold ScanOperator.
  destruct (char_at func offset) as [ch| | |]; cbn [bindO]; try discriminate.
  repeat (destruct (char_eqb ch _);
          [intros [= <- _]; eexists; split; reflexivity|]).
  discriminate.
Qed.

Lemma Reduce_exact tokens v output :
  Z.of_nat (length tokens) < 2 ^ SIZE_WIDTH ->
  clean 2 true tokens ->
  Reduce (Some <$> tokens) = Ok (v, 1) ->
  vec_at v 0 = Ok output ->
  exists root, output = Some root /\ variables root = all_variables tokens.
Proof.
  intros Hsize Hclean Hrun Hroot.
  pose proof (Reduce_refines tokens Hsize) as Href.
  destruct (three_passes tokens) as [l| | |] eqn:Hpasses; try contradiction.
  - destruct Href as (v0 & Hrun0 & Hholds).
    rewrite Hrun in Hrun0. injection Hrun0 as <- Hlen.
    destruct l as [|root [|? ?]]; simpl in Hlen; try lia.
    exists root. split; [|apply three_passes_exact; assumption].
    pose proof (vec_at_nat v 0 (Some root) (Hholds 0%nat root eq_refl)) as Hat.
    change (Z.of_nat 0) with 0 in Hat. congruence.
  - congruence.
Qed.

Section Exact.
Variable func : list ascii.
Hypothesis Hfunc : Z.of_nat (length func) < 2 ^ 62.

(** What a scan adds to the used variables is what its tokens hold. *)
Lemma parser_exact fuel :
  (forall offset length st output st',
      0 <= offset -> 0 <= length ->
      offset + length <= Z.of_nat (List.length func) ->
      ParsePart fuel func offset length st = (Ok output, st') ->
      exists root, output = Some root
        /\ m_usedVariables st' = m_usedVariables st ∪ variables root)
  /\ (forall offset length st token offset' st',
        0 <= length <= Z.of_nat (List.length func) ->
        ScanEvaluated fuel func offset length st = (Ok (token, offset'), st') ->
        exists e, token = Some e
          /\ m_usedVariables st' = m_usedVariables st ∪ variables e)
  /\ (forall offset length i scanEvaluated tokenized st tokens scanEvaluated' st'
             l base,
        0 <= offset -> 0 <= length ->
        offset + length <= Z.of_nat (List.length func) -> 0 <= i ->
        Tokenize fuel func offset length i scanEvaluated tokenized st =
          (Ok (tokens, scanEvaluated'), st') ->
        tokenized = Some <$> l ->
        clean 2 true l ->
        scanEvaluated = Nat.even (List.length l) ->
        m_usedVariables st = base ∪ all_variables l ->
        exists l', tokens = Some <$> l'
          /\ clean 2 true l'
          /\ m_usedVariables st' = base ∪ all_variables l').
Proof.
  assert (Hsize : Z.of_nat (List.length func) < 2 ^ SIZE_WIDTH - 2)
    by (change (2 ^ SIZE_WIDTH) with (4 * 2 ^ 62); lia).
  induction fuel as [|fuel (IHP & IHS & IHT)]; [split; [|split]; discriminate|].
  split; [|split].
  - intros offset length st output st' Hoffset Hlength Hend.
    rewrite ParsePart_S. unfold ParsePart_body.
    destruct (length =? 0); [discriminate|].
    intros ([tokens scanEvaluated] & st1 & Htokens & Hrun)%bindM_Ok_inv.
    pose proof (Tokenize_length func Hfunc _ _ _ _ _ _ _ _ _ _
                  Hoffset Hlength Hend Hoffset Htokens) as Hcount.
    simpl in Hcount.
    apply (IHT _ _ _ _ _ _ _ _ _ [] (m_usedVariables st)) in Htokens
      as (l & -> & Hclean & Hused);
      [|lia|lia|lia|lia|reflexivity|exact I|reflexivity
       |unfold all_variables; simpl; rewrite union_empty_r_L; reflexivity].
    destruct scanEvaluated; [discriminate|].
    destruct (bool_decide _); [discriminate|].
    apply bindM_Ok_inv in Hrun as ([v count] & st2 & [Hreduce ->]%liftM_Ok_inv & Hrun).
    destruct (1 =? count) eqn:Hone; [|discriminate]. apply Z.eqb_eq in Hone as <-.
    apply liftM_Ok_inv in Hrun as [Hroot ->].
    rewrite length_fmap in Hcount.
    destruct (Reduce_exact l v output) as (root & -> & Hvars); auto.
    { change (2 ^ SIZE_WIDTH) with (4 * 2 ^ 62). lia. }
    exists root. split; [reflexivity|]. rewrite Hvars. exact Hused.
  - intros offset length st token offset' st' Hlength.
    rewrite ScanEvaluated_S. unfold ScanEvaluated_body.
    intros (ch & st1 & [Hch ->]%liftM_Ok_inv & Hrun)%bindM_Ok_inv.
    pose proof (char_at_Ok _ _ _ Hch) as Hoffset.
    destruct (char_eqb "(" ch) eqn:Hparen.
    { apply char_eqb_eq in Hparen. subst ch.
      apply char_at_Ok_lt in Hch; [|discriminate].
      unfold sz_add at 1 2 in Hrun.
      rewrite (size_t_func func Hfunc (offset + 1)) in Hrun by lia.
      apply bindM_Ok_inv in Hrun as (bracedLength & st2 & [Hbraces ->]%liftM_Ok_inv & Hrun).
      apply CountBetweenBraces_Ok in Hbraces;
        [|lia|lia|lia|change (2 ^ SIZE_WIDTH) with (4 * 2 ^ 62); lia].
      apply bindM_Ok_inv in Hrun as (inner & st3 & Hinner & [= <- _ <-]).
      apply IHP in Hinner; [exact Hinner|lia..]. }
    destruct (IsLetter ch).
    + apply bindM_Ok_inv in Hrun as (start & st2 & [_ ->]%liftM_Ok_inv & Hrun).
      apply bindM_Ok_inv in Hrun as (next & st3 & [_ ->]%liftM_Ok_inv & Hrun).
      destruct (char_eqb next "(").
      * apply bindM_Ok_inv in Hrun as (n & st4 & Hname & Hrun).
        apply bindM_Ok_inv in Hrun as ([param offset2] & st5 & Hinner & [= <- _ <-]).
        apply GetFunctionNameApplyPrecision_usedVariables in Hname.
        apply IHS in Hinner as (e & -> & Hused); [|exact Hlength].
        exists (Function n (Some e)). split; [reflexivity|].
        rewrite Hused, Hname. reflexivity.
      * apply bindM_Ok_inv in Hrun as (elem & st4 & Hvar & [= <- _ <-]).
        apply ScanVariable_exact in Hvar. eauto.
    + destruct (IsNumberPart ch); [|discriminate].
      apply bindM_Ok_inv in Hrun as ([num offset2] & st2 & [_ ->]%liftM_Ok_inv
                                      & [= <- _ <-]).
      eexists. split; [reflexivity|]. simpl. rewrite union_empty_r_L. reflexivity.
  - intros offset length i scanEvaluated tokenized st tokens scanEvaluated' st' l base
      Hoffset Hlength Hend Hi.
    rewrite Tokenize_S. unfold Tokenize_body, sz_add, sz_sub.
    rewrite (size_t_func func Hfunc (offset + length)),
      (size_t_func func Hfunc (length + offset)) by lia.
    destruct (i <? offset + length) eqn:E.
    2:{ intros [= <- _ <-] -> Hclean _ Hused. eauto. }
    apply Z.ltb_lt in E. rewrite (size_t_func func Hfunc) by lia.
    intros ([token i'] & st1 & Hscan & Hrun)%bindM_Ok_inv -> Hclean -> Hused.
    assert (Hi' : i < i' <= Z.of_nat (List.length func)).
    { destruct (Nat.even (List.length l)).
      - apply (ScanEvaluated_progress func Hfunc) in Hscan; lia.
      - apply liftM_Ok_inv in Hscan as [Hscan _].
        apply ScanOperator_progress in Hscan; [lia|exact Hsize]. }
    assert (Htoken : exists e, token = Some e
              /\ clean 2 true (l ++ [e])
              /\ m_usedVariables st1 = base ∪ all_variables (l ++ [e])).
    { destruct (Nat.even (List.length l)) eqn:Hparity.
      - apply IHS in Hscan as (e & -> & Hused1); [|lia].
        exists e. split; [reflexivity|]. split.
        + apply clean_app. split; [exact Hclean|]. rewrite Hparity. simpl.
          split; [discriminate|exact I].
        + rewrite Hused1, Hused, all_variables_app, all_variables_cons.
          unfold all_variables at 3. simpl.
          rewrite union_empty_r_L, assoc_L by apply _. reflexivity.
      - apply liftM_Ok_inv in Hscan as [Hscan ->].
        apply ScanOperator_fresh in Hscan as (e & -> & Hfresh).
        exists e. split; [reflexivity|]. split.
        + apply clean_app. split; [exact Hclean|]. rewrite Hparity. simpl. auto.
        + rewrite Hused, all_variables_app, all_variables_cons.
          rewrite (is_fresh_variables _ _ Hfresh).
          unfold all_variables at 3. simpl.
          rewrite !union_empty_r_L. reflexivity. }
    destruct Htoken as (e & -> & Hclean' & Hused').
    apply (IHT _ _ _ _ _ _ _ _ _ (l ++ [e]) base) in Hrun;
      [exact Hrun|lia..| | | |].
    + rewrite fmap_app. reflexivity.
    + exact Hclean'.
    + rewrite length_app, Nat.add_1_r, Nat.even_succ, <- Nat.negb_even. reflexivity.
    + exact Hused'.
Qed.
End Exact.

(** X19: after a successful [Parse], [UsedVariables] is exactly the set of
    the [Variable] indices of the stored tree: no token of the text is
    lost on the way to the root, and the evaluator gets a slot for each
    variable of the tree and no other. *)
Theorem Parse_UsedVariables_exact (function : string) (st st' : FunctionParser)
    (Hsize : Z.of_nat (String.length function) < 2 ^ 62)
    (HParse : Parse function st = (Ok tt, st')) :
  exists root, PseudoCode st' = Some root /\ UsedVariables st' = variables root.
Proof.
  pose proof (StripWhitespace_length function) as Hstrip.
  rewrite Parse_unfold in HParse. cbv zeta in HParse.
  set (input := StripWhitespace function) in *.
  assert (Hinput : Z.of_nat (length input) < 2 ^ 62) by lia.
  destruct (ParsePart _ _ _ _ _) as [[output| | |] st1] eqn:Hrun; try discriminate.
  apply (proj1 (parser_exact input Hinput _)) in Hrun as (root & -> & Hused);
    [|lia..].
  injection HParse as <-. exists root. split; [reflexivity|].
  unfold UsedVariables. simpl. rewrite Hused. apply union_empty_l_L.
Qed.

Lemma Parse_UsedVariables_exact_witness :
  exists root,
    PseudoCode (Parse "z2*sin(c)-z2/i" FunctionParser_new).2 = Some root
    /\ UsedVariables (Parse "z2*sin(c)-z2/i" FunctionParser_new).2 = variables root.
Proof.
  apply (Parse_UsedVariables_exact "z2*sin(c)-z2/i" FunctionParser_new);
    vm_compute; reflexivity.
Defined.

(** ** What follows the first operand *)

(** *** An operand and what follows it *)

Lemma Tokenize_leading_variable fuel name rest length st :
  IsLetter (name_at name 0) = true ->
  forallb IsNamePart name = true ->
  IsNamePart (name_at rest 0) = false ->
  char_eqb (name_at rest 0) "(" = false ->
  0 < length -> Z.of_nat (List.length name) <= length < 2 ^ SIZE_WIDTH ->
  Tokenize (S (S fuel)) (name ++ rest) 0 length 0 true [] st =
    bindM (ScanVariable name (name_length name))
      (fun funcElem =>
         Tokenize (S fuel) (name ++ rest) 0 length (name_length name) false
           [Some funcElem]) st.
Proof.
  intros Hletter Hname Hrest Hparen Hpos Hlength.
  rewrite Tokenize_first_operand by lia. unfold bindM at 1.
  rewrite ScanEvaluated_leading_name by assumption.
  unfold bindM. destruct (ScanVariable _ _ _) as [[funcElem| | |] st1]; reflexivity.
Qed.

(** X20: a character behind the first variable that is neither an operator
    nor part of the name nor [(] is rejected with OperatorExpected at its
    offset ([z)], [c,1], [z=1]). *)
Theorem Parse_operator_expected (function : string) (name rest : list ascii)
    (ch : ascii) (st : FunctionParser)
    (Hinput : StripWhitespace function = name ++ ch :: rest)
    (Hsize : Z.of_nat (length (name ++ ch :: rest)) < 2 ^ SIZE_WIDTH)
    (Hletter : IsLetter (name_at name 0) = true)
    (Hname : forallb IsNamePart name = true)
    (Hvariable : is_variable_name name = true)
    (Hpart : IsNamePart ch = false)
    (Hparen : char_eqb ch "(" = false)
    (Hoperator : is_operator_char ch = false) :
  (Parse function st).1 =
    Throw (FuncParseExcept FuncParseExcept.OperatorExpected
             (Z.of_nat (length name))).
Proof.
  destruct (ScanVariable_accepts name (name_length name) FunctionParser_new Hvariable)
    as (funcElem & st1 & Hvar).
  assert (Hlen : Z.of_nat (length (name ++ ch :: rest))
                 = Z.of_nat (length name) + 1 + Z.of_nat (length rest))
    by (rewrite length_app, length_cons; lia).
  assert (Hpos : (1 <= length name)%nat)
    by (destruct name; [discriminate|simpl; lia]).
  rewrite Parse_unfold, Hinput. cbv zeta.
  replace (ParseFuel (name ++ ch :: rest))
    with (S (S (S (S (4 * length (name ++ ch :: rest))))))%nat
    by (unfold ParseFuel; lia).
  rewrite ParsePart_S. unfold ParsePart_body.
  replace (_ =? 0) with false by (symmetry; apply Z.eqb_neq; lia).
  unfold bindM at 1.
  rewrite Tokenize_leading_variable; [|assumption..|lia|lia].
  unfold bindM at 1. rewrite Hvar.
  unfold name_length.
  rewrite Tokenize_step by lia. unfold bindM at 1, liftM at 1.
  rewrite (ScanOperator_other _ _ ch); [|apply char_at_app_r|exact Hoperator].
  unfold sz_add, sz_sub. rewrite (size_t_small (_ + 1)) by lia.
  rewrite size_t_small by lia. simpl. f_equal. f_equal. lia.
Qed.

Lemma Parse_operator_expected_witness :
  (Parse "z12 ) + 1" FunctionParser_new).1 =
    Throw (FuncParseExcept FuncParseExcept.OperatorExpected 3).
Proof.
  apply (Parse_operator_expected "z12 ) + 1" (c_str "z12") (c_str "+1") ")");
    vm_compute; reflexivity.
Defined.

(** X21: a text that is a variable and one operator is rejected with
    DanglingOperator at the offset of the operator ([z+], [c^]). *)
Theorem Parse_dangling_operator (function : string) (name : list ascii)
    (op : ascii) (st : FunctionParser)
    (Hinput : StripWhitespace function = name ++ [op])
    (Hsize : Z.of_nat (length (name ++ [op])) < 2 ^ SIZE_WIDTH)
    (Hletter : IsLetter (name_at name 0) = true)
    (Hname : forallb IsNamePart name = true)
    (Hvariable : is_variable_name name = true)
    (Hoperator : is_operator_char op = true) :
  (Parse function st).1 =
    Throw (FuncParseExcept FuncParseExcept.DanglingOperator
             (Z.of_nat (length name))).
Proof.
  destruct (ScanVariable_accepts name (name_length name) FunctionParser_new Hvariable)
    as (funcElem & st1 & Hvar).
  destruct (is_operator_char_scan op Hoperator) as (Hpart & Hparen & node & Hscan).
  assert (Hlen : Z.of_nat (length (name ++ [op])) = Z.of_nat (length name) + 1)
    by (rewrite length_app; simpl; lia).
  assert (Hpos : (1 <= length name)%nat)
    by (destruct name; [discriminate|simpl; lia]).
  rewrite Parse_unfold, Hinput. cbv zeta.
  replace (ParseFuel (name ++ [op]))
    with (S (S (S (S (4 * length (name ++ [op]))))))%nat
    by (unfold ParseFuel; lia).
  rewrite ParsePart_S. unfold ParsePart_body.
  replace (_ =? 0) with false by (symmetry; apply Z.eqb_neq; lia).
  unfold bindM at 1.
  rewrite Tokenize_leading_variable; [|assumption..|lia|lia].
  unfold bindM at 1. rewrite Hvar.
  unfold name_length.
  rewrite Tokenize_step by lia. unfold bindM at 1, liftM at 1.
  rewrite (Hscan _ _ (char_at_app_r name [op])).
  unfold sz_add at 1. rewrite size_t_small by lia.
  rewrite <- Hlen. rewrite Tokenize_at_end by lia.
  unfold sz_add, sz_sub. rewrite Z.add_0_l, (size_t_small (Z.of_nat _)) by lia.
  rewrite size_t_small by lia. simpl. f_equal. f_equal. lia.
Qed.

Lemma Parse_dangling_operator_witness :
  (Parse "z3 ^" FunctionParser_new).1 =
    Throw (FuncParseExcept FuncParseExcept.DanglingOperator 2).
Proof.
  apply (Parse_dangling_operator "z3 ^" (c_str "z3") "^"); vm_compute; reflexivity.
Defined.

(** *** An evaluator without a tree *)

Section NoTree.
Context {NumberT : Type} `{NumberType NumberT}.

(** X22: the constructor of the evaluator dereferences [PseudoCode()]
    without a test: on a parser whose last [Parse] threw the pointer is
    null, and the construction has no defined behaviour. *)
Theorem FunctionEvaluator_without_tree (function : string)
    (st st' : FunctionParser) (e : FuncParseExcept.t)
    (Hthrow : Parse function st = (Throw e, st')) :
  FunctionEvaluator_new (NumberT := NumberT) st' = Undefined.
Proof.
  rewrite Parse_unfold in Hthrow. cbv zeta in Hthrow.
  destruct (ParsePart _ _ _ _ _) as [[output| | |] st1] eqn:Hrun; try discriminate.
  injection Hthrow as _ <-.
  destruct (preserves_ParsePart _ _ _ _ _ _ _ Hrun) as [_ Hroot _ _ _].
  unfold FunctionEvaluator_new, PseudoCode. rewrite Hroot. reflexivity.
Qed.
End NoTree.

Lemma FunctionEvaluator_without_tree_witness :
  FunctionEvaluator_new (H := complex_double small_power_library)
    (Parse "z+" FunctionParser_new).2 = Undefined.
Proof.
  apply (FunctionEvaluator_without_tree (H := complex_double small_power_library)
           "z+" FunctionParser_new (Parse "z+" FunctionParser_new).2
           (FuncParseExcept FuncParseExcept.DanglingOperator 1)).
  vm_compute. reflexivity.
Defined.

(** *** The table of function names, printed and scanned *)

(** X23: the name [Print] writes for a function is the name
    [GetFunctionNameApplyPrecision] looks up: for each of the thirteen
    functions, the printed call on [z] is parsed back to the same node,
    and the precision ends at [Single] unless the function is [pos], [re]
    or [im]. *)
Theorem Parse_Print_function (print_double : float -> string)
    (name : FunctionName.t) (st : FunctionParser) :
  Parse (Print print_double (Function name (Some (Variable' 0)))) st =
    (Ok tt,
     mkFunctionParser {[ 0 ]}
       (if needs_full_precision name then Single else Extended)
       (Print print_double (Function name (Some (Variable' 0))))
       (Some (Function name (Some (Variable' 0))))).
Proof. rewrite Parse_unfold. destruct name; vm_compute; reflexivity. Qed.

(** ** Spans that start behind the start of the text *)

(** *** A name inside parentheses *)

Lemma CountNameLength_from_prefix name rest : forall i bound,
  forallb IsNamePart name = true ->
  0 <= i <= bound -> bound - i <= Z.of_nat (length name) ->
  bound < 2 ^ SIZE_WIDTH ->
  CountNameLength_from (name ++ rest) i bound = bound.
Proof.
  induction name as [|ch name IH]; intros i bound Hname Hi Hbound Hsize.
  - simpl in Hbound. assert (i = bound) by lia. subst i.
    destruct rest; simpl; rewrite Z.ltb_irrefl; reflexivity.
  - cbn [app CountNameLength_from]. cbn [forallb] in Hname.
    apply andb_true_iff in Hname as [Hch Hname].
    destruct (i <? bound) eqn:E; [|reflexivity]. apply Z.ltb_lt in E.
    rewrite Hch. unfold sz_add. rewrite size_t_small by lia.
    rewrite length_cons in Hbound. apply IH; auto; lia.
Qed.

Lemma char_at_drop (func : list ascii) j ch rest :
  0 <= j -> drop (Z.to_nat j) func = ch :: rest ->
  char_at func j = Ok ch /\ drop (Z.to_nat (j + 1)) func = rest.
Proof.
  intros Hj Hdrop. split.
  - unfold char_at. replace (j <? 0) with false by (symmetry; apply Z.ltb_ge; lia).
    pose proof (lookup_drop func (Z.to_nat j) 0) as Hlook.
    rewrite Hdrop, Nat.add_0_r in Hlook. simpl in Hlook. rewrite <- Hlook. reflexivity.
  - replace (Z.to_nat (j + 1)) with (Z.to_nat j + 1)%nat by lia.
    rewrite <- drop_drop, Hdrop. reflexivity.
Qed.

(** The brace matcher over characters that are no parentheses, up to the
    closing one. *)
Lemma CountBetweenBraces_loop_closes func offset : forall run n j rest,
  drop (Z.to_nat j) func = run ++ ")"%char :: rest ->
  forallb IsNamePart run = true ->
  0 <= offset <= j -> j + Z.of_nat (length run) + 1 < 2 ^ SIZE_WIDTH ->
  (length run < n)%nat ->
  CountBetweenBraces_loop n func offset 1 j = Ok (j + Z.of_nat (length run) - offset).
Proof.
  induction run as [|ch run IH]; intros n j rest Hdrop Hrun Hj Hsize Hn;
    (destruct n as [|n]; [simpl in Hn; lia|]);
    apply char_at_drop in Hdrop as [Hch Hdrop]; try lia;
    cbn [CountBetweenBraces_loop]; rewrite Hch; cbn [bindO].
  - change (char_eqb "(" ")") with false. change (char_eqb ")" ")") with true.
    cbv iota. change (sz_sub 1 1) with 0. change (0 =? 0) with true. cbv iota.
    unfold sz_sub. rewrite size_t_small by (simpl in Hsize; lia).
    simpl. f_equal. lia.
  - cbn [forallb] in Hrun. apply andb_true_iff in Hrun as [Hpart Hrun].
    assert (Hopen : char_eqb "(" ch = false).
    { destruct (char_eqb "(" ch) eqn:E; [|reflexivity].
      apply char_eqb_eq in E. subst ch. discriminate. }
    assert (Hclose : char_eqb ")" ch = false).
    { destruct (char_eqb ")" ch) eqn:E; [|reflexivity].
      apply char_eqb_eq in E. subst ch. discriminate. }
    rewrite Hopen, Hclose. rewrite length_cons in *.
    unfold sz_add. rewrite size_t_small by lia.
    rewrite (IH n (j + 1) rest Hdrop Hrun) by lia. f_equal. lia.
Qed.

(** [ScanEvaluated] on [(], a letter with digits and [)]: the span handed
    to [ParsePart] is the name, and the name is counted with the length of
    the span less the offset of the span. *)
Lemma ScanEvaluated_braced_name fuel (pre : list ascii) (first : ascii)
    (digits rest : list ascii) length st :
  let func := pre ++ "("%char :: first :: digits ++ ")"%char :: rest in
  let p := Z.of_nat (List.length pre) in
  let m := Z.of_nat (List.length digits) + 1 in
  let k := m - (p + 1) in
  IsLetter first = true -> (k <> 0 -> first = "z"%char) ->
  forallb IsDigit digits = true ->
  p + 1 <= m -> m < length -> p + length + 2 < 2 ^ SIZE_WIDTH ->
  (ScanEvaluated (S (S (S (S fuel)))) func p length st).1 =
    Throw
      (if k =? 0 then FuncParseExcept FuncParseExcept.UnexpectedSymbol (p + 2)
       else if z_suffix_accepted (take (Z.to_nat (k - 1)) digits)
            then FuncParseExcept FuncParseExcept.OperatorExpected m
            else FuncParseExcept FuncParseExcept.UnexpectedSymbol (p + 1)).
Proof.
  intros func p m k Hletter Hfirst Hdigits Hp Hm Hsize.
  assert (Hp0 : 0 <= p) by (unfold p; lia).
  assert (Hm_def : m = Z.of_nat (List.length digits) + 1) by reflexivity.
  assert (Hk_def : k = m - (p + 1)) by reflexivity.
  assert (Hname : forallb IsNamePart (first :: digits) = true).
  { cbn [forallb]. apply andb_true_iff. split.
    - unfold IsNamePart. rewrite Hletter. reflexivity.
    - apply forallb_IsDigit_IsNamePart, Hdigits. }
  assert (Hparen : char_at func p = Ok "("%char) by apply char_at_app_r.
  assert (Hdrop : drop (Z.to_nat (p + 1)) func
                  = first :: digits ++ ")"%char :: rest).
  { unfold func, p. replace (Z.to_nat (Z.of_nat (List.length pre) + 1))
      with (List.length pre + 1)%nat by lia.
    rewrite <- drop_drop, drop_app_length. reflexivity. }
  destruct (char_at_drop func (p + 1) _ _ ltac:(lia) Hdrop) as [Hz Hdrop'].
  assert (Hsmall : forall z, 0 <= z <= p + length + 2 -> size_t z = z)
    by (intros z Hz'; apply size_t_small; lia).
  (* the brace matcher *)
  assert (Hbraces : CountBetweenBraces func (p + 1) length = Ok m).
  { unfold CountBetweenBraces, sz_add.
    rewrite (Hsmall (p + 1 + length)), (Hsmall (p + 1 + 1)) by lia.
    rewrite (CountBetweenBraces_loop_closes func (p + 1) digits _ (p + 1 + 1) rest Hdrop');
      [f_equal; unfold m; lia|apply forallb_IsDigit_IsNamePart, Hdigits|lia|lia|lia]. }
  (* the name as it is scanned *)
  assert (Hscanned : scanned_name func (p + 1) m
                     = take (Z.to_nat k) (first :: digits)).
  { unfold scanned_name. cbv zeta. rewrite Hdrop.
    unfold sz_sub, CountNameLength. fold k. rewrite (Hsmall k) by lia.
    change (first :: digits ++ ")"%char :: rest)
      with ((first :: digits) ++ ")"%char :: rest).
    rewrite CountNameLength_from_prefix;
      [|exact Hname|lia|rewrite length_cons; lia|lia].
    rewrite take_app_le by (rewrite length_cons; lia). reflexivity. }
  assert (Hscanned_len : name_length (scanned_name func (p + 1) m) = k).
  { rewrite Hscanned. unfold name_length. rewrite length_take, length_cons. lia. }
  assert (Hnext : exists next,
             char_at func (p + 1 + k) = Ok next /\ IsNamePart next = true).
  { unfold char_at. replace (p + 1 + k <? 0) with false by (symmetry; apply Z.ltb_ge; lia).
    pose proof (lookup_drop func (Z.to_nat (p + 1)) (Z.to_nat k)) as Hlook.
    replace (Z.to_nat (p + 1) + Z.to_nat k)%nat with (Z.to_nat (p + 1 + k)) in Hlook by lia.
    rewrite <- Hlook, Hdrop.
    change (first :: digits ++ ")"%char :: rest)
      with ((first :: digits) ++ ")"%char :: rest).
    rewrite lookup_app_l by (rewrite length_cons; lia).
    destruct ((first :: digits) !! Z.to_nat k) as [next|] eqn:Hk.
    - exists next. split; [reflexivity|]. exact (forallb_lookup _ _ _ _ Hname Hk).
    - apply lookup_ge_None in Hk. rewrite length_cons in Hk. lia. }
  destruct Hnext as (next & Hnext & Hnext_part).
  assert (Hnext_paren : char_eqb next "(" = false).
  { destruct (char_eqb next "(") eqn:E; [|reflexivity].
    apply char_eqb_eq in E. subst next. discriminate. }
  (* the run *)
  assert (Ho : sz_add p 1 = p + 1) by (unfold sz_add; apply Hsmall; lia).
  assert (Hend : sz_add (p + 1) m = p + 1 + m) by (unfold sz_add; apply Hsmall; lia).
  assert (Hleft : sz_sub (sz_add m (p + 1)) (p + 1) = m).
  { unfold sz_add, sz_sub. rewrite (Hsmall (m + (p + 1))) by lia.
    replace (m + (p + 1) - (p + 1)) with m by lia. apply Hsmall. lia. }
  assert (Hcursor : sz_add (p + 1) k = p + 1 + k) by (unfold sz_add; apply Hsmall; lia).
  rewrite ScanEvaluated_S. unfold ScanEvaluated_body.
  rewrite Hparen, bindM_liftM_Ok. change (char_eqb "(" "(") with true. cbv iota zeta.
  rewrite !Ho, Hbraces, bindM_liftM_Ok.
  unfold bindM at 1. rewrite ParsePart_S. unfold ParsePart_body.
  replace (m =? 0) with false by (symmetry; apply Z.eqb_neq; lia).
  unfold bindM at 1. rewrite Tokenize_S. unfold Tokenize_body.
  rewrite !Hend, Hleft.
  replace (p + 1 <? p + 1 + m) with true by (symmetry; apply Z.ltb_lt; lia).
  cbv iota. unfold bindM at 1.
  rewrite (ScanEvaluated_scans_name _ func (p + 1) m st first next Hz Hletter);
    [|rewrite Hscanned_len, Hcursor; exact Hnext|exact Hnext_paren].
  rewrite Hscanned_len, Hscanned, !Hcursor.
  destruct (k =? 0) eqn:Hzero.
  - apply Z.eqb_eq in Hzero. rewrite Hzero. change (Z.to_nat 0) with 0%nat.
    cbn [take]. unfold bindM at 1, ScanVariable. simpl.
    unfold sz_add, sz_sub, name_length. simpl.
    rewrite (Hsmall (p + 1 + 0 + 1)) by lia. rewrite Hsmall by lia.
    f_equal. f_equal. lia.
  - apply Z.eqb_neq in Hzero. rewrite (Hfirst Hzero).
    replace (Z.to_nat k) with (S (Z.to_nat (k - 1))) by lia.
    cbn [take].
    assert (Htaken : forallb IsDigit (take (Z.to_nat (k - 1)) digits) = true)
      by apply forallb_take, Hdigits.
    unfold bindM at 1. rewrite (ScanVariable_z _ _ _ Htaken).
    destruct (z_suffix_accepted _).
    + unfold retM at 1. cbv iota beta.
      rewrite Tokenize_S. unfold Tokenize_body. rewrite Hend.
      replace (p + 1 + k <? p + 1 + m) with true by (symmetry; apply Z.ltb_lt; lia).
      cbn [negb]. cbv iota.
      unfold bindM at 1, liftM at 1.
      rewrite (ScanOperator_name_part _ _ _ Hnext Hnext_part).
      unfold sz_add, sz_sub. rewrite (Hsmall (p + 1 + k + 1)) by lia.
      rewrite Hsmall by lia. simpl. f_equal. f_equal. lia.
    + unfold name_length, sz_sub. rewrite length_cons, length_take.
      rewrite Hsmall by lia. simpl. f_equal. f_equal. lia.
Qed.

(** X24: a variable in parentheses at the start of the text is never
    accepted ([(z)], [(c)*2], [(z12)+1]).  The span between the parentheses
    starts at offset 1, and [ScanEvaluated] counts the name with the length
    of the span less that offset, so the name loses its last character:
    a single letter becomes the empty name (UnexpectedSymbol at offset 2),
    and [z] with digits is cut and fails on the cut name (UnexpectedSymbol
    at offset 1) or on the digit behind it (OperatorExpected). *)
Theorem Parse_parenthesised_variable (function : string) (first : ascii)
    (digits rest : list ascii) (st : FunctionParser) :
  let m := Z.of_nat (length digits) + 1 in
  StripWhitespace function = "("%char :: first :: digits ++ ")"%char :: rest ->
  Z.of_nat (length ("("%char :: first :: digits ++ ")"%char :: rest)) + 2
    < 2 ^ SIZE_WIDTH ->
  IsLetter first = true ->
  (digits <> [] -> first = "z"%char) ->
  forallb IsDigit digits = true ->
  (Parse function st).1 =
    Throw
      (if m =? 1 then FuncParseExcept FuncParseExcept.UnexpectedSymbol 2
       else if z_suffix_accepted (take (Z.to_nat (m - 2)) digits)
            then FuncParseExcept FuncParseExcept.OperatorExpected m
            else FuncParseExcept FuncParseExcept.UnexpectedSymbol 1).
Proof.
  intros m Hinput Hsize Hletter Hfirst Hdigits.
  set (text := first :: digits ++ ")"%char :: rest) in *.
  assert (Hlen : Z.of_nat (length ("("%char :: text))
                 = Z.of_nat (length digits) + Z.of_nat (length rest) + 3).
  { unfold text. rewrite !length_cons, length_app, length_cons. lia. }
  destruct (ScanEvaluated (S (S (S (ParseFuel text - 1)))) ("("%char :: text) 0
              (Z.of_nat (length ("("%char :: text))) FunctionParser_new)
    as [r st1] eqn:Hscan.
  replace (S (S (S (ParseFuel text - 1))))
    with (S (S (S (S (4 * length text + 2))))) in Hscan
    by (unfold ParseFuel, text; rewrite length_cons; lia).
  opose proof* (ScanEvaluated_braced_name (4 * length text + 2) [] first digits rest
                  (Z.of_nat (length ("("%char :: text))) FunctionParser_new)
    as Hinner;
    [exact Hletter
    |intros Hk; apply Hfirst; intros ->; apply Hk; reflexivity
    |exact Hdigits|..|]; try (cbn [List.length]; unfold text in *; rewrite ?length_cons, ?length_app, ?length_cons in *; lia).
  cbn [app List.length] in Hinner. change (Z.of_nat 0) with 0 in Hinner.
  fold text in Hinner.
  change (S (length text)) with (length ("("%char :: text)) in Hinner.
  rewrite Hscan in Hinner. cbn [fst] in Hinner. subst r.
  replace (S (S (S (S (4 * length text + 2)))))
    with (S (S (S (ParseFuel text - 1)))) in Hscan
    by (unfold ParseFuel, text; rewrite length_cons; lia).
  apply (Parse_first_operand function text "("%char st) in Hscan;
    [|exact Hinput|lia].
  rewrite Hscan. cbn [fst]. f_equal.
  replace (Z.of_nat (length digits) + 1 - (0 + 1)) with (m - 1) by (unfold m; lia).
  replace (m - 1 =? 0) with (m =? 1) by (destruct (m =? 1) eqn:E; lia).
  replace (m - 1 - 1) with (m - 2) by lia. reflexivity.
Qed.

Lemma Parse_parenthesised_variable_witness :
  (Parse "(z)" FunctionParser_new).1 =
    Throw (FuncParseExcept FuncParseExcept.UnexpectedSymbol 2)
  /\ (Parse "( z12 ) * c" FunctionParser_new).1 =
       Throw (FuncParseExcept FuncParseExcept.OperatorExpected 3).
Proof.
  split.
  - apply (Parse_parenthesised_variable "(z)" "z" [] []);
      [reflexivity|vm_compute; reflexivity|reflexivity|intros H; reflexivity
      |reflexivity].
  - apply (Parse_parenthesised_variable "( z12 ) * c" "z" (c_str "12") (c_str "*c"));
      [reflexivity|vm_compute; reflexivity|reflexivity|intros H; reflexivity
      |reflexivity].
Defined.

(** *** The argument of a function call *)

Lemma Parse_call_on_name (function : string) (ch first : ascii)
    (text digits rest : list ascii) (st st1 : FunctionParser) (n : FunctionName.t)
    (a : Z) :
  let name := ch :: text in
  let m := Z.of_nat (length digits) + 1 in
  StripWhitespace function = name ++ "("%char :: first :: digits ++ ")"%char :: rest ->
  a = Z.of_nat (length name) ->
  Z.of_nat (length (name ++ "("%char :: first :: digits ++ ")"%char :: rest)) + 2
    < 2 ^ 62 ->
  IsLetter ch = true ->
  forallb IsNamePart name = true ->
  GetFunctionNameApplyPrecision (string_of_list_ascii name) (name_length name)
    FunctionParser_new = (Ok n, st1) ->
  IsLetter first = true ->
  (m <> a + 1 -> first = "z"%char) ->
  forallb IsDigit digits = true ->
  a + 1 <= m ->
  (Parse function st).1 =
    Throw
      (if m =? a + 1 then FuncParseExcept FuncParseExcept.UnexpectedSymbol (a + 2)
       else if z_suffix_accepted (take (Z.to_nat (m - a - 2)) digits)
            then FuncParseExcept FuncParseExcept.OperatorExpected m
            else FuncParseExcept FuncParseExcept.UnexpectedSymbol (a + 1)).
Proof.
  intros name m Hinput Ha_def Hsize Hletter Hname Hcall Hfirst_letter Hfirst Hdigits
    Hlong.
  set (tail := "("%char :: first :: digits ++ ")"%char :: rest) in *.
  assert (Hlen : Z.of_nat (length (name ++ tail))
                 = a + Z.of_nat (length digits) + Z.of_nat (length rest) + 3).
  { rewrite Ha_def. unfold tail.
    rewrite length_app, !length_cons, length_app, length_cons. lia. }
  assert (Ha : a = Z.of_nat (length text) + 1)
    by (rewrite Ha_def; unfold name; rewrite length_cons; lia).
  assert (Hwidth : 2 ^ SIZE_WIDTH = 4 * 2 ^ 62) by reflexivity.
  destruct (ScanEvaluated (S (S (S (ParseFuel (text ++ tail) - 1)))) (ch :: text ++ tail) 0
              (Z.of_nat (length (ch :: text ++ tail))) FunctionParser_new)
    as [r st2] eqn:Hscan.
  assert (Hr : r = Throw
      (if m =? a + 1 then FuncParseExcept FuncParseExcept.UnexpectedSymbol (a + 2)
       else if z_suffix_accepted (take (Z.to_nat (m - a - 2)) digits)
            then FuncParseExcept FuncParseExcept.OperatorExpected m
            else FuncParseExcept FuncParseExcept.UnexpectedSymbol (a + 1))).
  { change (ch :: text ++ tail) with (name ++ tail) in Hscan.
    unfold tail at 2 in Hscan.
    rewrite ScanEvaluated_leading_call in Hscan;
      [|exact Hletter|exact Hname|fold tail; lia].
    fold tail in Hscan.
    unfold bindM at 1 in Hscan. rewrite Hcall in Hscan.
    unfold bindM at 1 in Hscan.
    replace (S (S (ParseFuel (text ++ tail) - 1)))
      with (S (S (S (S (4 * length (text ++ tail) + 1))))) in Hscan
      by (unfold ParseFuel; lia).
    opose proof* (ScanEvaluated_braced_name (4 * length (text ++ tail) + 1) name first
                    digits rest (Z.of_nat (length (name ++ tail))) st1)
      as Hinner;
      [exact Hfirst_letter
      |intros Hk; apply Hfirst; fold m; lia
      |exact Hdigits|lia|lia|lia|].
    fold tail in Hinner. rewrite <- Ha_def in Hinner. fold m in Hinner.
    unfold name_length in Hscan. rewrite <- Ha_def in Hscan.
    destruct (ScanEvaluated _ (name ++ tail) a _ st1) as [r' st3].
    cbn [fst] in Hinner. subst r'. injection Hscan as <- _.
    f_equal.
    replace (m - (a + 1) =? 0) with (m =? a + 1)
      by (destruct (m =? a + 1) eqn:E; lia).
    replace (m - (a + 1) - 1) with (m - a - 2) by lia. reflexivity. }
  subst r.
  apply (Parse_first_operand function (text ++ tail) ch st) in Hscan;
    [|exact Hinput|change (ch :: text ++ tail) with (name ++ tail); lia].
  rewrite Hscan. reflexivity.
Qed.

(** X25: a variable [z] with an index as the argument of a function at
    the start of the text is rejected as soon as its name is longer than
    the name of the function ([sin(z123)], [re(z12)]).  The argument starts
    behind the name and the parenthesis, and [ScanEvaluated] counts its
    name with the length of the argument less that offset.  A name one
    character longer than the function's becomes the empty name
    (UnexpectedSymbol behind its first character); a longer one is cut and
    fails on the cut name (UnexpectedSymbol at its start) or on the digit
    behind it (OperatorExpected). *)
Theorem Parse_call_truncates_argument (function : string)
    (name : FunctionName.t) (digits rest : list ascii) (st : FunctionParser) :
  let a := Z.of_nat (String.length (FunctionName_text name)) in
  let m := Z.of_nat (length digits) + 1 in
  StripWhitespace function =
    list_ascii_of_string (FunctionName_text name)
      ++ "("%char :: "z"%char :: digits ++ ")"%char :: rest ->
  Z.of_nat (length digits) + Z.of_nat (length rest) + 9 < 2 ^ 62 ->
  forallb IsDigit digits = true ->
  a + 1 <= m ->
  (Parse function st).1 =
    Throw
      (if m =? a + 1 then FuncParseExcept FuncParseExcept.UnexpectedSymbol (a + 2)
       else if z_suffix_accepted (take (Z.to_nat (m - a - 2)) digits)
            then FuncParseExcept FuncParseExcept.OperatorExpected m
            else FuncParseExcept FuncParseExcept.UnexpectedSymbol (a + 1)).
Proof.
  intros a m Hinput Hsize Hdigits Hlong.
  destruct name;
    (eapply (Parse_call_on_name function _ "z"%char _ digits rest st);
     [exact Hinput|reflexivity
     |cbn [FunctionName_text list_ascii_of_string]; simpl;
      rewrite ?length_app, ?length_cons; lia
     |reflexivity|reflexivity|vm_compute; reflexivity|reflexivity
     |intros _; reflexivity|exact Hdigits|exact Hlong]).
Qed.

Lemma Parse_call_truncates_argument_witness :
  (Parse "sin(z123)" FunctionParser_new).1 =
    Throw (FuncParseExcept FuncParseExcept.UnexpectedSymbol 5)
  /\ (Parse "re(z12) + 1" FunctionParser_new).1 =
       Throw (FuncParseExcept FuncParseExcept.UnexpectedSymbol 4)
  /\ (Parse "cosh(z123456)" FunctionParser_new).1 =
       Throw (FuncParseExcept FuncParseExcept.OperatorExpected 7).
Proof.
  split; [|split].
  - apply (Parse_call_truncates_argument "sin(z123)" FunctionName.sin (c_str "123") []);
      [reflexivity|vm_compute; reflexivity|reflexivity|simpl; lia].
  - apply (Parse_call_truncates_argument "re(z12) + 1" FunctionName.re (c_str "12")
             (c_str "+1"));
      [reflexivity|vm_compute; reflexivity|reflexivity|simpl; lia].
  - apply (Parse_call_truncates_argument "cosh(z123456)" FunctionName.cosh
             (c_str "123456") []);
      [reflexivity|vm_compute; reflexivity|reflexivity|simpl; lia].
Defined.

(** ** Failure of [Parse]: what the scan leaves behind (C10) *)

(** The members after [ParsePart] are those the token loop left: the
    reducer and the throws behind the loop touch no member. *)
Lemma ParsePart_members fuel func offset length st r st' :
  ParsePart (S fuel) func offset length st = (r, st') ->
  length <> 0 ->
  exists r0, Tokenize fuel func offset length offset true [] st = (r0, st').
Proof.
  rewrite ParsePart_S. unfold ParsePart_body. intros Hrun Hlength.
  replace (length =? 0) with false in Hrun by (symmetry; apply Z.eqb_neq, Hlength).
  unfold bindM at 1 in Hrun.
  destruct (Tokenize fuel func offset length offset true [] st)
    as [[[tokenized scanEvaluated]|e0| |] st1]; try (injection Hrun as _ <-; eauto).
  exists (Ok (tokenized, scanEvaluated)). f_equal.
  destruct scanEvaluated; [injection Hrun as _ <-; reflexivity|].
  destruct (bool_decide _); [injection Hrun as _ <-; reflexivity|].
  unfold bindM, liftM in Hrun.
  destruct (Reduce tokenized) as [[v tokenCount]|e1| |];
    try (injection Hrun as _ <-; reflexivity).
  destruct (negb _); injection Hrun as _ <-; reflexivity.
Qed.

Lemma Single_kept func st st' :
  session_extends func st st' ->
  m_supportedPrecision st = Single -> m_supportedPrecision st' = Single.
Proof. intros [_ _ _ [Hsame|Hsingle] _] Hst; congruence. Qed.

(** C10, amended: if [Parse] throws, the root accessor returns no node and
    the stored text is empty, and the other two members are not reset:
    they are left as the scan had them at the throw.  A variable that
    starts the text stays in the set of used indices, and a call of a
    function other than [pos], [re], [im] that starts the text leaves the
    precision at [Single]; the precision is the initial one or [Single]. *)
Theorem Parse_throw_stores_nothing (function : string) (st st' : FunctionParser)
    (e : FuncParseExcept.t) (Hthrow : Parse function st = (Throw e, st')) :
  PseudoCode st' = None
  /\ m_inputFunc st' = EmptyString
  /\ (SupportedPrecision st' = Extended \/ SupportedPrecision st' = Single)
  /\ ParsePart (ParseFuel (StripWhitespace function)) (StripWhitespace function) 0
       (Z.of_nat (length (StripWhitespace function))) FunctionParser_new
     = (Throw e, st')
  /\ (forall (name rest : list ascii) (index : Z) (st1 : FunctionParser),
        StripWhitespace function = name ++ rest ->
        Z.of_nat (length (StripWhitespace function)) < 2 ^ SIZE_WIDTH ->
        IsLetter (name_at name 0) = true ->
        forallb IsNamePart name = true ->
        IsNamePart (name_at rest 0) = false ->
        char_eqb (name_at rest 0) "(" = false ->
        ScanVariable name (name_length name) FunctionParser_new
          = (Ok (Variable' index), st1) ->
        index ∈ UsedVariables st')
  /\ (forall (name : FunctionName.t) (rest : list ascii),
        StripWhitespace function
          = list_ascii_of_string (FunctionName_text name) ++ "("%char :: rest ->
        Z.of_nat (length (StripWhitespace function)) < 2 ^ SIZE_WIDTH ->
        needs_full_precision name = true ->
        SupportedPrecision st' = Single).
Proof.
  set (input := StripWhitespace function).
  rewrite Parse_unfold in Hthrow. cbv zeta in Hthrow. fold input in Hthrow.
  destruct (ParsePart _ _ _ _ _) as [[?| | |] st1] eqn:E; try discriminate.
  injection Hthrow as <- <-.
  destruct (preserves_ParsePart _ _ _ _ _ _ _ E) as [Hi Hp _ Hs _].
  split; [exact Hp|]. split; [exact Hi|]. split; [exact Hs|].
  split; [reflexivity|].
  assert (Hfuel : ParseFuel input = S (S (S (4 * length input + 1))))
    by (unfold ParseFuel; lia).
  rewrite Hfuel in E. clearbody input.
  split.
  - intros name rest index st2 Hinput Hsize Hletter Hname Hrest Hparen Hscan.
    assert (Hpos : (1 <= length name)%nat)
      by (destruct name; [discriminate Hletter|simpl; lia]).
    subst input. rewrite length_app in Hsize.
    apply ParsePart_members in E as [r0 Hloop]; [|rewrite length_app; lia].
    rewrite Tokenize_leading_variable in Hloop;
      [|exact Hletter|exact Hname|exact Hrest|exact Hparen
       |rewrite length_app; lia|rewrite length_app; lia].
    unfold bindM at 1 in Hloop. rewrite Hscan in Hloop.
    apply ScanVariable_sound in Hscan as ((Hin & _) & _ & _).
    apply (proj2 (proj2 (preserves_parser (name ++ rest) _))) in Hloop.
    destruct Hloop as [_ _ Hsub _ _].
    apply Hsub, Hin. simpl. apply elem_of_singleton. reflexivity.
  - intros name rest Hinput Hsize Hfull.
    set (text := list_ascii_of_string (FunctionName_text name)) in *.
    assert (Hlen : length input = (length text + S (length rest))%nat)
      by (rewrite Hinput, length_app; reflexivity).
    rewrite Hlen in Hsize.
    assert (Htext : IsLetter (name_at text 0) = true
                    /\ forallb IsNamePart text = true
                    /\ GetFunctionNameApplyPrecision (string_of_list_ascii text)
                         (name_length text) FunctionParser_new
                       = (Ok name, set_supportedPrecision Single FunctionParser_new))
      by (unfold text; destruct name; try discriminate Hfull;
          repeat split; vm_compute; reflexivity).
    destruct Htext as (Hletter & Hname & Hcall).
    apply ParsePart_members in E as [r0 Hloop]; [|lia].
    rewrite Tokenize_first_operand in Hloop by lia.
    unfold bindM at 1 in Hloop.
    assert (Hcall' :
      ScanEvaluated (S (4 * length input + 1)) input 0 (Z.of_nat (length input))
        FunctionParser_new
      = bindM (ScanEvaluated (4 * length input + 1) input (name_length text)
                 (Z.of_nat (length input)))
          (fun r => let '(param, offset) := r in
                    retM (Some (Function name param), offset))
          (set_supportedPrecision Single FunctionParser_new)).
    { rewrite Hinput at 2 4.
      rewrite ScanEvaluated_leading_call; [|exact Hletter|exact Hname|lia].
      unfold bindM at 1. rewrite Hcall. rewrite <- Hinput. reflexivity. }
    rewrite Hcall' in Hloop. clear Hcall'.
    set (st2 := set_supportedPrecision Single FunctionParser_new) in *.
    destruct (bindM _ _ st2) as [r1 st3] eqn:Hparam.
    assert (Hst3 : m_supportedPrecision st3 = Single).
    { eapply (Single_kept input st2); [|reflexivity].
      revert Hparam. apply preserves_bindM.
      - apply preserves_parser.
      - intros [param offset] _. apply preserves_retM. }
    unfold SupportedPrecision.
    destruct r1 as [[token i]| | |].
    + apply (proj2 (proj2 (preserves_parser input _))) in Hloop.
      exact (Single_kept _ _ _ Hloop Hst3).
    + injection Hloop as _ <-. exact Hst3.
    + injection Hloop as _ <-. exact Hst3.
    + injection Hloop as _ <-. exact Hst3.
Qed.

Lemma Parse_throw_stores_nothing_witness :
  Parse "sin(z)+" FunctionParser_new =
    (Throw (FuncParseExcept FuncParseExcept.DanglingOperator 6),
     mkFunctionParser {[ 0 ]} Single "" None)
  /\ SupportedPrecision (Parse "sin(z)+" FunctionParser_new).2 = Single
  /\ Parse "z7 * (" FunctionParser_new =
       (Throw (FuncParseExcept FuncParseExcept.OpenBraces 4),
        mkFunctionParser {[ 7 ]} Extended "" None)
  /\ 7 ∈ UsedVariables (Parse "z7 * (" FunctionParser_new).2.
Proof.
  split; [vm_compute; reflexivity|]. split; [|split; [vm_compute; reflexivity|]].
  - destruct (Parse_throw_stores_nothing "sin(z)+" FunctionParser_new
                (Parse "sin(z)+" FunctionParser_new).2
                (FuncParseExcept FuncParseExcept.DanglingOperator 6)
                ltac:(vm_compute; reflexivity))
      as (_ & _ & _ & _ & _ & Hcall).
    apply (Hcall FunctionName.sin (c_str "z)+"));
      [reflexivity|vm_compute; reflexivity|reflexivity].
  - destruct (Parse_throw_stores_nothing "z7 * (" FunctionParser_new
                (Parse "z7 * (" FunctionParser_new).2
                (FuncParseExcept FuncParseExcept.OpenBraces 4)
                ltac:(vm_compute; reflexivity))
      as (_ & _ & _ & _ & Hvariable & _).
    apply (Hvariable (c_str "z7") (c_str "*(") 7
             (mkFunctionParser {[ 7 ]} Extended "" None));
      [reflexivity|vm_compute; reflexivity|reflexivity|reflexivity|reflexivity
      |reflexivity|vm_compute; reflexivity].
Defined.
